(** * WorthItService (app.py): transcript and comment acquisition

    A shallow embedding of the parts of [app.py] that decide the testable
    properties of the service: the video-id normaliser, the proxy provider
    pool, the transcript orchestrator [get_transcript], the comment fallback
    chain [_fetch_comments_resilient], the two cache tiers and the
    single-flight code of the two endpoints; then the language preferences
    of a request, the three transcript sources ([fetch_api_once],
    [timedtext_try_languages], [fetch_ytdlp]) and the two comment sources.

    Conventions.
    - A Python [str] is the list of its Unicode code points.
    - Clock readings ([time.time()], the timer of [TTLCache]) and durations
      are integers counting milliseconds.
    - Results of the network adapters (youtube-transcript-api, timedtext,
      yt-dlp, youtube-comment-downloader) are inputs of the model. *)

From Stdlib Require Import ZArith NArith Lia List Bool String Ascii.
From Stdlib Require Import Sorting.Sorted Sorting.Permutation.
From stdpp Require Import base option list gmap.

Open Scope Z_scope.

(** ** Python strings *)

Definition pystr := list N.

(** An ASCII literal as a Python string. *)
Definition py (s : string) : pystr := List.map N_of_ascii (list_ascii_of_string s).

Definition seconds (n : Z) : Z := 1000 * n.

(* ------------------------------------------------------------------ *)
(** ** Identifier normaliser: [validate_video_id], [extract_video_id] *)

Module VideoId.

Definition in_range (lo hi c : N) : bool := (N.leb lo c) && (N.leb c hi).

Definition ascii_digit (c : N) : bool := in_range 48 57 c.
Definition ascii_upper (c : N) : bool := in_range 65 90 c.
Definition ascii_lower (c : N) : bool := in_range 97 122 c.

(** The character class [[a-zA-Z0-9_-]] of the two extraction patterns. *)
Definition id_class (c : N) : bool :=
  ascii_lower c || ascii_upper c || ascii_digit c || N.eqb c 95 || N.eqb c 45.

(** [str.isalnum] on the code points below U+0100: the ASCII letters and
    digits, the ordinal indicators, superscript digits, micro sign, vulgar
    fractions, and the Latin-1 letters (all of U+00C0..U+00FF except the
    multiplication and division signs). *)
Definition latin1_alnum (c : N) : bool :=
  ascii_digit c || ascii_upper c || ascii_lower c
  || N.eqb c 170 || N.eqb c 178 || N.eqb c 179 || N.eqb c 181
  || N.eqb c 185 || N.eqb c 186 || in_range 188 190 c
  || in_range 192 214 c || in_range 216 246 c || in_range 248 255 c.

Section Normaliser.

(** [str.isalnum] on the code points from U+0100 on is the table of the
    Unicode database that the interpreter ships; it stays a parameter. *)
Variable unicode_alnum : N -> bool.

Definition py_isalnum (c : N) : bool :=
  if N.ltb c 256 then latin1_alnum c else unicode_alnum c.

(** [\w] in a [str] pattern without [re.ASCII]: alphanumeric or underscore. *)
Definition word_char (c : N) : bool := py_isalnum c || N.eqb c 95.

(** [[\w-]]. *)
Definition video_id_class (c : N) : bool := word_char c || N.eqb c 45.

(** [cls{n}] at the start of [s]: the [n] characters consumed and the rest. *)
Fixpoint take_class (cls : N -> bool) (n : nat) (s : pystr) : option (pystr * pystr) :=
  match n with
  | O => Some ([], s)
  | S n' =>
      match s with
      | [] => None
      | c :: s' =>
          if cls c then
            match take_class cls n' s' with
            | Some (cap, rest) => Some (c :: cap, rest)
            | None => None
            end
          else None
      end
  end.

(** [VIDEO_ID_REGEX.fullmatch(video_id)] for [^[\w-]{11}$]: the eleven
    characters must use up the whole string. *)
Definition validate_video_id (video_id : pystr) : bool :=
  match take_class video_id_class 11 video_id with
  | Some (_, []) => true
  | _ => false
  end.

(** A literal at the start of [s]. *)
Fixpoint strip_literal (lit s : pystr) : option pystr :=
  match lit with
  | [] => Some s
  | a :: lit' =>
      match s with
      | [] => None
      | c :: s' => if N.eqb a c then strip_literal lit' s' else None
      end
  end.

(** A pattern [(?:alt1|alt2|...)(cls{n})]: the alternatives are tried in
    order at one position, the next one when the group fails after it. *)
Record pattern := { alternatives : list pystr; group_class : N -> bool; group_len : nat }.

Fixpoint match_alternatives (alts : list pystr) (cls : N -> bool) (n : nat) (s : pystr)
  : option pystr :=
  match alts with
  | [] => None
  | a :: alts' =>
      match strip_literal a s with
      | Some rest =>
          match take_class cls n rest with
          | Some (cap, _) => Some cap
          | None => match_alternatives alts' cls n s
          end
      | None => match_alternatives alts' cls n s
      end
  end.

Definition match_here (p : pattern) (s : pystr) : option pystr :=
  match_alternatives (alternatives p) (group_class p) (group_len p) s.

(** [re.search(pattern, s)], giving [match.group(1)]: leftmost match. *)
Fixpoint re_search (p : pattern) (s : pystr) : option pystr :=
  match match_here p s with
  | Some cap => Some cap
  | None =>
      match s with
      | [] => None
      | _ :: s' => re_search p s'
      end
  end.

Definition patterns : list pattern :=
  [ {| alternatives := [py "v="; py "/"; py "embed/"; py "shorts/"; py "live/"];
       group_class := id_class; group_len := 11 |};
    {| alternatives := [py "youtu.be/"];
       group_class := id_class; group_len := 11 |} ].

Fixpoint try_patterns (ps : list pattern) (url_or_id : pystr) : option pystr :=
  match ps with
  | [] => None
  | p :: ps' =>
      match re_search p url_or_id with
      | Some vid => if validate_video_id vid then Some vid else try_patterns ps' url_or_id
      | None => try_patterns ps' url_or_id
      end
  end.

Definition extract_video_id (url_or_id : pystr) : option pystr :=
  if validate_video_id url_or_id then Some url_or_id
  else try_patterns patterns url_or_id.

(** The regular expression [^[A-Za-z0-9_-]{11}$] of the data model. *)
Definition matches_id_regex (s : pystr) : bool :=
  Nat.eqb (List.length s) 11 && forallb id_class s.

End Normaliser.

End VideoId.

(* ------------------------------------------------------------------ *)
(** ** Exceptions and transcript payloads *)

(** The exception classes that the handlers of [app.py] tell apart.
    [RetrievalError] stands for the classes caught together with
    [CouldNotRetrieveTranscript]: [RequestBlocked], [VideoUnavailable],
    [AgeRestricted], [TranscriptsDisabled]; [OtherException] for every other
    subclass of [Exception]. *)
Inductive exn :=
| NoTranscriptFound
| RetrievalError
| RequestException
| PermanentCommentBlock
| OtherException.

Inductive outcome (A : Type) :=
| Return (a : A)
| Raise (e : exn).
Arguments Return {A} a.
Arguments Raise {A} e.

(** The parameters without a default of [NoTranscriptFound.__init__] in
    youtube-transcript-api, [self] apart: [video_id],
    [requested_language_codes] and [transcript_data], the three arguments
    that every call of the constructor in [app.py] passes
    ([_get_or_spawn_transcript]). *)
Definition NoTranscriptFound_required_arguments : nat := 3.

(** The statement [raise NoTranscriptFound], which names the class and
    not an instance: Python builds the instance itself, without arguments,
    and a constructor that requires some fails with [TypeError], one of the
    exceptions that [OtherException] stands for; that exception is the one
    raised. *)
Definition raise_NoTranscriptFound {A : Type} : outcome A :=
  match NoTranscriptFound_required_arguments with
  | O => Raise NoTranscriptFound
  | S _ => Raise OtherException
  end.

Record language_info := {
  code : pystr;
  label : pystr;
  is_generated : bool }.

Record track := {
  track_code : pystr;
  track_label : pystr;
  track_is_generated : bool;
  is_translatable : bool;
  base_url : pystr }.

Record snippet := {
  snippet_text : pystr;
  start : Z;
  duration : Z }.

(** The dict built by [make_transcript_payload]; the key ["snippets"] is
    present only for a non-empty list. *)
Record TranscriptPayload := {
  text : pystr;
  language : language_info;
  tracks : list track;
  snippets : option (list snippet) }.

Definition unknown : pystr := py "unknown".

(** [x or y] on strings. *)
Definition str_or (x y : pystr) : pystr := match x with [] => y | _ => x end.

Definition make_transcript_payload (txt language_code language_label : pystr)
    (generated : bool) (trks : list track) (snips : list snippet) : TranscriptPayload :=
  {| text := txt;
     language := {| code := str_or language_code unknown;
                    label := str_or language_label (str_or language_code unknown);
                    is_generated := generated |};
     tracks := trks;
     snippets := match snips with [] => None | _ => Some snips end |}.

(* ------------------------------------------------------------------ *)
(** ** Proxy provider pool *)

Module ProxyPool.

Record TranscriptProxyProvider := {
  name : string;
  proxy_config : string;
  display : string;
  _failure_count : Z;
  _cooldown_until : Z }.

(** [TranscriptProxyProvider.__init__]. *)
Definition new_provider (n cfg d : string) : TranscriptProxyProvider :=
  {| name := n; proxy_config := cfg; display := d;
     _failure_count := 0; _cooldown_until := 0 |}.

(** [time.time() >= self._cooldown_until], [now] being the clock reading. *)
Definition is_available (now : Z) (p : TranscriptProxyProvider) : bool :=
  _cooldown_until p <=? now.

Definition cooldown_remaining (now : Z) (p : TranscriptProxyProvider) : Z :=
  Z.max 0 (_cooldown_until p - now).

Definition record_success (p : TranscriptProxyProvider) : TranscriptProxyProvider :=
  {| name := name p; proxy_config := proxy_config p; display := display p;
     _failure_count := 0; _cooldown_until := 0 |}.

Section Policy.

Variable TRANSCRIPT_PROXY_FAILURE_THRESHOLD : Z.
Variable TRANSCRIPT_PROXY_COOLDOWN_SECONDS : Z.
Variable TRANSCRIPT_PROXY_ATTEMPTS_PER_PROVIDER : Z.

(** [record_failure]: the flag [enters_cooldown] and the provider after the
    call; the body runs under the provider's lock, so it is one transition. *)
Definition record_failure (now : Z) (p : TranscriptProxyProvider)
  : bool * TranscriptProxyProvider :=
  let count := _failure_count p + 1 in
  if TRANSCRIPT_PROXY_FAILURE_THRESHOLD <=? count then
    (true,
     {| name := name p; proxy_config := proxy_config p; display := display p;
        _failure_count := 0;
        _cooldown_until := now + TRANSCRIPT_PROXY_COOLDOWN_SECONDS |})
  else
    (false,
     {| name := name p; proxy_config := proxy_config p; display := display p;
        _failure_count := count;
        _cooldown_until := _cooldown_until p |}).

(** A call made on a provider, with the clock reading it sees. *)
Inductive call :=
| CallSuccess
| CallFailure (now : Z).

Definition apply_call (p : TranscriptProxyProvider) (c : call) : TranscriptProxyProvider :=
  match c with
  | CallSuccess => record_success p
  | CallFailure now => snd (record_failure now p)
  end.

Definition run_calls (cs : list call) (p : TranscriptProxyProvider) : TranscriptProxyProvider :=
  fold_left apply_call cs p.

(** The list [TRANSCRIPT_PROXY_PROVIDERS] holds the provider objects; a
    reference to one of them is its position in that list. *)
Definition pool := list TranscriptProxyProvider.

Definition deref (ps : pool) (refs : list nat) : list TranscriptProxyProvider :=
  omap (fun r => ps !! r) refs.

(** [sorted(xs, key=...)]: a stable sort, here by insertion from the right. *)
Fixpoint insert_by {A : Type} (key : A -> Z) (x : A) (l : list A) : list A :=
  match l with
  | [] => [x]
  | y :: l' => if key x <=? key y then x :: y :: l' else y :: insert_by key x l'
  end.

Definition sorted {A : Type} (key : A -> Z) (l : list A) : list A :=
  fold_right (insert_by key) [] l.

Definition cooldown_key (ps : pool) (r : nat) : Z :=
  match ps !! r with
  | Some p => _cooldown_until p
  | None => 0
  end.

Definition available_ref (ps : pool) (now : Z) (r : nat) : bool :=
  match ps !! r with
  | Some p => is_available now p
  | None => false
  end.

Definition _select_transcript_proxy_providers (ps : pool) (now : Z) : list nat :=
  match ps with
  | [] => []
  | _ =>
      let available := List.filter (available_ref ps now) (seq 0 (length ps)) in
      match available with
      | _ :: _ => available
      | [] => sorted (cooldown_key ps) (seq 0 (length ps))
      end
  end.

End Policy.

End ProxyPool.

(* ------------------------------------------------------------------ *)
(** ** The transcript orchestrator [get_transcript] *)

Module Orchestrator.
Import ProxyPool.

(** The names of the two fallback steps. *)
Inductive fallback :=
| timedtext
| yt_dlp_no_proxy.

(** The adapter calls behind the two lambdas of [fallback_attempts], with
    the proxy argument each one passes. *)
Inductive adapter_call :=
| call_timedtext_try_languages (allow_proxy : bool)
| call_fetch_ytdlp (proxy_url : option string).

Inductive attempt_status :=
| status_exception
| status_success
| status_empty.

(** One entry of [proxy_attempt_details["providers"]]. *)
Record provider_log := {
  provider : nat;
  attempts : list attempt_status;
  skipped_due_to_cooldown : bool;
  cooldown_break : bool;
  cooldown_started : bool }.

(** What one call of [get_transcript] reads from outside: the clock, and
    the results of the adapters. An adapter returns a payload, returns
    [None] (or another falsy value), or raises. *)
Record env := {
  now_select : Z;
  now_check : nat -> Z;
  now_failure : nat -> nat -> Z;
  fetch_api_once : option nat -> nat -> outcome (option TranscriptPayload);
  timedtext_try_languages : bool -> outcome (option TranscriptPayload);
  fetch_ytdlp : option string -> outcome (option TranscriptPayload);
  finished_after : fallback -> option Z }.

(** What one call leaves behind. *)
Record run := {
  result : outcome TranscriptPayload;
  providers_after : pool;
  provider_logs : list provider_log;
  submitted : list adapter_call;
  fallback_timeout : bool }.

(** The exceptions of the [except (RequestBlocked, CouldNotRetrieveTranscript,
    VideoUnavailable, AgeRestricted, TranscriptsDisabled)] clause of the
    direct attempt; [NoTranscriptFound] derives from
    [CouldNotRetrieveTranscript]. *)
Definition is_retrieval_error (e : exn) : bool :=
  match e with
  | RetrievalError | NoTranscriptFound => true
  | _ => false
  end.

Definition FALLBACK_TIMEOUT : Z := seconds 12.

Section GetTranscript.

Variable TRANSCRIPT_PROXY_FAILURE_THRESHOLD : Z.
Variable TRANSCRIPT_PROXY_COOLDOWN_SECONDS : Z.
Variable TRANSCRIPT_PROXY_ATTEMPTS_PER_PROVIDER : Z.

Variable E : env.

Local Abbreviation record_failure :=
  (ProxyPool.record_failure TRANSCRIPT_PROXY_FAILURE_THRESHOLD
                            TRANSCRIPT_PROXY_COOLDOWN_SECONDS).

(** [for attempt in range(1, TRANSCRIPT_PROXY_ATTEMPTS_PER_PROVIDER + 1)] on
    the provider [r] met at position [idx]: [n] attempts are left, the next
    one has number [attempt]. *)
Fixpoint attempts_loop (r idx : nat) (n attempt : nat) (p : TranscriptProxyProvider)
    (log : list attempt_status) (started : bool)
  : option TranscriptPayload * TranscriptProxyProvider * list attempt_status * bool :=
  match n with
  | O => (None, p, log, started)
  | S n' =>
      match fetch_api_once E (Some r) attempt with
      | Raise _ =>
          let '(entered, p') := record_failure (now_failure E idx attempt) p in
          attempts_loop r idx n' (S attempt) p' (log ++ [status_exception]) (started || entered)
      | Return (Some txt) =>
          (Some txt, record_success p, log ++ [status_success], started)
      | Return None =>
          let '(entered, p') := record_failure (now_failure E idx attempt) p in
          attempts_loop r idx n' (S attempt) p' (log ++ [status_empty]) (started || entered)
      end
  end.

(** [for idx, provider in enumerate(provider_sequence)]. *)
Fixpoint providers_loop (sequence : list nat) (idx : nat) (ps : pool)
    (logs : list provider_log)
  : option TranscriptPayload * pool * list provider_log :=
  match sequence with
  | [] => (None, ps, logs)
  | r :: rest =>
      match ps !! r with
      | None => providers_loop rest (S idx) ps logs
      | Some p =>
          let available := is_available (now_check E idx) p in
          if negb available && (0 <? idx)%nat then
            providers_loop rest (S idx) ps
              (logs ++ [ {| provider := r; attempts := [];
                            skipped_due_to_cooldown := true;
                            cooldown_break := false;
                            cooldown_started := false |} ])
          else
            let '(txt, p', attempt_log, started) :=
              attempts_loop r idx (Z.to_nat TRANSCRIPT_PROXY_ATTEMPTS_PER_PROVIDER) 1
                            p [] false in
            let entry := {| provider := r; attempts := attempt_log;
                            skipped_due_to_cooldown := false;
                            cooldown_break := negb available;
                            cooldown_started := started |} in
            match txt with
            | Some t => (Some t, <[r := p']> ps, logs ++ [entry])
            | None => providers_loop rest (S idx) (<[r := p']> ps) (logs ++ [entry])
            end
      end
  end.

Definition fallback_attempts : list (fallback * adapter_call) :=
  [ (timedtext, call_timedtext_try_languages false);
    (yt_dlp_no_proxy, call_fetch_ytdlp None) ].

Definition run_adapter (c : adapter_call) : outcome (option TranscriptPayload) :=
  match c with
  | call_timedtext_try_languages allow_proxy => timedtext_try_languages E allow_proxy
  | call_fetch_ytdlp proxy_url => fetch_ytdlp E proxy_url
  end.

Definition done_in_time (timeout : Z) (f : fallback * adapter_call) : bool :=
  match finished_after E (fst f) with
  | Some t => t <=? timeout
  | None => false
  end.

Definition finish_key (f : fallback * adapter_call) : Z :=
  match finished_after E (fst f) with
  | Some t => t
  | None => 0
  end.

(** [as_completed(future_map, timeout=...)]: the futures done before the
    timeout in the order in which they finish (submission order among
    equal times), and whether [TimeoutError] is raised after them. *)
Definition as_completed (futures : list (fallback * adapter_call)) (timeout : Z)
  : list (fallback * adapter_call) * bool :=
  let done := List.filter (done_in_time timeout) futures in
  (sorted finish_key done, negb (Nat.eqb (length done) (length futures))).

(** The body of the [for future in as_completed(...)] loop. *)
Fixpoint first_result (yielded : list (fallback * adapter_call)) : option TranscriptPayload :=
  match yielded with
  | [] => None
  | f :: rest =>
      match run_adapter (snd f) with
      | Raise _ => first_result rest
      | Return (Some txt) => Some txt
      | Return None => first_result rest
      end
  end.

(** Step 2 of [get_transcript], entered with the pool and the logs that
    step 1 leaves; its last statement is [raise NoTranscriptFound]. *)
Definition fallback_stage (ps : pool) (logs : list provider_log) : run :=
  let '(yielded, timed_out) := as_completed fallback_attempts FALLBACK_TIMEOUT in
  match first_result yielded with
  | Some txt =>
      {| result := Return txt; providers_after := ps; provider_logs := logs;
         submitted := List.map snd fallback_attempts; fallback_timeout := false |}
  | None =>
      {| result := raise_NoTranscriptFound; providers_after := ps; provider_logs := logs;
         submitted := List.map snd fallback_attempts; fallback_timeout := timed_out |}
  end.

Definition get_transcript (ps : pool) : run :=
  let provider_sequence := _select_transcript_proxy_providers ps (now_select E) in
  match provider_sequence with
  | _ :: _ =>
      match providers_loop provider_sequence 0 ps [] with
      | (Some txt, ps', logs) =>
          {| result := Return txt; providers_after := ps'; provider_logs := logs;
             submitted := []; fallback_timeout := false |}
      | (None, ps', logs) => fallback_stage ps' logs
      end
  | [] =>
      match fetch_api_once E None 1 with
      | Return (Some txt) =>
          {| result := Return txt; providers_after := ps; provider_logs := [];
             submitted := []; fallback_timeout := false |}
      | Return None => fallback_stage ps []
      | Raise e =>
          if is_retrieval_error e then fallback_stage ps []
          else {| result := Raise e; providers_after := ps; provider_logs := [];
                  submitted := []; fallback_timeout := false |}
      end
  end.

End GetTranscript.

End Orchestrator.

(* ------------------------------------------------------------------ *)
(** ** The two cache tiers, events and responses *)

Module Cache.

(** [cachetools.TTLCache(maxsize, ttl)]: every entry carries the clock
    reading after which it has expired, [timer() + ttl] at the time it is
    set; an expired entry reads as missing. The eviction of other keys when
    [maxsize] is reached is not part of the model. *)
Record TTLCache (V : Type) := {
  ttl : Z;
  entries : gmap pystr (V * Z) }.
Arguments ttl {V} _.
Arguments entries {V} _.

Definition cache_get {V : Type} (now : Z) (c : TTLCache V) (k : pystr) : option V :=
  match entries c !! k with
  | Some (v, expires) => if now <? expires then Some v else None
  | None => None
  end.

(** [k in cache]. *)
Definition cache_contains {V : Type} (now : Z) (c : TTLCache V) (k : pystr) : bool :=
  match cache_get now c k with
  | Some _ => true
  | None => false
  end.

(** [cache[k] = v]. *)
Definition cache_setitem {V : Type} (now : Z) (c : TTLCache V) (k : pystr) (v : V)
  : TTLCache V :=
  {| ttl := ttl c; entries := <[k := (v, now + ttl c)]> (entries c) |}.

Inductive tier :=
| memory
| persistent.

(** One write to a cache tier, as recorded in the write history of a world. *)
Record cache_write (V : Type) := {
  written_tier : tier;
  written_key : pystr;
  written_value : V }.
Arguments written_tier {V} _.
Arguments written_key {V} _.
Arguments written_value {V} _.

(** The [threading.Event] objects created so far, each with its flag; an
    event is named by its position. *)
Definition events := list bool.

Definition new_event (es : events) : nat * events := (length es, es ++ [false]).

Definition event_set (e : nat) (es : events) : events := <[e := true]> es.

Definition event_is_set (e : nat) (es : events) : bool :=
  match es !! e with
  | Some b => b
  | None => false
  end.

Inductive body :=
| body_error (msg : string)
| body_comments (video_id : pystr) (comments : list pystr) (warning : option string)
| body_transcript (video_id : pystr) (payload : TranscriptPayload).

(** A Flask response: status, JSON body, [max-age] of [Cache-Control]. *)
Record response := {
  status : Z;
  json : body;
  max_age : option Z }.

Definition respond (st : Z) (b : body) : response :=
  {| status := st; json := b; max_age := None |}.

End Cache.

(* ------------------------------------------------------------------ *)
(** ** The comment engine *)

Module Comments.
Import Cache.

(** The entries of [comment_retrieval_strategies], in their order. *)
Inductive strategy :=
| downloader_no_proxy
| downloader_with_proxy
| yt_dlp_no_proxy
| yt_dlp_with_proxy.

(** The two adapters; the argument is [use_proxy]. *)
Record adapters := {
  _fetch_comments_downloader : bool -> outcome (list pystr);
  _fetch_comments_from_ytdlp : bool -> outcome (list pystr) }.

Definition comment_retrieval_strategies : list strategy :=
  [downloader_no_proxy; downloader_with_proxy; yt_dlp_no_proxy; yt_dlp_with_proxy].

Definition fetch_func (A : adapters) (s : strategy) : outcome (list pystr) :=
  match s with
  | downloader_no_proxy => _fetch_comments_downloader A false
  | downloader_with_proxy => _fetch_comments_downloader A true
  | yt_dlp_no_proxy => _fetch_comments_from_ytdlp A false
  | yt_dlp_with_proxy => _fetch_comments_from_ytdlp A true
  end.

(** What [_fetch_comments_resilient] returns, with the strategies it has
    invoked and its flag [permanent_block_detected]. It has no path that
    raises. *)
Record resilient := {
  comments : list pystr;
  invoked : list strategy;
  permanent_block_detected : bool }.

Fixpoint resilient_loop (A : adapters) (strategies : list strategy) (done : list strategy)
  : resilient :=
  match strategies with
  | [] => {| comments := []; invoked := done; permanent_block_detected := false |}
  | s :: rest =>
      match fetch_func A s with
      | Raise PermanentCommentBlock =>
          {| comments := []; invoked := done ++ [s]; permanent_block_detected := true |}
      | Raise _ => resilient_loop A rest (done ++ [s])
      | Return [] => resilient_loop A rest (done ++ [s])
      | Return (c :: cs) =>
          {| comments := c :: cs; invoked := done ++ [s];
             permanent_block_detected := false |}
      end
  end.

Definition _fetch_comments_resilient (A : adapters) : resilient :=
  resilient_loop A comment_retrieval_strategies [].

(** The globals of the comment endpoint. [comment_writes] is the history of
    the writes to the two tiers, oldest first. *)
Record world := {
  comment_cache : TTLCache (list pystr);
  comment_db : gmap pystr (list pystr);
  comment_inflight_events : gmap pystr nat;
  comment_events : events;
  comment_writes : list (cache_write (list pystr)) }.

Definition set_cache (w : world) (c : TTLCache (list pystr)) : world :=
  {| comment_cache := c; comment_db := comment_db w;
     comment_inflight_events := comment_inflight_events w;
     comment_events := comment_events w; comment_writes := comment_writes w |}.

Definition set_db (w : world) (d : gmap pystr (list pystr)) : world :=
  {| comment_cache := comment_cache w; comment_db := d;
     comment_inflight_events := comment_inflight_events w;
     comment_events := comment_events w; comment_writes := comment_writes w |}.

Definition set_inflight (w : world) (m : gmap pystr nat) (es : events) : world :=
  {| comment_cache := comment_cache w; comment_db := comment_db w;
     comment_inflight_events := m;
     comment_events := es; comment_writes := comment_writes w |}.

Definition log_write (w : world) (t : tier) (k : pystr) (v : list pystr) : world :=
  {| comment_cache := comment_cache w; comment_db := comment_db w;
     comment_inflight_events := comment_inflight_events w;
     comment_events := comment_events w;
     comment_writes := comment_writes w ++
        [ {| written_tier := t; written_key := k; written_value := v |} ] |}.

(** [comment_cache[video_id] = v]. *)
Definition write_memory (now : Z) (k : pystr) (v : list pystr) (w : world) : world :=
  log_write (set_cache w (cache_setitem now (comment_cache w) k v)) memory k v.

(** [with shelve.open(PERSISTENT_COMMENT_DB) as db: db[video_id] = v]. *)
Definition write_persistent (k : pystr) (v : list pystr) (w : world) : world :=
  log_write (set_db w (<[k := v]> (comment_db w))) persistent k v.

Definition ok_comments (video_id : pystr) (cs : list pystr) : response :=
  respond 200 (body_comments video_id cs None).

(** [_try_serve_from_cache]: memory first, then the persistent tier, whose
    hit is copied into memory. *)
Definition _try_serve_from_cache (now : Z) (video_id : pystr) (w : world)
  : option response * world :=
  match cache_get now (comment_cache w) video_id with
  | Some cached_local => (Some (ok_comments video_id cached_local), w)
  | None =>
      match comment_db w !! video_id with
      | Some cached_disk =>
          (Some (ok_comments video_id cached_disk), write_memory now video_id cached_disk w)
      | None => (None, w)
      end
  end.

(** Where a request stands in [get_comments_endpoint]: the points at which
    other requests can run before it goes on. The cache accesses of one
    [_try_serve_from_cache] are taken together; the two statements of the
    [finally] block are apart. [leader] is [False] up to the wait and [True]
    from [at_fetch] on, where [evt] is the event found or created at the
    election; the safety net after the wait, for a request that is still
    not leader there, is never entered. *)
Inductive pc :=
| at_start (video_url_or_id : pystr)
| at_election (video_id : pystr)
| at_wait (video_id : pystr) (evt : nat)
| at_recheck (video_id : pystr) (evt : nat)
| at_fetch (video_id : pystr) (evt : nat)
| at_store_memory (video_id : pystr) (evt : nat) (fetched : list pystr)
| at_store_persistent (video_id : pystr) (evt : nat) (fetched : list pystr)
| at_block_memory (video_id : pystr) (evt : nat)
| at_block_persistent (video_id : pystr) (evt : nat)
| at_finally_set (video_id : pystr) (evt : nat) (r : response)
| at_finally_pop (video_id : pystr) (evt : nat) (r : response)
| done (r : response).

(** A request: its position and whether it is the one that registered its
    event at the election. The latter is a history variable. *)
Record request := {
  position : pc;
  registered : bool }.

(** What a step reads from outside: the clock, and what the call of
    [_fetch_comments_resilient] gives. *)
Record input := {
  now : Z;
  fetched : outcome (list pystr) }.

Definition blocked_warning : string :=
  "YouTube is temporarily blocking comments for this video.".

Definition technical_warning : string :=
  "Comments could not be fetched due to a technical issue.".

Section Endpoint.

Variable unicode_alnum : N -> bool.

Definition moves (p : pc) (t : request) : request :=
  {| position := p; registered := registered t |}.

Definition step (i : input) (t : request) (w : world) : request * world :=
  match position t with
  | at_start video_url_or_id =>
      match video_url_or_id with
      | [] => (moves (done (respond 400 (body_error "videoId parameter is missing"))) t, w)
      | _ =>
          match VideoId.extract_video_id unicode_alnum video_url_or_id with
          | None =>
              (moves (done (respond 400 (body_error "Invalid videoId format or URL"))) t, w)
          | Some video_id =>
              match _try_serve_from_cache (now i) video_id w with
              | (Some cached_response, w') => (moves (done cached_response) t, w')
              | (None, w') => (moves (at_election video_id) t, w')
              end
          end
      end
  | at_election video_id =>
      match comment_inflight_events w !! video_id with
      | None =>
          let '(evt, es) := new_event (comment_events w) in
          ({| position := at_fetch video_id evt; registered := true |},
           set_inflight w (<[video_id := evt]> (comment_inflight_events w)) es)
      | Some evt => (moves (at_wait video_id evt) t, w)
      end
  | at_wait video_id evt =>
      if event_is_set evt (comment_events w)
      then (moves (at_recheck video_id evt) t, w)
      else (moves (at_fetch video_id evt) t, w)
  | at_recheck video_id evt =>
      match _try_serve_from_cache (now i) video_id w with
      | (Some cached_response, w') => (moves (done cached_response) t, w')
      | (None, w') => (moves (at_fetch video_id evt) t, w')
      end
  | at_fetch video_id evt =>
      match fetched i with
      | Return cs => (moves (at_store_memory video_id evt cs) t, w)
      | Raise PermanentCommentBlock => (moves (at_block_memory video_id evt) t, w)
      | Raise _ =>
          (moves (at_finally_set video_id evt
                    (respond 200 (body_comments video_id [] (Some technical_warning)))) t, w)
      end
  | at_store_memory video_id evt cs =>
      (moves (at_store_persistent video_id evt cs) t, write_memory (now i) video_id cs w)
  | at_store_persistent video_id evt cs =>
      (moves (at_finally_set video_id evt (ok_comments video_id cs)) t,
       write_persistent video_id cs w)
  | at_block_memory video_id evt =>
      (moves (at_block_persistent video_id evt) t, write_memory (now i) video_id [] w)
  | at_block_persistent video_id evt =>
      (moves (at_finally_set video_id evt
                (respond 200 (body_comments video_id [] (Some blocked_warning)))) t,
       write_persistent video_id [] w)
  | at_finally_set video_id evt r =>
      (moves (at_finally_pop video_id evt r) t,
       set_inflight w (comment_inflight_events w) (event_set evt (comment_events w)))
  | at_finally_pop video_id evt r =>
      match comment_inflight_events w !! video_id with
      | Some current_evt =>
          if Nat.eqb current_evt evt
          then (moves (done r) t,
                set_inflight w (delete video_id (comment_inflight_events w)) (comment_events w))
          else (moves (done r) t, w)
      | None => (moves (done r) t, w)
      end
  | done r => (t, w)
  end.

End Endpoint.

End Comments.

(* ------------------------------------------------------------------ *)
(** ** The transcript endpoint *)

Module Transcript.
Import Cache.

(** [str.isspace] on one character. *)
Definition py_isspace (c : N) : bool :=
  VideoId.in_range 9 13 c || VideoId.in_range 28 32 c || N.eqb c 133 || N.eqb c 160
  || N.eqb c 5760 || VideoId.in_range 8192 8202 c || N.eqb c 8232 || N.eqb c 8233
  || N.eqb c 8239 || N.eqb c 8287 || N.eqb c 12288.

Fixpoint lstrip (s : pystr) : pystr :=
  match s with
  | [] => []
  | c :: s' => if py_isspace c then lstrip s' else s
  end.

(** [s.strip()]. *)
Definition strip (s : pystr) : pystr := rev (lstrip (rev (lstrip s))).

(** [s.split("-")[0]]. *)
Fixpoint before_dash (s : pystr) : pystr :=
  match s with
  | [] => []
  | c :: s' => if N.eqb c 45 then [] else c :: before_dash s'
  end.

Definition make_fallback_payload (txt : pystr) (languages : list pystr) (generated : bool)
  : TranscriptPayload :=
  match languages with
  | [] => make_transcript_payload txt unknown unknown generated [] []
  | first :: _ =>
      match strip first with
      | [] => make_transcript_payload txt unknown unknown generated [] []
      | base => make_transcript_payload txt (str_or (before_dash base) base) base generated [] []
      end
  end.

(** A value found in a cache tier: a dict with the key ["text"], a string
    (the negative marker, or a plain text left by an older version), or
    anything else. *)
Inductive cached_value :=
| cached_payload (p : TranscriptPayload)
| cached_str (s : pystr)
| cached_other.

Definition NOT_AVAILABLE : pystr := py "__NOT_AVAILABLE__".

Definition pystr_eqb (a b : pystr) : bool := bool_decide (a = b).

(** [cached == "__NOT_AVAILABLE__"]. *)
Definition is_marker (v : cached_value) : bool :=
  match v with
  | cached_str s => pystr_eqb s NOT_AVAILABLE
  | _ => false
  end.

Definition ensure_payload (value : cached_value) (languages : list pystr)
  : option TranscriptPayload :=
  match value with
  | cached_payload p => Some p
  | cached_str s => Some (make_fallback_payload s languages false)
  | cached_other => None
  end.

(** The globals of the transcript endpoint. [transcript_writes] is the
    history of the writes to the two tiers, oldest first. *)
Record world := {
  transcript_cache : TTLCache cached_value;
  transcript_db : gmap pystr cached_value;
  transcript_inflight_events : gmap pystr nat;
  transcript_events : events;
  transcript_writes : list (cache_write cached_value) }.

Definition set_inflight (w : world) (m : gmap pystr nat) (es : events) : world :=
  {| transcript_cache := transcript_cache w; transcript_db := transcript_db w;
     transcript_inflight_events := m;
     transcript_events := es; transcript_writes := transcript_writes w |}.

(** [transcript_cache[k] = v]. *)
Definition write_memory (now : Z) (k : pystr) (v : cached_value) (w : world) : world :=
  {| transcript_cache := cache_setitem now (transcript_cache w) k v;
     transcript_db := transcript_db w;
     transcript_inflight_events := transcript_inflight_events w;
     transcript_events := transcript_events w;
     transcript_writes := transcript_writes w ++
        [ {| written_tier := memory; written_key := k; written_value := v |} ] |}.

(** [with shelve.open(PERSISTENT_TRANSCRIPT_DB) as db: db[k] = v]. *)
Definition write_persistent (k : pystr) (v : cached_value) (w : world) : world :=
  {| transcript_cache := transcript_cache w;
     transcript_db := <[k := v]> (transcript_db w);
     transcript_inflight_events := transcript_inflight_events w;
     transcript_events := transcript_events w;
     transcript_writes := transcript_writes w ++
        [ {| written_tier := persistent; written_key := k; written_value := v |} ] |}.

(** The query of a request, after language resolution: [lang_bases] is the
    comma-joined list of base codes of a language-aware request ([None] on
    the default English-first path), [languages] the expanded list. *)
Record params := {
  videoId : pystr;
  lang_bases : option pystr;
  languages : list pystr }.

Definition cache_key_of (video_id : pystr) (q : params) : pystr :=
  match lang_bases q with
  | Some csv => video_id ++ py "::langs=" ++ csv
  | None => video_id
  end.

(** [not raw_langs and legacy_fallback_allowed]. *)
Definition legacy_allowed (q : params) : bool :=
  match lang_bases q with
  | Some _ => false
  | None => true
  end.

Definition not_available : response :=
  respond 404 (body_error "Transcript not available").

Definition not_available_short : response :=
  {| status := 404; json := body_error "Transcript not available"; max_age := Some 600 |}.

(** What every cache hit does with the value found: the marker gives 404,
    a usable value is put (back) into memory and served, anything else
    lets the request go on. *)
Definition serve (now : Z) (video_id cache_key : pystr) (q : params)
    (cached : option cached_value) (w : world) : option response * world :=
  match cached with
  | None => (None, w)
  | Some v =>
      if is_marker v then (Some not_available, w)
      else
        match ensure_payload v (languages q) with
        | Some payload =>
            (Some (respond 200 (body_transcript video_id payload)),
             write_memory now cache_key (cached_payload payload) w)
        | None => (None, w)
        end
  end.

Definition or_else (first : option response * world)
    (next : world -> option response * world) : option response * world :=
  match first with
  | (Some r, w) => (Some r, w)
  | (None, w) => next w
  end.

(** The cache checks at the head of the endpoint: memory, the persistent
    tier under the cache key, then under the legacy key. *)
Definition lookup_first (now : Z) (video_id cache_key : pystr) (q : params) (w : world)
  : option response * world :=
  or_else (serve now video_id cache_key q (cache_get now (transcript_cache w) cache_key) w)
    (fun w1 =>
       or_else (serve now video_id cache_key q (transcript_db w1 !! cache_key) w1)
         (fun w2 =>
            if legacy_allowed q
            then serve now video_id cache_key q (transcript_db w2 !! video_id) w2
            else (None, w2))).

(** The checks of a follower after its wait. *)
Definition lookup_after_wait (now : Z) (video_id cache_key : pystr) (q : params) (w : world)
  : option response * world :=
  or_else (serve now video_id cache_key q (cache_get now (transcript_cache w) cache_key) w)
    (fun w1 =>
       let cached :=
         match transcript_db w1 !! cache_key with
         | None => if legacy_allowed q then transcript_db w1 !! video_id else None
         | Some v => Some v
         end in
       serve now video_id cache_key q cached w1).

(** Where a request stands in [get_transcript_endpoint]: the points at
    which other requests can run before it goes on. The cache accesses of
    one lookup are taken together. [attempts] counts the network errors of
    the retry loop. *)
Inductive pc :=
| at_start
| at_election (video_id cache_key : pystr)
| at_wait (video_id cache_key : pystr) (evt : nat)
| at_recheck (video_id cache_key : pystr)
| at_fetch (video_id cache_key : pystr) (leader : bool) (attempts : Z)
| at_store_memory (video_id cache_key : pystr) (leader : bool) (payload : TranscriptPayload)
| at_store_persistent (video_id cache_key : pystr) (leader : bool) (payload : TranscriptPayload)
| at_negative (cache_key : pystr) (leader : bool)
| at_negative_persistent (cache_key : pystr) (leader : bool)
| at_finally (cache_key : pystr) (leader : bool) (r : response)
| done (r : response).

Record request := {
  query : params;
  position : pc }.

(** What a step reads from outside: the clock, and what the call of
    [get_transcript] gives. *)
Record input := {
  now : Z;
  fetched : outcome TranscriptPayload }.

Section Endpoint.

Variable unicode_alnum : N -> bool.

Definition moves (p : pc) (t : request) : request :=
  {| query := query t; position := p |}.

Definition step (i : input) (t : request) (w : world) : request * world :=
  let q := query t in
  match position t with
  | at_start =>
      match videoId q with
      | [] => (moves (done (respond 400 (body_error "videoId parameter is missing"))) t, w)
      | _ =>
          match VideoId.extract_video_id unicode_alnum (videoId q) with
          | None =>
              (moves (done (respond 400 (body_error "Invalid videoId format or URL"))) t, w)
          | Some video_id =>
              let cache_key := cache_key_of video_id q in
              match lookup_first (now i) video_id cache_key q w with
              | (Some r, w') => (moves (done r) t, w')
              | (None, w') => (moves (at_election video_id cache_key) t, w')
              end
          end
      end
  | at_election video_id cache_key =>
      match transcript_inflight_events w !! cache_key with
      | None =>
          let '(evt, es) := new_event (transcript_events w) in
          (moves (at_fetch video_id cache_key true 0) t,
           set_inflight w (<[cache_key := evt]> (transcript_inflight_events w)) es)
      | Some evt => (moves (at_wait video_id cache_key evt) t, w)
      end
  | at_wait video_id cache_key evt => (moves (at_recheck video_id cache_key) t, w)
  | at_recheck video_id cache_key =>
      match lookup_after_wait (now i) video_id cache_key q w with
      | (Some r, w') => (moves (done r) t, w')
      | (None, w') => (moves (at_fetch video_id cache_key false 0) t, w')
      end
  | at_fetch video_id cache_key leader attempts =>
      match fetched i with
      | Return payload => (moves (at_store_memory video_id cache_key leader payload) t, w)
      | Raise NoTranscriptFound => (moves (at_negative cache_key leader) t, w)
      | Raise RequestException =>
          if attempts + 1 <? 2
          then (moves (at_fetch video_id cache_key leader (attempts + 1)) t, w)
          else (moves (at_finally cache_key leader not_available_short) t, w)
      | Raise _ =>
          (moves (at_finally cache_key leader
                    (respond 500 (body_error "Transcript fetch failed"))) t, w)
      end
  | at_store_memory video_id cache_key leader payload =>
      (moves (at_store_persistent video_id cache_key leader payload) t,
       write_memory (now i) cache_key (cached_payload payload) w)
  | at_store_persistent video_id cache_key leader payload =>
      (moves (at_finally cache_key leader
                {| status := 200; json := body_transcript video_id payload;
                   max_age := Some 3600 |}) t,
       write_persistent cache_key (cached_payload payload) w)
  | at_negative cache_key leader =>
      if cache_contains (now i) (transcript_cache w) cache_key
      then (moves (at_finally cache_key leader not_available_short) t, w)
      else (moves (at_negative_persistent cache_key leader) t,
            write_memory (now i) cache_key (cached_str NOT_AVAILABLE) w)
  | at_negative_persistent cache_key leader =>
      (moves (at_finally cache_key leader not_available_short) t,
       write_persistent cache_key (cached_str NOT_AVAILABLE) w)
  | at_finally cache_key leader r =>
      if leader
      then
        match transcript_inflight_events w !! cache_key with
        | Some evt =>
            (moves (done r) t,
             set_inflight w (delete cache_key (transcript_inflight_events w))
                          (event_set evt (transcript_events w)))
        | None => (moves (done r) t, w)
        end
      else (moves (done r) t, w)
  | done r => (t, w)
  end.

End Endpoint.

End Transcript.

(* ------------------------------------------------------------------ *)
(** ** Requests running side by side *)

Module SingleFlight.

Section System.

Context {request world input : Type}.
Variable step : input -> request -> world -> request * world.

(** The requests being served and the globals they share. *)
Record system := {
  requests : list request;
  shared : world }.

(** Request number [n] takes its next step. *)
Definition system_step (n : nat) (i : input) (s : system) : system :=
  match requests s !! n with
  | Some t =>
      let '(t', w') := step i t (shared s) in
      {| requests := <[n := t']> (requests s); shared := w' |}
  | None => s
  end.

Definition run (schedule : list (nat * input)) (s : system) : system :=
  fold_left (fun s e => system_step (fst e) (snd e) s) schedule s.

Inductive reachable (initial : system -> Prop) : system -> Prop :=
| reachable_initial s : initial s -> reachable initial s
| reachable_step s n i : reachable initial s -> reachable initial (system_step n i s).

End System.

End SingleFlight.

(* ------------------------------------------------------------------ *)
(** ** Operations on strings and lists of strings *)

Module Str.
Import Transcript.

(** [str.lower] on one ASCII character. *)
Definition ascii_lower_char (c : N) : N :=
  if VideoId.ascii_upper c then (c + 32)%N else c.

(** [x in xs] on a list or a set of strings. *)
Definition mem (x : pystr) (xs : list pystr) : bool := existsb (pystr_eqb x) xs.

(** [bool(s)] for a string. *)
Definition truthy (s : pystr) : bool := match s with [] => false | _ => true end.

(** [bool(xs)] for a list. *)
Definition truthy_list {A : Type} (xs : list A) : bool :=
  match xs with [] => false | _ => true end.

(** [s.split(sep)] for a one-character separator. *)
Fixpoint split_on (sep : N) (s : pystr) : list pystr :=
  match s with
  | [] => [[]]
  | c :: s' =>
      if N.eqb c sep then [] :: split_on sep s'
      else match split_on sep s' with
           | [] => [[c]]
           | w :: ws => (c :: w) :: ws
           end
  end.

(** [s.split(sep, 1)[0]], which is also [s.split(sep)[0]]. *)
Fixpoint before (sep : N) (s : pystr) : pystr :=
  match s with
  | [] => []
  | c :: s' => if N.eqb c sep then [] else c :: before sep s'
  end.

(** [sep.join(xs)]. *)
Fixpoint join (sep : pystr) (xs : list pystr) : pystr :=
  match xs with
  | [] => []
  | [x] => x
  | x :: xs' => x ++ sep ++ join sep xs'
  end.

(** [xs.remove(x)] when [x] is in [xs]: the first occurrence goes. *)
Fixpoint remove_first (x : pystr) (xs : list pystr) : list pystr :=
  match xs with
  | [] => []
  | y :: xs' => if pystr_eqb x y then xs' else y :: remove_first x xs'
  end.

(** [s.startswith(prefix)]. *)
Definition starts_with (prefix s : pystr) : bool :=
  match VideoId.strip_literal prefix s with
  | Some _ => true
  | None => false
  end.

(** [needle in s]. *)
Fixpoint contains (needle s : pystr) : bool :=
  match VideoId.strip_literal needle s with
  | Some _ => true
  | None =>
      match s with
      | [] => false
      | _ :: s' => contains needle s'
      end
  end.

(** The line boundaries of [str.splitlines]. *)
Definition is_linebreak (c : N) : bool :=
  VideoId.in_range 10 13 c || VideoId.in_range 28 30 c || N.eqb c 133
  || N.eqb c 8232 || N.eqb c 8233.

(** [s.splitlines()], [line] being the part of the current line read so
    far: a carriage return followed by a line feed is one boundary, and a
    boundary at the very end opens no further line. *)
Fixpoint splitlines_from (line s : pystr) : list pystr :=
  match s with
  | [] => match line with [] => [] | _ => [line] end
  | c :: s' =>
      if is_linebreak c then
        line :: splitlines_from []
                  (match s' with
                   | d :: s'' => if N.eqb c 13 && N.eqb d 10 then s'' else s'
                   | [] => s'
                   end)
      else splitlines_from (line ++ [c]) s'
  end.

Definition splitlines (s : pystr) : list pystr := splitlines_from [] s.

Section Lower.

(** [str.lower] maps the characters one by one. From U+0080 on the mapping
    of a character (one to three characters) is the table of the
    interpreter's Unicode database, and whether a capital sigma stands in
    final position is decided from the characters around it by that
    database too; both stay parameters. *)
Variable unicode_lower : N -> pystr.
Variable final_sigma : pystr -> pystr -> bool.

(** The lower case of [c] between [done], the characters before it, and
    [rest], the characters after it. *)
Definition lower_char (done : pystr) (c : N) (rest : pystr) : pystr :=
  if N.ltb c 128 then [ascii_lower_char c]
  else if N.eqb c 931 then [if final_sigma done rest then 962%N else 963%N]
  else unicode_lower c.

Fixpoint lower_loop (done s : pystr) : pystr :=
  match s with
  | [] => []
  | c :: rest => lower_char done c rest ++ lower_loop (done ++ [c]) rest
  end.

Definition py_lower (s : pystr) : pystr := lower_loop [] s.

End Lower.

End Str.

(* ------------------------------------------------------------------ *)
(** ** Language preferences: [expand_preferred_langs],
       [_parse_accept_language_header], the language block of the
       transcript endpoint *)

Module Lang.
Import Transcript.
Import Transcript Str.

(** The dict [mapping] of [expand_preferred_langs]. *)
Definition mapping : list (pystr * list pystr) :=
  [ (py "es", [py "es"; py "es-419"; py "es-ES"; py "es-MX"; py "es-AR"; py "es-CL";
               py "es-CO"; py "es-PE"; py "es-VE"]);
    (py "pt", [py "pt"; py "pt-BR"; py "pt-PT"]);
    (py "en", [py "en"; py "en-US"; py "en-GB"; py "en-IN"]);
    (py "hi", [py "hi"; py "hi-IN"]);
    (py "ar", [py "ar"; py "ar-SA"; py "ar-EG"; py "ar-AE"]);
    (py "fr", [py "fr"; py "fr-FR"; py "fr-CA"]);
    (py "de", [py "de"; py "de-DE"]);
    (py "it", [py "it"; py "it-IT"]);
    (py "ru", [py "ru"; py "ru-RU"]);
    (py "tr", [py "tr"; py "tr-TR"]);
    (py "id", [py "id"; py "id-ID"]);
    (py "ja", [py "ja"; py "ja-JP"]);
    (py "ko", [py "ko"; py "ko-KR"]);
    (py "zh", [py "zh"; py "zh-Hans"; py "zh-Hant"; py "zh-CN"; py "zh-TW"]);
    (py "vi", [py "vi"; py "vi-VN"]);
    (py "pl", [py "pl"; py "pl-PL"]);
    (py "nl", [py "nl"; py "nl-NL"]);
    (py "fa", [py "fa"; py "fa-IR"]);
    (py "ur", [py "ur"; py "ur-PK"; py "ur-IN"]);
    (py "bn", [py "bn"; py "bn-BD"; py "bn-IN"]);
    (py "ta", [py "ta"; py "ta-IN"]);
    (py "te", [py "te"; py "te-IN"]);
    (py "th", [py "th"; py "th-TH"]) ].

(** [d.get(k)] on a dict written as the list of its items. *)
Fixpoint dict_get {V : Type} (k : pystr) (d : list (pystr * V)) : option V :=
  match d with
  | [] => None
  | (k', v) :: d' => if pystr_eqb k k' then Some v else dict_get k d'
  end.

(** [mapping.get(c, [c])]. *)
Definition variants_of (c : pystr) : list pystr :=
  match dict_get c mapping with
  | Some vs => vs
  | None => [c]
  end.

(** Step 1 of [expand_preferred_langs]: strip, drop blanks and repeats. *)
Fixpoint dedup_loop (codes seen ordered : list pystr) : list pystr :=
  match codes with
  | [] => ordered
  | c :: rest =>
      let c := strip c in
      if negb (truthy c) || mem c seen then dedup_loop rest seen ordered
      else dedup_loop rest (c :: seen) (ordered ++ [c])
  end.

(** Step 2: [ordered.remove('en'); ordered.insert(0, 'en')]. *)
Definition en_first (force_en_first : bool) (ordered : list pystr) : list pystr :=
  if force_en_first && mem (py "en") ordered
  then py "en" :: remove_first (py "en") ordered
  else ordered.

(** Step 3, inner loop: [for v in variants]. *)
Fixpoint variants_loop (variants seen out : list pystr) : list pystr * list pystr :=
  match variants with
  | [] => (seen, out)
  | v :: vs =>
      if mem v seen then variants_loop vs seen out
      else variants_loop vs (v :: seen) (out ++ [v])
  end.

(** Step 3, outer loop: [for c in ordered]. *)
Fixpoint expand_loop (ordered seen out : list pystr) : list pystr :=
  match ordered with
  | [] => out
  | c :: rest =>
      let '(seen', out') := variants_loop (variants_of c) seen out in
      expand_loop rest seen' out'
  end.

(** [xs[:n]]. *)
Definition slice_to {A : Type} (n : Z) (xs : list A) : list A :=
  if 0 <=? n then firstn (Z.to_nat n) xs
  else firstn (Z.to_nat (Z.of_nat (length xs) + n)) xs.

Section Preferences.

(** [TRANSCRIPT_LANGS], read from the environment when the module loads. *)
Variable TRANSCRIPT_LANGS : list pystr.


(** [codes] is a list of strings; [None] and the empty list are both [[]],
    a [None] entry is the empty string ([c or '']). *)
Definition expand_preferred_langs (codes : list pystr) (force_en_first : bool)
  : list pystr :=
  let codes := match codes with [] => TRANSCRIPT_LANGS | _ => codes end in
  let ordered := dedup_loop codes [] [] in
  let ordered := en_first force_en_first ordered in
  expand_loop ordered [] [].

End Preferences.

Section Requests.

Variable TRANSCRIPT_LANGS : list pystr.
Variable unicode_lower : N -> pystr.
Variable final_sigma : pystr -> pystr -> bool.

Local Abbreviation py_lower := (py_lower unicode_lower final_sigma).
Local Abbreviation expand_preferred_langs := (expand_preferred_langs TRANSCRIPT_LANGS).

(** The loop of [_parse_accept_language_header] over the stripped parts. *)
Fixpoint parse_loop (parts seen out : list pystr) : list pystr :=
  match parts with
  | [] => out
  | p :: rest =>
      let tag := py_lower (strip (before 59 p)) in
      if negb (truthy tag) || pystr_eqb tag (py "*") then parse_loop rest seen out
      else
        let base := before 45 tag in
        if truthy base && negb (mem base seen)
        then parse_loop rest (base :: seen) (out ++ [base])
        else parse_loop rest seen out
  end.

(** No statement of the [try] block raises on a string, so the handler
    [except Exception: return []] has no run of its own. *)
Definition _parse_accept_language_header (header_val : option pystr) : list pystr :=
  match header_val with
  | None => []
  | Some [] => []
  | Some h =>
      let parts := List.filter truthy (List.map strip (split_on 44 h)) in
      parse_loop parts [] []
  end.

(** The loop over [str(raw_langs).split(",")] in [get_transcript_endpoint]. *)
Fixpoint base_list_loop (cs seen base_list : list pystr) : list pystr :=
  match cs with
  | [] => base_list
  | c :: rest =>
      let cc := py_lower (strip c) in
      if negb (truthy cc) || mem cc seen then base_list_loop rest seen base_list
      else base_list_loop rest (cc :: seen) (base_list ++ [cc])
  end.

(** The language block of [get_transcript_endpoint]: from the query
    parameter [languages] and the header [Accept-Language] to the list
    [languages] and the language part of the cache key ([None] when the key
    is the video id alone and the legacy key may be consulted). *)
Definition resolve_languages (raw_langs : option pystr) (accept_lang_hdr : pystr)
  : option pystr * list pystr :=
  match raw_langs with
  | Some (c :: raw) =>
      let base_list := base_list_loop (split_on 44 (c :: raw)) [] [] in
      (Some (join (py ",") base_list), expand_preferred_langs base_list false)
  | _ =>
      let inferred_bases := _parse_accept_language_header (Some accept_lang_hdr) in
      match inferred_bases with
      | first :: _ =>
          if negb (pystr_eqb first (py "en")) then
            let inferred_bases :=
              if mem (py "en") inferred_bases then inferred_bases
              else inferred_bases ++ [py "en"] in
            (Some (join (py ",") inferred_bases),
             expand_preferred_langs inferred_bases false)
          else (None, expand_preferred_langs TRANSCRIPT_LANGS true)
      | [] => (None, expand_preferred_langs TRANSCRIPT_LANGS true)
      end
  end.

(** The query of a request as the endpoint's [step] takes it. *)
Definition query_of (video_url_or_id : pystr) (raw_langs : option pystr)
    (accept_lang_hdr : pystr) : params :=
  let '(bases, langs) := resolve_languages raw_langs accept_lang_hdr in
  {| videoId := video_url_or_id; lang_bases := bases; languages := langs |}.

End Requests.

End Lang.

(* ------------------------------------------------------------------ *)
(** ** The proxy gateway: [_gateway_url], [get_proxy_dict] *)

Module Gateway.
Import Str.

(** [bool(x)] for a value that is [None] or a string. *)
Definition configured (x : option pystr) : bool :=
  match x with
  | Some s => truthy s
  | None => false
  end.

Section Config.

(** The globals read from the environment, as they stand when a request
    is served. *)
Variable GEN_HTTPS GEN_HTTP WS_USER WS_PASS : option pystr.

Definition _gateway_url : option pystr :=
  if configured GEN_HTTPS then GEN_HTTPS
  else if configured GEN_HTTP then GEN_HTTP
  else
    match WS_USER, WS_PASS with
    | Some (c :: user), Some (d :: pass) =>
        Some (py "http://" ++ (c :: user) ++ py ":" ++ (d :: pass) ++ py "@p.webshare.io:80")
    | _, _ => None
    end.

(** The dict returned, as the list of its items. *)
Definition get_proxy_dict : list (pystr * pystr) :=
  match _gateway_url with
  | Some (c :: url) => [(py "http", c :: url); (py "https", c :: url)]
  | _ => []
  end.

End Config.

End Gateway.

(* ------------------------------------------------------------------ *)
(** ** The comment sources: [_detect_comment_permanent_block],
       [yt_dlp_extract_info], [_fetch_comments_downloader],
       [_fetch_comments_from_ytdlp] *)

Module CommentSources.
Import Str.

(** The levels under which [_YtDlpCaptureLogger] keeps a message; [debug]
    and [info] messages are dropped. *)
Inductive level :=
| warning
| error.

Definition needles : list pystr :=
  [ py "sign in to confirm you're not a bot";
    py "sign in to confirm you" ++ [8217%N] ++ py "re not a bot" ].

(** The dict [meta] of [yt_dlp_extract_info]. *)
Record meta := {
  permanent_block : bool;
  reason : option pystr }.

(** One entry of [info["comments"]]: the values under ["text"] and
    ["comment"]. *)
Record raw_comment := {
  c_text : option pystr;
  c_comment : option pystr }.

(** The [info] dict of yt-dlp, as far as the code reads it:
    [info.get("comments")]. *)
Record info_dict := {
  info_comments : option (list raw_comment) }.

(** What [ydl.extract_info] does: it returns a dict, returns [None] (or an
    empty dict), or raises an exception [e] with the text [str(e)]. *)
Inductive extraction :=
| extracted (info : option info_dict)
| extraction_error (str_e : pystr).

(** One run of yt-dlp: what the call gives and what the capture logger
    has collected by then. *)
Record ydl_run := {
  extraction_result : extraction;
  messages : list (level * pystr) }.

(** A dict yielded by the comment generator: [item.get("text")]. *)
Record item := {
  item_text : option pystr }.

(** [x or y] for a value that is [None] or a string. *)
Definition opt_or (x : option pystr) (y : pystr) : pystr :=
  match x with
  | Some (c :: s) => c :: s
  | _ => y
  end.

Section Sources.

Variable GEN_HTTPS GEN_HTTP WS_USER WS_PASS : option pystr.
Variable COMMENT_LIMIT : Z.
Variable MAX_COMMENTS_FETCH : Z.
(** [sys.maxsize], the largest count that [itertools.islice] takes. *)
Variable sys_maxsize : Z.
Variable unicode_lower : N -> pystr.
Variable final_sigma : pystr -> pystr -> bool.

(** The two libraries. A call is told apart by its [use_proxy] argument;
    it also gets the proxy that the code installs for it. The comment
    generator is the list of what its [next] gives call after call, a dict
    or an exception; the end of the list is the end of the iteration. *)
Variable YoutubeDL : bool -> option pystr -> ydl_run.
Variable get_comments_from_url : bool -> list (pystr * pystr) -> outcome (list (outcome item)).

Local Abbreviation _gateway_url := (Gateway._gateway_url GEN_HTTPS GEN_HTTP WS_USER WS_PASS).
Local Abbreviation get_proxy_dict := (Gateway.get_proxy_dict GEN_HTTPS GEN_HTTP WS_USER WS_PASS).
Local Abbreviation py_lower := (Str.py_lower unicode_lower final_sigma).

Definition _detect_comment_permanent_block (msgs : list (level * pystr))
    (extra_text : option pystr) : bool * option pystr :=
  let text := join (py " ") (List.map snd msgs) in
  let text :=
    match extra_text with
    | Some (c :: e) => text ++ py " " ++ (c :: e)
    | _ => text
    end in
  let lowered := py_lower text in
  if existsb (fun needle => contains needle lowered) needles
  then (true, Some (py "signin_required"))
  else (false, None).

(** The option ["proxy"] that [yt_dlp_extract_info] hands to yt-dlp. *)
Definition ydl_proxy (use_proxy : bool) : option pystr :=
  if use_proxy && negb (Nat.eqb (length get_proxy_dict) 0)
  then match _gateway_url with
       | Some (c :: url) => Some (c :: url)
       | _ => None
       end
  else None.

(** [yt_dlp_extract_info(video_id, extract_comments=True, use_proxy)]. *)
Definition yt_dlp_extract_info (use_proxy : bool) : option info_dict * meta :=
  let run := YoutubeDL use_proxy (ydl_proxy use_proxy) in
  match extraction_result run with
  | extracted info =>
      let '(is_blocked, why) := _detect_comment_permanent_block (messages run) None in
      (info, {| permanent_block := is_blocked; reason := why |})
  | extraction_error str_e =>
      let '(is_blocked, why) :=
        _detect_comment_permanent_block (messages run) (Some str_e) in
      (None, {| permanent_block := is_blocked; reason := why |})
  end.

(** [c.get("text") or c.get("comment") or ""]. *)
Definition comment_text (c : raw_comment) : pystr :=
  opt_or (c_text c) (opt_or (c_comment c) []).

Definition _fetch_comments_from_ytdlp (use_proxy : bool) : outcome (list pystr) :=
  let '(info, m) := yt_dlp_extract_info use_proxy in
  if permanent_block m then Raise PermanentCommentBlock
  else
    match info with
    | None => Return []
    | Some info =>
        let comments_raw :=
          match info_comments info with
          | Some cs => cs
          | None => []
          end in
        Return (List.filter truthy (List.map comment_text comments_raw))
    end.

(** [for item in itertools.islice(comments_generator, MAX_COMMENTS_FETCH)]:
    [n] items may still be pulled. *)
Fixpoint downloader_loop (n : nat) (comments_generator : list (outcome item))
    (comments_text : list pystr) : outcome (list pystr) :=
  match n with
  | O => Return comments_text
  | S n' =>
      match comments_generator with
      | [] => Return comments_text
      | Raise e :: _ => Raise e
      | Return it :: rest =>
          let comments_text :=
            match item_text it with
            | Some (c :: t) => comments_text ++ [c :: t]
            | _ => comments_text
            end in
          if COMMENT_LIMIT <=? Z.of_nat (length comments_text) then Return comments_text
          else downloader_loop n' rest comments_text
      end
  end.

(** The proxies that [_fetch_comments_downloader] installs in the session
    of the downloader: [get_proxy_dict() if use_proxy else {}]. *)
Definition downloader_proxies (use_proxy : bool) : list (pystr * pystr) :=
  if use_proxy then get_proxy_dict else [].

(** The whole body runs under [except Exception: return []]; [islice]
    raises [ValueError] for a count below 0 or above [sys.maxsize]. *)
Definition _fetch_comments_downloader (use_proxy : bool) : list pystr :=
  match get_comments_from_url use_proxy (downloader_proxies use_proxy) with
  | Raise _ => []
  | Return comments_generator =>
      if (MAX_COMMENTS_FETCH <? 0) || (sys_maxsize <? MAX_COMMENTS_FETCH) then []
      else
        match downloader_loop (Z.to_nat MAX_COMMENTS_FETCH) comments_generator [] with
        | Return comments_text => comments_text
        | Raise _ => []
        end
  end.

(** The two adapters of the fallback chain. *)
Definition sources : Comments.adapters :=
  {| Comments._fetch_comments_downloader :=
       fun use_proxy => Return (_fetch_comments_downloader use_proxy);
     Comments._fetch_comments_from_ytdlp := _fetch_comments_from_ytdlp |}.

End Sources.

End CommentSources.

(* ------------------------------------------------------------------ *)
(** ** The timedtext fallback: [_timedtext_fetch_vtt],
       [timedtext_try_languages] *)

Module Timedtext.
Import Transcript Str.

(** The kind of a listed track, ['manual'] or ['asr']. *)
Inductive kind :=
| kind_manual
| kind_asr.

Definition kind_eqb (a b : kind) : bool :=
  match a, b with
  | kind_manual, kind_manual | kind_asr, kind_asr => true
  | _, _ => false
  end.

(** The arguments of one call of [_timedtext_fetch_vtt]. *)
Record vtt_request := {
  lang : pystr;
  asr : bool;
  use_proxy : bool;
  tlang : option pystr }.

(** One thing that [timedtext_try_languages] tries: a request, and the
    language code and the flag of the payload built when it gives a text. *)
Record attempt := {
  request : vtt_request;
  payload_code : pystr;
  payload_generated : bool }.

(** What a call of [timedtext_try_languages] leaves behind: its result, the
    [use_proxy] arguments of its calls of [_timedtext_list_tracks] and the
    requests of its calls of [_timedtext_fetch_vtt], oldest first. *)
Record trial := {
  result : option TranscriptPayload;
  listings : list bool;
  requests : list vtt_request }.

(** The filter of the list comprehension of [_timedtext_fetch_vtt]. *)
Definition vtt_line_kept (l : pystr) : bool :=
  truthy l && negb (contains (py "-->") l)
  && negb (starts_with (py "WEBVTT") l) && negb (starts_with (py "Kind:") l).

(** [_timedtext_fetch_vtt] from the answer of [youtube_http.get] on: the
    status code and the text of the response, or an exception. *)
Definition vtt_text (response : outcome (Z * pystr)) : option pystr :=
  match response with
  | Raise _ => None
  | Return (status_code, body) =>
      if negb (status_code =? 200) then None
      else
        let txt := strip body in
        if negb (truthy txt)
           || (starts_with (py "<?xml") txt && contains (py "<transcript/>") txt)
        then None
        else
          let lines := List.map strip (List.filter vtt_line_kept (splitlines txt)) in
          let out := strip (join (py " ") lines) in
          match out with
          | [] => None
          | _ => Some out
          end
  end.

(** The entry of [track_manifest] for a listed track. *)
Definition manifest_entry (t : pystr * kind) : track :=
  {| track_code := fst t; track_label := fst t;
     track_is_generated := kind_eqb (snd t) kind_asr;
     is_translatable := false; base_url := [] |}.

(** [for base in base_langs: for code, kind in tracks:
      if kind == k and code.startswith(base): ...]. *)
Definition listed_attempts (k : kind) (proxy : bool) (base_langs : list pystr)
    (tracks : list (pystr * kind)) : list attempt :=
  flat_map (fun base =>
    flat_map (fun t =>
      if kind_eqb (snd t) k && starts_with base (fst t)
      then [ {| request := {| lang := fst t; asr := kind_eqb k kind_asr;
                              use_proxy := proxy; tlang := None |};
                payload_code := fst t;
                payload_generated := kind_eqb k kind_asr |} ]
      else []) tracks) base_langs.

(** [for code, kind in tracks:
      if kind == 'manual' and not code.startswith(target_base): ...]. *)
Definition translate_attempts (proxy : bool) (target_base : pystr)
    (tracks : list (pystr * kind)) : list attempt :=
  flat_map (fun t =>
    if kind_eqb (snd t) kind_manual && negb (starts_with target_base (fst t))
    then [ {| request := {| lang := fst t; asr := false;
                            use_proxy := proxy; tlang := Some target_base |};
              payload_code := target_base;
              payload_generated := false |} ]
    else []) tracks.

(** [for base in base_langs: ...], the brute force over the base codes. *)
Definition brute_attempts (generated proxy : bool) (base_langs : list pystr)
  : list attempt :=
  List.map (fun base =>
    {| request := {| lang := base; asr := generated; use_proxy := proxy; tlang := None |};
       payload_code := base;
       payload_generated := generated |}) base_langs.

Section TryLanguages.

Variable TRANSCRIPT_LANGS : list pystr.
Variable MAX_TIMEDTEXT_LANGS : Z.
Variable GEN_HTTPS GEN_HTTP WS_USER WS_PASS : option pystr.
Variable unicode_lower : N -> pystr.
Variable final_sigma : pystr -> pystr -> bool.

(** The network: the tracks that a listing gives, by [use_proxy]; and the
    answer of [youtube_http.get] to the request of a fetch, by the number
    of fetches made before it. *)
Variable _timedtext_list_tracks : bool -> list (pystr * kind).
Variable http_get : nat -> vtt_request -> outcome (Z * pystr).

Local Abbreviation py_lower := (Str.py_lower unicode_lower final_sigma).
Local Abbreviation get_proxy_dict := (Gateway.get_proxy_dict GEN_HTTPS GEN_HTTP WS_USER WS_PASS).

Definition _timedtext_fetch_vtt (calls : nat) (r : vtt_request) : option pystr :=
  vtt_text (http_get calls r).

(** The loop that builds [base_langs]. *)
Fixpoint base_langs_loop (languages seen base_langs : list pystr) : list pystr :=
  match languages with
  | [] => base_langs
  | code :: rest =>
      let base := py_lower (before 45 code) in
      if truthy base && negb (mem base seen)
      then base_langs_loop rest (base :: seen) (base_langs ++ [base])
      else base_langs_loop rest seen base_langs
  end.

(** [bool(get_proxy_dict())]. *)
Definition proxy_configured : bool := negb (Nat.eqb (length get_proxy_dict) 0).

(** The loops of the function, each with a [return] at the first text
    found, tried one after the other. *)
Fixpoint try_each (attempts : list attempt) (manifest : list track)
    (made : list vtt_request) : option TranscriptPayload * list vtt_request :=
  match attempts with
  | [] => (None, made)
  | a :: rest =>
      match _timedtext_fetch_vtt (length made) (request a) with
      | Some (c :: out) =>
          (Some (make_transcript_payload (c :: out) (payload_code a) (payload_code a)
                   (payload_generated a) manifest []),
           made ++ [request a])
      | _ => try_each rest manifest (made ++ [request a])
      end
  end.

(** The list of all that a call tries, in the order of the source. *)
Definition plan (base_langs : list pystr) (tracks : list (pystr * kind))
    (allow_translate allow_proxy : bool) : list attempt :=
  let proxied (l : list attempt) : list attempt :=
    if allow_proxy && proxy_configured then l else [] in
  (match tracks with
   | [] => []
   | _ =>
       listed_attempts kind_manual false base_langs tracks
       ++ proxied (listed_attempts kind_manual true base_langs tracks)
       ++ listed_attempts kind_asr false base_langs tracks
       ++ proxied (listed_attempts kind_asr true base_langs tracks)
       ++ match base_langs with
          | target_base :: _ =>
              if allow_translate
              then translate_attempts false target_base tracks
                   ++ proxied (translate_attempts true target_base tracks)
              else []
          | [] => []
          end
   end)
  ++ brute_attempts false false base_langs
  ++ proxied (brute_attempts false true base_langs)
  ++ brute_attempts true false base_langs
  ++ proxied (brute_attempts true true base_langs).

Definition timedtext_try_languages (languages : list pystr)
    (allow_translate allow_proxy : bool) : trial :=
  let languages := match languages with [] => TRANSCRIPT_LANGS | _ => languages end in
  let base_langs := base_langs_loop languages [] [] in
  let base_langs :=
    if truthy_list base_langs && (MAX_TIMEDTEXT_LANGS <? Z.of_nat (length base_langs))
    then Lang.slice_to MAX_TIMEDTEXT_LANGS base_langs
    else base_langs in
  let direct := _timedtext_list_tracks false in
  let '(tracks, listed) :=
    match direct with
    | [] => if allow_proxy && proxy_configured
            then (_timedtext_list_tracks true, [false; true])
            else (direct, [false])
    | _ => (direct, [false])
    end in
  let track_manifest := List.map manifest_entry tracks in
  let '(found, made) :=
    try_each (plan base_langs tracks allow_translate allow_proxy) track_manifest [] in
  {| result := found; listings := listed; requests := made |}.

End TryLanguages.

End Timedtext.

(* ------------------------------------------------------------------ *)
(** ** The yt-dlp subtitle fallback: [fetch_ytdlp] *)

Module YtDlp.
Import Transcript Str.

(** The suffixes that the function looks for, in its order of preference. *)
Inductive suffix :=
| srv3
| vtt
| srt.

(** What a call leaves behind: its result, and the option
    ["subtitleslangs"] with which it has run yt-dlp. *)
Record fetch := {
  payload : option TranscriptPayload;
  subtitleslangs : list pystr }.

(** The first loop over the codes: [sub_langs.extend([f"{c}.*", c])] for
    every code that is not blank. *)
Fixpoint patterns_of (codes : list pystr) : list pystr :=
  match codes with
  | [] => []
  | code :: rest =>
      let c := strip code in
      if negb (truthy c) then patterns_of rest
      else (c ++ py ".*") :: c :: patterns_of rest
  end.

(** The second loop: the same for the codes that are not in
    [opts["subtitleslangs"]]. *)
Fixpoint missing_patterns (codes opts_subtitleslangs : list pystr) : list pystr :=
  match codes with
  | [] => []
  | code :: rest =>
      let c := strip code in
      if negb (truthy c) then missing_patterns rest opts_subtitleslangs
      else if negb (mem c opts_subtitleslangs)
           then (c ++ py ".*") :: c :: missing_patterns rest opts_subtitleslangs
           else missing_patterns rest opts_subtitleslangs
  end.

(** The filter of the [.vtt] branch. *)
Definition vtt_line_kept (l : pystr) : bool :=
  truthy l && negb (starts_with (py "WEBVTT") l) && negb (contains (py "-->") l).

Section FetchYtdlp.

Variable TRANSCRIPT_LANGS : list pystr.

(** [\d] of a [str] pattern beyond U+00FF is the table of the Unicode
    database; below, the decimal digits are the ASCII ones. *)
Variable unicode_digit : N -> bool.

(** The library: what yt-dlp, run with the option ["subtitleslangs"],
    leaves in the temporary directory, for each suffix the text of the
    first file that the glob gives, or the exception that the run raises;
    and the text of an [srv3] file,
    [" ".join(html.unescape(t) for t in re.findall(r">([^<]+)</text>", raw))]. *)
Variable YoutubeDL : list pystr -> outcome (suffix -> option pystr).
Variable srv3_text : pystr -> pystr.

Definition digit (c : N) : bool :=
  if N.ltb c 256 then VideoId.ascii_digit c else unicode_digit c.

(** [re.match(r"^\d+$", l)] on a line without line breaks. *)
Definition number_line (l : pystr) : bool := truthy l && forallb digit l.

(** The filter of the [.srt] branch. *)
Definition srt_line_kept (l : pystr) : bool :=
  truthy l && negb (contains (py "-->") l) && negb (number_line l).

(** The value of [opts["subtitleslangs"]] when yt-dlp is run. *)
Definition requested_subtitles (languages : list pystr) : list pystr :=
  let lang_list := match languages with [] => TRANSCRIPT_LANGS | _ => languages end in
  let sub_langs := patterns_of lang_list in
  let opts_subtitleslangs :=
    match sub_langs with
    | [] => [py "en.*"; py "en"]
    | _ => sub_langs
    end in
  let langs := if mem (py "en") languages then languages else languages ++ [py "en"] in
  let sub_langs := missing_patterns langs opts_subtitleslangs in
  match sub_langs with
  | [] => opts_subtitleslangs
  | _ => sub_langs
  end.

(** The text of the file chosen. *)
Definition subtitle_text (s : suffix) (raw : pystr) : pystr :=
  match s with
  | srv3 => srv3_text raw
  | vtt =>
      if contains (py "<text") raw then srv3_text raw
      else join (py " ") (List.map strip (List.filter vtt_line_kept (splitlines raw)))
  | srt =>
      if contains (py "<text") raw then srv3_text raw
      else join (py " ") (List.map strip (List.filter srt_line_kept (splitlines raw)))
  end.

(** [languages] is [[]] for [None]. Every exception of the run ends in
    [return None]. *)
Definition fetch_ytdlp (languages : list pystr) : fetch :=
  let asked := requested_subtitles languages in
  {| subtitleslangs := asked;
     payload :=
       match YoutubeDL asked with
       | Raise _ => None
       | Return files =>
           let fpath :=
             match files srv3, files vtt, files srt with
             | Some raw, _, _ => Some (srv3, raw)
             | None, Some raw, _ => Some (vtt, raw)
             | None, None, Some raw => Some (srt, raw)
             | None, None, None => None
             end in
           match fpath with
           | None => None
           | Some (s, raw) =>
               Some (make_fallback_payload (subtitle_text s raw) languages true)
           end
       end |}.

End FetchYtdlp.

End YtDlp.

(* ------------------------------------------------------------------ *)
(** ** The primary fetch: [fetch_api_once] *)

Module Api.
Import Transcript Str.

(** A [Transcript] object of youtube-transcript-api, as far as the code
    reads it. *)
Record transcript_obj := {
  tr_language_code : pystr;
  tr_language : pystr;
  tr_is_generated : bool;
  tr_is_translatable : bool;
  tr_url : pystr }.

(** A [FetchedTranscript]: [to_raw_data()] and the attributes read. *)
Record fetched := {
  raw_data : list snippet;
  ft_language_code : pystr;
  ft_language : pystr;
  ft_is_generated : bool }.

(** The library behind one call of [fetch_api_once]: [hasattr(ytt_api,
    'list')], [ytt_api.list(video_id)] as the list that iterating over it
    gives, [transcript.fetch()] by the number of fetches made before it,
    the two lookups of the transcript list, [transcript.translate(lang)],
    and [ytt_api.fetch(video_id, languages)] of the older interface. *)
Record library := {
  has_list : bool;
  list_transcripts : outcome (list transcript_obj);
  fetch : nat -> transcript_obj -> outcome fetched;
  find_manually_created_transcript : list pystr -> outcome transcript_obj;
  find_generated_transcript : list pystr -> outcome transcript_obj;
  translate : transcript_obj -> pystr -> outcome transcript_obj;
  api_fetch : list pystr -> outcome fetched }.

(** The variables [ft] and [selected_transcript], and the number of
    fetches made. *)
Record selection := {
  ft : option fetched;
  selected_transcript : option transcript_obj;
  fetches : nat }.

(** The entry of [track_manifest] for a transcript. *)
Definition manifest_entry (tr : transcript_obj) : track :=
  {| track_code := tr_language_code tr; track_label := tr_language tr;
     track_is_generated := tr_is_generated tr;
     is_translatable := tr_is_translatable tr; base_url := tr_url tr |}.

Section FetchApiOnce.

Variable TRANSCRIPT_LANGS : list pystr.
Variable L : library.

(** [fetch_from_transcript]: the value returned, and the state after. *)
Definition fetch_from_transcript (t : transcript_obj) (st : selection)
  : option fetched * selection :=
  match fetch L (fetches st) t with
  | Return f =>
      (Some f, {| ft := ft st; selected_transcript := Some t; fetches := S (fetches st) |})
  | Raise _ =>
      (None, {| ft := ft st; selected_transcript := selected_transcript st;
                fetches := S (fetches st) |})
  end.

Definition set_ft (v : option fetched) (st : selection) : selection :=
  {| ft := v; selected_transcript := selected_transcript st; fetches := fetches st |}.

(** [ft = fetch_from_transcript(t)]. *)
Definition assign_fetch (t : transcript_obj) (st : selection) : selection :=
  let '(v, st') := fetch_from_transcript t st in set_ft v st'.

(** [candidate = fetch_from_transcript(t)]; [if candidate is not None: ft =
    candidate]. *)
Definition assign_candidate (t : transcript_obj) (st : selection) : selection :=
  let '(v, st') := fetch_from_transcript t st in
  match v with
  | Some f => set_ft (Some f) st'
  | None => st'
  end.

Definition ft_is_none (st : selection) : bool :=
  match ft st with
  | None => true
  | Some _ => false
  end.

(** [manual_list[0] if manual_list else (generated_list[0] if
    generated_list else None)]. *)
Definition first_of (manual_list generated_list : list transcript_obj)
  : option transcript_obj :=
  match manual_list, generated_list with
  | t :: _, _ => Some t
  | [], t :: _ => Some t
  | [], [] => None
  end.

(** 1) the original track, when enabled. *)
Definition prefer_original_step (prefer_original strict_languages : bool)
    (manual_list generated_list : list transcript_obj) (st : selection) : selection :=
  if prefer_original && negb strict_languages && ft_is_none st then
    match first_of manual_list generated_list with
    | Some t => assign_fetch t st
    | None => st
    end
  else st.

(** 2) and 3) a track in one of the languages asked for, through a lookup
    of the transcript list; an exception of the lookup leaves [ft = None]. *)
Definition lookup_step (find : list pystr -> outcome transcript_obj)
    (languages_final : list pystr) (st : selection) : selection :=
  if ft_is_none st && truthy_list languages_final then
    match find languages_final with
    | Return t => assign_candidate t st
    | Raise _ => set_ft None st
    end
  else st.

(** 4) the original track, even if not asked for. *)
Definition any_step (strict_languages : bool)
    (manual_list generated_list : list transcript_obj) (st : selection) : selection :=
  if ft_is_none st && negb strict_languages then
    match first_of manual_list generated_list with
    | Some t_any => assign_fetch t_any st
    | None => st
    end
  else st.

(** [for lang in languages_final: try: translated = t_any.translate(lang);
    break; except Exception: continue]. *)
Fixpoint first_translation (t_any : transcript_obj) (languages_final : list pystr)
  : option transcript_obj :=
  match languages_final with
  | [] => None
  | lang :: rest =>
      match translate L t_any lang with
      | Return translated => Some translated
      | Raise _ => first_translation t_any rest
      end
  end.

(** 5) a translation; [None] when [raise NoTranscriptFound] is reached. *)
Definition translate_step (allow_translate : bool) (languages_final : list pystr)
    (tl : list transcript_obj) (st : selection) : option selection :=
  if ft_is_none st && allow_translate && truthy_list languages_final then
    match tl with
    | [] => None
    | t_any :: _ =>
        if tr_is_translatable t_any then
          match first_translation t_any languages_final with
          | Some translated => Some (assign_candidate translated st)
          | None => Some (assign_fetch t_any st)
          end
        else Some (assign_fetch t_any st)
    end
  else Some st.

(** The [try] block: the state at its end and the track manifest, or
    [None] when an exception leads to [return None]. *)
Definition select (languages_final : list pystr)
    (prefer_original strict_languages allow_translate : bool)
  : option (selection * list track) :=
  if has_list L then
    match list_transcripts L with
    | Raise _ => None
    | Return tl =>
        let track_manifest := List.map manifest_entry tl in
        let manual_list := List.filter (fun tr => negb (tr_is_generated tr)) tl in
        let generated_list := List.filter tr_is_generated tl in
        let st := {| ft := None; selected_transcript := None; fetches := 0 |} in
        let st := prefer_original_step prefer_original strict_languages
                    manual_list generated_list st in
        let st := lookup_step (find_manually_created_transcript L) languages_final st in
        let st := lookup_step (find_generated_transcript L) languages_final st in
        let st := any_step strict_languages manual_list generated_list st in
        match translate_step allow_translate languages_final tl st with
        | Some st => Some (st, track_manifest)
        | None => None
        end
    end
  else
    match api_fetch L languages_final with
    | Return f => Some ({| ft := Some f; selected_transcript := None; fetches := 0 |}, [])
    | Raise _ => None
    end.

(** The statements after the [try] block. With [ft = None] the iteration
    over [segments] raises [TypeError]. *)
Definition build_payload (st : selection) (track_manifest : list track)
  : outcome (option TranscriptPayload) :=
  match ft st with
  | None => Raise OtherException
  | Some f =>
      let segments := raw_data f in
      let text_content := strip (join (py " ") (List.map snippet_text segments)) in
      match text_content with
      | [] => Return None
      | _ =>
          let language_code :=
            match selected_transcript st with
            | Some t => tr_language_code t
            | None => ft_language_code f
            end in
          let language_label :=
            match selected_transcript st with
            | Some t => tr_language t
            | None => ft_language f
            end in
          Return (Some (make_transcript_payload text_content
                          (str_or language_code unknown)
                          (str_or language_label (str_or language_code unknown))
                          (ft_is_generated f) track_manifest segments))
      end
  end.

(** [languages] is [[]] for [None]. *)
Definition fetch_api_once (languages : list pystr)
    (prefer_original strict_languages allow_translate : bool)
  : outcome (option TranscriptPayload) :=
  let languages_final :=
    match languages with
    | [] => Lang.expand_preferred_langs TRANSCRIPT_LANGS TRANSCRIPT_LANGS true
    | _ => languages
    end in
  match select languages_final prefer_original strict_languages allow_translate with
  | None => Return None
  | Some (st, track_manifest) => build_payload st track_manifest
  end.

End FetchApiOnce.

End Api.

(* ------------------------------------------------------------------ *)
(** ** The cache reader [_get_or_spawn_transcript] *)

Module CacheReader.
Import Cache Transcript.

(** The value returned or [NoTranscriptFound], and the globals after the
    call: memory first, then the persistent tier, whose hit is copied into
    memory. *)
Definition _get_or_spawn_transcript (now : Z) (video_id : pystr) (w : world)
  : outcome cached_value * world :=
  match cache_get now (transcript_cache w) video_id with
  | Some val =>
      if is_marker val then (Raise NoTranscriptFound, w) else (Return val, w)
  | None =>
      match transcript_db w !! video_id with
      | Some val =>
          if is_marker val then (Raise NoTranscriptFound, w)
          else (Return val, write_memory now video_id val w)
      | None => (Raise NoTranscriptFound, w)
      end
  end.

End CacheReader.

(* ================================================================== *)
(** * Vocabulary of the properties, and sample data *)

Module Samples.

(** The table of the sample runs; they only classify characters below
    U+0100. *)
Definition sample_table : N -> bool := fun _ => false.

Definition sample_id : pystr := py "dQw4w9WgXcQ".

Definition sample_payload : TranscriptPayload :=
  make_transcript_payload (py "never gonna give you up") (py "en") (py "English")
                          false [] [].

End Samples.

Module ProxyPoolProps.
Import ProxyPool.

(** The counter stays within [0, threshold) when the threshold is positive,
    and is never negative whatever the threshold. *)
Definition count_in_range (threshold : Z) (p : TranscriptProxyProvider) : Prop :=
  0 <= _failure_count p /\ (1 <= threshold -> _failure_count p < threshold).

Definition ascending {A} (key : A -> Z) : A -> A -> Prop := fun a b => key a <= key b.

End ProxyPoolProps.

Module OrchestratorProps.
Import ProxyPool Orchestrator.

Definition skipped_entry (r : nat) : provider_log :=
  {| provider := r; attempts := []; skipped_due_to_cooldown := true;
     cooldown_break := false; cooldown_started := false |}.

Definition attempted (l : provider_log) : bool := negb (skipped_due_to_cooldown l).

Definition has_payload (o : outcome (option TranscriptPayload)) : Prop :=
  exists txt, o = Return (Some txt).

(** The adapter call that [fallback_attempts] binds to a step name. *)
Definition adapter_of (f : fallback) : adapter_call :=
  match f with
  | timedtext => call_timedtext_try_languages false
  | yt_dlp_no_proxy => call_fetch_ytdlp None
  end.

Definition fallback_result (E : env) (f : fallback) : outcome (option TranscriptPayload) :=
  run_adapter E (adapter_of f).

Definition in_time (E : env) (f : fallback) (t : Z) : Prop :=
  finished_after E f = Some t /\ t <= seconds 12.

Definition no_attempt_succeeded (logs : list provider_log) : Prop :=
  Forall (fun l => ~ In status_success (attempts l)) logs.

(** What the fallback stage does in a call [r] of [get_transcript], for a
    last statement that raises [failure]: both adapters are submitted
    without a proxy; a payload returned is the one of a fallback that
    finished within 12 s, no fallback that finished earlier having one;
    [failure] is raised exactly when no fallback finishes within 12 s with
    a payload; nothing else happens. *)
Definition fallbacks_decide_raising (failure : exn) (E : env) (r : run) : Prop :=
  submitted r = [call_timedtext_try_languages false; call_fetch_ytdlp None] /\
  (forall txt, result r = Return txt ->
     exists f t, in_time E f t /\ fallback_result E f = Return (Some txt) /\
       forall g t', finished_after E g = Some t' -> t' < t ->
                    ~ has_payload (fallback_result E g)) /\
  (result r = Raise failure <->
     forall f t, in_time E f t -> ~ has_payload (fallback_result E f)) /\
  ((exists txt, result r = Return txt) \/ result r = Raise failure) /\
  ((forall f t, ~ in_time E f t) -> fallback_timeout r = true).

(** The fallback stage as it runs: [raise NoTranscriptFound] ends in
    [TypeError]. *)
Definition fallbacks_decide : env -> run -> Prop :=
  fallbacks_decide_raising OtherException.

(** The fallback stage as the specification and the docstring of
    [get_transcript] have it: the transcript is reported unavailable with
    [NoTranscriptFound]. *)
Definition fallbacks_report_unavailable : env -> run -> Prop :=
  fallbacks_decide_raising NoTranscriptFound.

(** The primary stage ends without a payload: with providers, no attempt
    made on them succeeded; without providers, the one direct attempt
    returned nothing or raised one of the retrieval errors. *)
Definition primary_gives_nothing (T CD N : Z) (E : env) (ps : pool) : Prop :=
  (ps <> [] /\ no_attempt_succeeded (provider_logs (get_transcript T CD N E ps))) \/
  (ps = [] /\ (fetch_api_once E None 1 = Return None \/
               exists e, fetch_api_once E None 1 = Raise e /\ is_retrieval_error e = true)).

(** The same with the last case as the specification has it: without
    providers, the direct attempt gave no payload, however it ended. *)
Definition primary_fails (T CD N : Z) (E : env) (ps : pool) : Prop :=
  (ps <> [] /\ no_attempt_succeeded (provider_logs (get_transcript T CD N E ps))) \/
  (ps = [] /\ ~ has_payload (fetch_api_once E None 1)).

(** Every strategy of a call is exhausted: the primary stage gives nothing
    and no fallback finishes within 12 s with a payload. *)
Definition strategies_exhausted (T CD N : Z) (E : env) (ps : pool) : Prop :=
  primary_gives_nothing T CD N E ps /\
  forall f t, in_time E f t -> ~ has_payload (fallback_result E f).

(** The status that the attempt loop logs for what a fetch gives. *)
Definition status_of (o : outcome (option TranscriptPayload)) : attempt_status :=
  match o with
  | Raise _ => status_exception
  | Return (Some _) => status_success
  | Return None => status_empty
  end.

(** What the fetches numbered 1 to [k] through provider [r] give. *)
Definition fetches (E : env) (r : nat) (k : nat) : list (outcome (option TranscriptPayload)) :=
  List.map (fetch_api_once E (Some r)) (seq 1 k).

(** The cooldown bypass of a call [r] whose selection is [head :: rest]:
    [k] fetches are made through [head], whose log entry, marked
    [cooldown_break], holds their statuses in order. Either the last of
    them is the first to give a payload, which the call returns without
    looking at another provider or submitting a fallback; or none of the
    [TRANSCRIPT_PROXY_ATTEMPTS_PER_PROVIDER] fetches gives one, the
    providers of [rest] are skipped without a fetch and the fallbacks are
    submitted. *)
Definition one_bypass_attempt (N : Z) (E : env) (head : nat) (rest : list nat) (r : run)
  : Prop :=
  exists entry k,
    provider entry = head /\
    skipped_due_to_cooldown entry = false /\
    cooldown_break entry = true /\
    attempts entry = List.map status_of (fetches E head k) /\
    ((exists txt,
        (1 <= k <= Z.to_nat N)%nat /\
        Forall (fun o => ~ has_payload o) (fetches E head (k - 1)) /\
        fetch_api_once E (Some head) k = Return (Some txt) /\
        result r = Return txt /\
        provider_logs r = [entry] /\
        submitted r = []) \/
     (k = Z.to_nat N /\
      Forall (fun o => ~ has_payload o) (fetches E head k) /\
      provider_logs r = entry :: List.map skipped_entry rest /\
      submitted r = [call_timedtext_try_languages false; call_fetch_ytdlp None])).

(** Three providers, all cooling down until 300 s or 500 s. *)
Definition cooling_pool : pool :=
  [ {| name := "generic"; proxy_config := "http://proxy:8080"; display := "proxy:8080";
       _failure_count := 0; _cooldown_until := seconds 500 |};
    {| name := "webshare"; proxy_config := "p.webshare.io"; display := "p.webshare.io:80";
       _failure_count := 0; _cooldown_until := seconds 300 |};
    {| name := "decodo"; proxy_config := "gate.decodo.com"; display := "gate.decodo.com:7000";
       _failure_count := 1; _cooldown_until := seconds 300 |} ].

(** A call at clock reading [now] in which the primary adapter finds
    nothing, timedtext returns a payload after 3 s and yt-dlp nothing
    after 5 s. *)
Definition timedtext_env (now : Z) : env :=
  {| now_select := now;
     now_check := fun _ => now;
     now_failure := fun _ _ => now;
     fetch_api_once := fun _ _ => Return None;
     timedtext_try_languages := fun _ => Return (Some Samples.sample_payload);
     fetch_ytdlp := fun _ => Return None;
     finished_after := fun f => match f with
                                | timedtext => Some (seconds 3)
                                | yt_dlp_no_proxy => Some (seconds 5)
                                end |}.

(** The same, the direct attempt raising an error that is not one of the
    retrieval errors of youtube-transcript-api. *)
Definition raising_env : env :=
  {| now_select := 0;
     now_check := fun _ => 0;
     now_failure := fun _ _ => 0;
     fetch_api_once := fun _ _ => Raise OtherException;
     timedtext_try_languages := fun _ => Return (Some Samples.sample_payload);
     fetch_ytdlp := fun _ => Return None;
     finished_after := fun f => match f with
                                | timedtext => Some (seconds 3)
                                | yt_dlp_no_proxy => Some (seconds 5)
                                end |}.

(** No provider is configured, the direct attempt finds nothing, and both
    fallbacks are still running when the 12 s are over. *)
Definition timed_out_env : env :=
  {| now_select := 0;
     now_check := fun _ => 0;
     now_failure := fun _ _ => 0;
     fetch_api_once := fun _ _ => Return None;
     timedtext_try_languages := fun _ => Return (Some Samples.sample_payload);
     fetch_ytdlp := fun _ => Return None;
     finished_after := fun f => match f with
                                | timedtext => Some (seconds 15)
                                | yt_dlp_no_proxy => None
                                end |}.

End OrchestratorProps.

Module CommentsProps.
Import Cache Comments Samples.

(** A request served to the end: its steps in a row, each with what it
    reads from outside and with what the other requests have done to the
    globals since its previous step. *)
Fixpoint serve (unicode_alnum : N -> bool) (schedule : list (input * (world -> world)))
    (t : request) (w : world) : request * world :=
  match schedule with
  | [] => (t, w)
  | (i, others) :: rest =>
      let '(t', w') := step unicode_alnum i t (others w) in
      serve unicode_alnum rest t' w'
  end.

(** The steps that a request has left at most. *)
Definition rank (p : pc) : nat :=
  match p with
  | at_start _ => 9
  | at_election _ => 8
  | at_wait _ _ => 7
  | at_recheck _ _ => 6
  | at_fetch _ _ => 5
  | at_store_memory _ _ _ => 4
  | at_block_memory _ _ => 4
  | at_store_persistent _ _ _ => 3
  | at_block_persistent _ _ => 3
  | at_finally_set _ _ _ => 2
  | at_finally_pop _ _ _ => 1
  | done _ => 0
  end.

(** The response that a request carries from the end of its [try] on. *)
Definition answer (p : pc) : option response :=
  match p with
  | at_finally_set _ _ r | at_finally_pop _ _ r | done r => Some r
  | _ => None
  end.

(** The chain reaches strategy [s], which raises the permanent block: the
    strategies before it raised something else or returned no comment. *)
Definition blocked_at (A : adapters) (s : strategy) (before after : list strategy) : Prop :=
  comment_retrieval_strategies = before ++ s :: after /\
  fetch_func A s = Raise PermanentCommentBlock /\
  Forall (fun s' => fetch_func A s' <> Raise PermanentCommentBlock /\
                    forall c cs, fetch_func A s' <> Return (c :: cs)) before.

Definition empty_world (cache_ttl : Z) : world :=
  {| comment_cache := {| ttl := cache_ttl; entries := ∅ |};
     comment_db := ∅;
     comment_inflight_events := ∅;
     comment_events := [];
     comment_writes := [] |}.

(** Both downloader attempts come back empty and yt-dlp meets the bot
    challenge. *)
Definition challenged : adapters :=
  {| _fetch_comments_downloader := fun _ => Return [];
     _fetch_comments_from_ytdlp := fun _ => Raise PermanentCommentBlock |}.

Definition at_clock (t : Z) (A : adapters) : input :=
  {| now := t; fetched := Return (comments (_fetch_comments_resilient A)) |}.

Definition untouched : world -> world := fun w => w.

(** C1 as it is stated, for the leader of a request for [video_id] that
    fetches at clock reading [t] with the adapters [A], strategy [s] raising
    the block: the chain stops at [s]; the list cached in memory is empty
    and expires before a list fetched at the same time would,
    [COMMENT_CACHE_TTL] after [t]; the response has no comment and a
    warning. *)
Definition permanent_block_short_ttl (unicode_alnum : N -> bool) (A : adapters)
    (before : list strategy) (s : strategy) (video_id : pystr) (t : Z) (w : world) : Prop :=
  let '(t', w') :=
    serve unicode_alnum
      [(at_clock t A, untouched); (at_clock t A, untouched); (at_clock t A, untouched)]
      {| position := at_fetch video_id 0; registered := true |} w in
  invoked (_fetch_comments_resilient A) = before ++ [s] /\
  (exists expires, entries (comment_cache w') !! video_id = Some ([], expires) /\
                   expires < t + ttl (comment_cache w)) /\
  (exists r warning, answer (position t') = Some r /\
                     json r = body_comments video_id [] (Some warning)).

(** From a valid video id on, every response is a 200. *)
Definition answers_200 (unicode_alnum : N -> bool) (p : pc) : Prop :=
  match p with
  | at_start video_url_or_id =>
      VideoId.extract_video_id unicode_alnum video_url_or_id <> None
  | _ => match answer p with
         | Some r => status r = 200
         | None => True
         end
  end.

(** After a fetch that raised, every response is a 200 without comments
    and with a warning. *)
Definition answers_warning (video_id : pystr) (p : pc) : Prop :=
  match p with
  | at_block_memory v _ | at_block_persistent v _ => v = video_id
  | at_finally_set _ _ r | at_finally_pop _ _ r | done r =>
      status r = 200 /\ exists warning, json r = body_comments video_id [] (Some warning)
  | _ => False
  end.

End CommentsProps.

Module TranscriptProps.
Import Cache Transcript Samples.

(** A request served to the end, as for the comment endpoint. *)
Fixpoint serve (unicode_alnum : N -> bool) (schedule : list (input * (world -> world)))
    (t : request) (w : world) : request * world :=
  match schedule with
  | [] => (t, w)
  | (i, others) :: rest =>
      let '(t', w') := step unicode_alnum i t (others w) in
      serve unicode_alnum rest t' w'
  end.

Definition untouched : world -> world := fun w => w.

Definition empty_world (cache_ttl : Z) : world :=
  {| transcript_cache := {| ttl := cache_ttl; entries := ∅ |};
     transcript_db := ∅;
     transcript_inflight_events := ∅;
     transcript_events := [];
     transcript_writes := [] |}.

Definition sample_query : params :=
  {| videoId := sample_id; lang_bases := None; languages := [py "en"; py "en-US"] |}.

Definition gives (t : Z) (o : outcome TranscriptPayload) : input :=
  {| now := t; fetched := o |}.

Definition wrote {V : Type} (t : tier) (k : pystr) (v : V) : cache_write V :=
  {| written_tier := t; written_key := k; written_value := v |}.


(** C4 as it is stated, for the request whose call of [get_transcript], in
    the environment [E] with the providers [ps], ends at clock reading [t]:
    after the steps of the request the marker is in memory under the cache
    key and expires before a payload stored at [t] would,
    [TRANSCRIPT_CACHE_TTL] after [t]. *)
Definition marker_short_ttl (unicode_alnum : N -> bool) (T CD N : Z)
    (E : Orchestrator.env) (ps : ProxyPool.pool) (q : params)
    (video_id cache_key : pystr) (t : Z) (w : world) : Prop :=
  let fetch := gives t (Orchestrator.result (Orchestrator.get_transcript T CD N E ps)) in
  let '(_, w') :=
    serve unicode_alnum [(fetch, untouched); (fetch, untouched); (fetch, untouched)]
      {| query := q; position := at_fetch video_id cache_key true 0 |} w in
  exists expires,
    entries (transcript_cache w') !! cache_key = Some (cached_str NOT_AVAILABLE, expires) /\
    expires < t + ttl (transcript_cache w).

(** The answer to a fetch that raised an exception without a handler of
    its own. *)
Definition fetch_failed : response :=
  respond 500 (body_error "Transcript fetch failed").

(** An acquisition without providers in which the primary adapter and the
    timedtext adapter find nothing and yt-dlp fails. *)
Definition exhausted_env : Orchestrator.env :=
  {| Orchestrator.now_select := 1000;
     Orchestrator.now_check := fun _ => 1000;
     Orchestrator.now_failure := fun _ _ => 1000;
     Orchestrator.fetch_api_once := fun _ _ => Return None;
     Orchestrator.timedtext_try_languages := fun _ => Return None;
     Orchestrator.fetch_ytdlp := fun _ => Raise OtherException;
     Orchestrator.finished_after := fun _ => Some (seconds 2) |}.

(** The memory tier holds, under the key of the sample request, a value
    that is neither a payload nor a string, stored at clock reading 0. *)
Definition holding_world : world :=
  write_memory 0 sample_id cached_other (empty_world (seconds 7200)).

End TranscriptProps.

Module SingleFlightProps.
Import Cache SingleFlight.

Section Ownership.

Context {request world input : Type}.
Variable step : input -> request -> world -> request * world.

(** The in-flight map of a world; what it means that a request owns the
    entry [v] under the key [k]; which requests are well formed; which
    entries can be owned in a world, and which are new to it. *)
Variable table : world -> gmap pystr nat.
Variable owns : request -> pystr -> nat -> Prop.
Variable sane : request -> Prop.
Variable valid : world -> pystr -> nat -> Prop.
Variable fresh : world -> pystr -> nat -> Prop.

Definition every_entry_owned (s : @system request world) : Prop :=
  forall k v, table (shared s) !! k = Some v ->
              exists n t, requests s !! n = Some t /\ owns t k v.

Definition owners_unique (s : @system request world) : Prop :=
  forall n m t t' k v,
    requests s !! n = Some t -> requests s !! m = Some t' ->
    owns t k v -> owns t' k v -> n = m.

Definition owners_valid (s : @system request world) : Prop :=
  forall n t k v, requests s !! n = Some t -> owns t k v -> valid (shared s) k v.

Definition all_sane (s : @system request world) : Prop :=
  forall n t, requests s !! n = Some t -> sane t.

Definition coordinated (s : @system request world) : Prop :=
  every_entry_owned s /\ owners_unique s /\ owners_valid s /\ all_sane s.

(** What a step of a well-formed request may do to the map and to what the
    request owns. *)
Definition step_respects : Prop :=
  forall i t w, sane t ->
    let t' := fst (step i t w) in
    let w' := snd (step i t w) in
    sane t' /\
    (forall k v, table w' !! k = Some v ->
                 owns t' k v \/ (table w !! k = Some v /\ (owns t k v -> owns t' k v))) /\
    (forall k v, owns t' k v -> owns t k v \/ (fresh w k v /\ valid w' k v)) /\
    (forall k v, valid w k v -> valid w' k v \/ (owns t k v /\ ~ owns t' k v)).

End Ownership.

(** *** The transcript endpoint *)

(** The cache key for which a request has [leader = True] and is not done. *)
Definition leading (t : Transcript.request) : option pystr :=
  match Transcript.position t with
  | Transcript.at_fetch _ k true _
  | Transcript.at_store_memory _ k true _
  | Transcript.at_store_persistent _ k true _
  | Transcript.at_negative k true
  | Transcript.at_negative_persistent k true
  | Transcript.at_finally k true _ => Some k
  | _ => None
  end.

(** The request is inside its call of [get_transcript] for the key. *)
Definition fetching (k : pystr) (t : Transcript.request) : bool :=
  match Transcript.position t with
  | Transcript.at_fetch _ k' _ _ => bool_decide (k' = k)
  | _ => false
  end.

(** The process starts with no entry in flight and no event; every request
    is at the head of the endpoint. The caches hold anything. *)
Definition transcript_initial (s : @system Transcript.request Transcript.world) : Prop :=
  Transcript.transcript_inflight_events (shared s) = ∅ /\
  Transcript.transcript_events (shared s) = [] /\
  Forall (fun t => Transcript.position t = Transcript.at_start) (requests s).

(** C2 as it is stated, for the transcript endpoint: in every state that
    the requests can reach, at most one of them is fetching for a key. *)
Definition one_fetch_per_key (unicode_alnum : N -> bool) : Prop :=
  forall s k,
    reachable (Transcript.step unicode_alnum) transcript_initial s ->
    (length (List.filter (fetching k) (requests s)) <= 1)%nat.

(** Three requests for one video on a cold cache. *)
Definition three_requests : @system Transcript.request Transcript.world :=
  {| requests := [ {| Transcript.query := TranscriptProps.sample_query;
                      Transcript.position := Transcript.at_start |};
                   {| Transcript.query := TranscriptProps.sample_query;
                      Transcript.position := Transcript.at_start |};
                   {| Transcript.query := TranscriptProps.sample_query;
                      Transcript.position := Transcript.at_start |} ];
     shared := TranscriptProps.empty_world (seconds 7200) |}.

Definition tick (t : Z) : Transcript.input :=
  {| Transcript.now := t; Transcript.fetched := Raise OtherException |}.

(** The first request becomes leader and is still fetching when the two
    others, whose wait of 30 s has run out, find nothing in the caches. *)
Definition slow_leader : list (nat * Transcript.input) :=
  [ (0%nat, tick 0); (0%nat, tick 1);
    (1%nat, tick 2); (1%nat, tick 3);
    (2%nat, tick 4); (2%nat, tick 5);
    (1%nat, tick (seconds 30 + 3)); (1%nat, tick (seconds 30 + 4));
    (2%nat, tick (seconds 30 + 5)); (2%nat, tick (seconds 30 + 6)) ].

Definition leads (t : Transcript.request) (k : pystr) (v : nat) : Prop :=
  leading t = Some k.
Definition entry_present (w : Transcript.world) (k : pystr) (v : nat) : Prop :=
  is_Some (Transcript.transcript_inflight_events w !! k).
Definition entry_absent (w : Transcript.world) (k : pystr) (v : nat) : Prop :=
  Transcript.transcript_inflight_events w !! k = None.

(** *** The comment endpoint *)

(** The entry that a request has registered itself and not yet left. *)
Definition held (t : Comments.request) : option (pystr * nat) :=
  if Comments.registered t then
    match Comments.position t with
    | Comments.at_fetch v e
    | Comments.at_store_memory v e _
    | Comments.at_store_persistent v e _
    | Comments.at_block_memory v e
    | Comments.at_block_persistent v e
    | Comments.at_finally_set v e _
    | Comments.at_finally_pop v e _ => Some (v, e)
    | _ => None
    end
  else None.

(** Before its election a request has registered nothing. *)
Definition unregistered_before_election (t : Comments.request) : Prop :=
  match Comments.position t with
  | Comments.at_start _ | Comments.at_election _
  | Comments.at_wait _ _ | Comments.at_recheck _ _ => Comments.registered t = false
  | _ => True
  end.

Definition comments_initial (s : @system Comments.request Comments.world) : Prop :=
  Comments.comment_inflight_events (shared s) = ∅ /\
  Comments.comment_events (shared s) = [] /\
  Forall (fun t => exists raw, t = {| Comments.position := Comments.at_start raw;
                                     Comments.registered := false |}) (requests s).

Definition holds (t : Comments.request) (k : pystr) (v : nat) : Prop :=
  held t = Some (k, v).
Definition event_exists (w : Comments.world) (k : pystr) (v : nat) : Prop :=
  (v < length (Comments.comment_events w))%nat.
Definition event_next (w : Comments.world) (k : pystr) (v : nat) : Prop :=
  v = length (Comments.comment_events w).

End SingleFlightProps.

Module StrProps.
Import Transcript Str.

(** No white space at either end. *)
Definition trimmed (s : pystr) : Prop := lstrip s = s /\ lstrip (rev s) = rev s.

Definition arrow : pystr := py "-->".

(** The character [c] has the one-character lower case [n], whatever
    stands around it. *)
Definition lowers_to (unicode_lower : N -> pystr) (c n : N) : Prop :=
  c <> 931%N /\
  (if N.ltb c 128 then [ascii_lower_char c] else unicode_lower c) = [n].

End StrProps.

Module LangProps.
Import Transcript Str Lang.

(** The codes that a call of [expand_preferred_langs] works on: the
    caller's, or the configured ones when the caller gives none; stripped,
    blanks dropped. *)
Definition requested (TRANSCRIPT_LANGS codes : list pystr) : list pystr :=
  List.filter truthy
    (List.map strip (match codes with [] => TRANSCRIPT_LANGS | _ => codes end)).

Definition has_dash (s : pystr) : bool := existsb (N.eqb 45) s.

(** Two accumulators that go together: a set of the strings seen and the
    list built, with the same members, the list without repeats. *)
Definition together (seen out : list pystr) : Prop :=
  (forall v, In v seen <-> In v out) /\ List.NoDup out.

Definition blank (s : pystr) : bool := negb (truthy (strip s)).

(** The default of [TRANSCRIPT_LANGS]. *)
Definition default_langs : list pystr :=
  [py "en"; py "hi"; py "es"; py "pt"; py "id"; py "ja"; py "ru"; py "ar"; py "bn";
   py "tr"; py "de"; py "fr"; py "vi"; py "ko"; py "th"].

(** The case mapping of the sample runs: their characters from U+0080 on
    have no lower case of their own. *)
Definition sample_lower : N -> pystr := fun c => [c].

Definition sample_sigma : pystr -> pystr -> bool := fun _ _ => false.

End LangProps.

Module CommentSourcesProps.
Import Str CommentSources.

(** The non-empty texts among the first [n] things that a generator
    gives, up to its first exception. *)
Fixpoint texts (n : nat) (gen : list (outcome item)) : list pystr :=
  match n, gen with
  | S n', Return it :: rest =>
      match item_text it with
      | Some (c :: t) => (c :: t) :: texts n' rest
      | _ => texts n' rest
      end
  | _, _ => []
  end.

(** A strategy that gave nothing and let the chain go on. *)
Definition gave_nothing (A : Comments.adapters) (s : Comments.strategy) : Prop :=
  Comments.fetch_func A s = Return [] \/
  exists e, e <> PermanentCommentBlock /\ Comments.fetch_func A s = Raise e.

(** A run of yt-dlp that returns two comments and logs the challenge, as
    yt-dlp words it, with a typographic apostrophe. *)
Definition challenge_message : pystr :=
  py "[youtube] dQw4w9WgXcQ: Sign in to confirm you" ++ [8217%N] ++
  py "re not a bot. Use --cookies for the authentication.".

Definition challenged_run : ydl_run :=
  {| extraction_result :=
       extracted (Some {| info_comments :=
         Some [ {| c_text := Some (py "first"); c_comment := None |};
                {| c_text := None; c_comment := Some (py "second") |} ] |});
     messages := [(warning, challenge_message)] |}.

(** A generator that gives two comments and then fails. *)
Definition failing_generator : list (outcome item) :=
  [ Return {| item_text := Some (py "first") |};
    Return {| item_text := Some (py "second") |};
    Raise RequestException ].

End CommentSourcesProps.

Module TimedtextProps.
Import Transcript Str Timedtext.

(** A fetch that gave no text. *)
Definition silent (o : option pystr) : Prop := o = None \/ o = Some [].

(** A small WebVTT document with one cue. *)
Definition sample_vtt : pystr :=
  py "WEBVTT" ++ [10%N] ++ py "Kind: captions" ++ [10%N; 10%N]
  ++ py "00:00:00.000 --> 00:00:02.000" ++ [10%N] ++ py "  never gonna give you up " ++ [10%N].

(** A network on which the listing gives one manual English track and the
    first fetch answers with the sample document. *)
Definition sample_tracks : bool -> list (pystr * kind) :=
  fun _ => [(py "en", kind_manual)].

Definition sample_http : nat -> vtt_request -> outcome (Z * pystr) :=
  fun _ _ => Return (200, sample_vtt).

(** A network that gives nothing. *)
Definition silent_http : nat -> vtt_request -> outcome (Z * pystr) :=
  fun _ _ => Return (404, []).

End TimedtextProps.

Module YtDlpProps.
Import Transcript Str YtDlp.

(** The patterns for English alone. *)
Definition english_only : list pystr := [py "en.*"; py "en"].

(** A run of yt-dlp that leaves one [vtt] file, whatever it is asked. *)
Definition sample_run : list pystr -> outcome (suffix -> option pystr) :=
  fun _ => Return (fun s => match s with
                            | vtt => Some TimedtextProps.sample_vtt
                            | _ => None
                            end).

End YtDlpProps.

Module ApiProps.
Import Transcript Str Api.

(** Every [transcript.fetch()] fails. *)
Definition fetches_fail (L : library) : Prop :=
  forall n t, exists e, fetch L n t = Raise e.

Definition english_track : transcript_obj :=
  {| tr_language_code := py "en"; tr_language := py "English";
     tr_is_generated := false; tr_is_translatable := true; tr_url := [] |}.

(** A library that lists one English track and blocks every fetch. *)
Definition blocked_library : library :=
  {| has_list := true;
     list_transcripts := Return [english_track];
     fetch := fun _ _ => Raise RetrievalError;
     find_manually_created_transcript := fun _ => Raise NoTranscriptFound;
     find_generated_transcript := fun _ => Raise NoTranscriptFound;
     translate := fun _ _ => Raise OtherException;
     api_fetch := fun _ => Raise RetrievalError |}.

Definition english_fetched : fetched :=
  {| raw_data := [ {| snippet_text := py "never gonna"; start := 0; duration := 2000 |};
                   {| snippet_text := py "give you up"; start := 2000; duration := 2000 |} ];
     ft_language_code := py "en"; ft_language := py "English";
     ft_is_generated := false |}.

(** A library that lists one English track and fetches it. *)
Definition english_library : library :=
  {| has_list := true;
     list_transcripts := Return [english_track];
     fetch := fun _ _ => Return english_fetched;
     find_manually_created_transcript := fun _ => Raise NoTranscriptFound;
     find_generated_transcript := fun _ => Raise NoTranscriptFound;
     translate := fun _ _ => Raise OtherException;
     api_fetch := fun _ => Raise RetrievalError |}.

(** The surroundings of a call of [get_transcript] in which the primary
    fetch is [fetch_api_once] over the library [L], and both fallbacks
    would give a payload at once. *)
Definition env_over (TRANSCRIPT_LANGS : list pystr) (L : library)
    (languages : list pystr) (prefer_original strict_languages allow_translate : bool)
  : Orchestrator.env :=
  {| Orchestrator.now_select := 0;
     Orchestrator.now_check := fun _ => 0;
     Orchestrator.now_failure := fun _ _ => 0;
     Orchestrator.fetch_api_once := fun _ _ =>
       fetch_api_once TRANSCRIPT_LANGS L languages
                      prefer_original strict_languages allow_translate;
     Orchestrator.timedtext_try_languages := fun _ => Return (Some Samples.sample_payload);
     Orchestrator.fetch_ytdlp := fun _ => Return (Some Samples.sample_payload);
     Orchestrator.finished_after := fun _ => Some 0 |}.

End ApiProps.


Module VideoIdProps.

(** The usual forms of a link to a video, up to the id. *)
Definition url_prefixes : list pystr :=
  [ py "https://www.youtube.com/watch?v=";
    py "https://youtu.be/";
    py "https://www.youtube.com/embed/";
    py "https://www.youtube.com/shorts/";
    py "https://www.youtube.com/live/" ].

End VideoIdProps.

Module AnswersProps.
Import Cache Transcript.

(** The steps that a request to [/transcript] has left at most. *)
Definition rank (p : pc) : nat :=
  match p with
  | at_start => 9
  | at_election _ _ => 8
  | at_wait _ _ _ => 7
  | at_recheck _ _ => 6
  | at_fetch _ _ _ attempts => 4 + Z.to_nat (Z.max 0 (1 - attempts))
  | at_store_memory _ _ _ _ => 3
  | at_negative _ _ => 3
  | at_store_persistent _ _ _ _ => 2
  | at_negative_persistent _ _ => 2
  | at_finally _ _ _ => 1
  | done _ => 0
  end.

(** The status codes of [/transcript]. *)
Definition known_status (r : response) : Prop :=
  status r = 200 \/ status r = 400 \/ status r = 404 \/ status r = 500.

(** The response that a request carries is one of them. *)
Definition answers_known (p : pc) : Prop :=
  match p with
  | at_finally _ _ r | done r => known_status r
  | _ => True
  end.

End AnswersProps.

(* ================================================================== *)
(** * Properties *)

(** ** The identifier normaliser *)

Module VideoIdSpec.
Import VideoId.

Section Facts.

Variable unicode_alnum : N -> bool.

Lemma take_class_spec cls n : forall s cap rest,
  take_class cls n s = Some (cap, rest) ->
  s = cap ++ rest /\ List.length cap = n /\ forallb cls cap = true.
Proof.
  induction n as [|n IH]; intros s cap rest H; simpl in H.
  - inversion H; subst. auto.
  - destruct s as [|c s']; [discriminate|].
    destruct (cls c) eqn:Hc; [|discriminate].
    destruct (take_class cls n s') as [[cap' rest']|] eqn:Ht; [|discriminate].
    inversion H; subst. destruct (IH _ _ _ Ht) as (-> & <- & Hall).
    simpl. rewrite Hc, Hall. auto.
Qed.

Lemma validate_video_id_spec s :
  validate_video_id unicode_alnum s = true ->
  List.length s = 11%nat /\ forallb (video_id_class unicode_alnum) s = true.
Proof.
  unfold validate_video_id. intros H.
  destruct (take_class _ 11 s) as [[cap rest]|] eqn:Ht; [|discriminate].
  destruct rest; [|discriminate].
  destruct (take_class_spec _ _ _ _ _ Ht) as (-> & Hl & Hall).
  rewrite app_nil_r. auto.
Qed.

Lemma match_alternatives_spec alts cls n s cap :
  match_alternatives alts cls n s = Some cap ->
  List.length cap = n /\ forallb cls cap = true.
Proof.
  induction alts as [|a alts IH]; simpl; [discriminate|].
  destruct (strip_literal a s) as [rest|]; [|exact IH].
  destruct (take_class cls n rest) as [[cap' rest']|] eqn:Ht; [|exact IH].
  intros H; inversion H; subst.
  destruct (take_class_spec _ _ _ _ _ Ht) as (_ & Hl & Hall). auto.
Qed.

Lemma re_search_spec p s cap :
  re_search p s = Some cap ->
  List.length cap = group_len p /\ forallb (group_class p) cap = true.
Proof.
  induction s as [|c s IH]; simpl.
  - destruct (match_here p []) eqn:Hm; [|discriminate].
    intros H; inversion H; subst. eapply match_alternatives_spec; eauto.
  - destruct (match_here p (c :: s)) eqn:Hm; [|exact IH].
    intros H; inversion H; subst. eapply match_alternatives_spec; eauto.
Qed.

(** A capture of one of the two extraction patterns matches the regular
    expression of the data model. *)
Lemma try_patterns_spec url vid :
  try_patterns unicode_alnum (patterns) url = Some vid ->
  matches_id_regex vid = true.
Proof.
  unfold patterns, try_patterns.
  destruct (re_search _ url) as [v1|] eqn:H1.
  - destruct (validate_video_id unicode_alnum v1).
    + intros H; inversion H; subst. apply re_search_spec in H1 as [Hl Hc].
      simpl in Hl, Hc. unfold matches_id_regex. rewrite Hl, Hc. reflexivity.
    + destruct (re_search _ url) as [v2|] eqn:H2 in |- *; [|discriminate].
      destruct (validate_video_id unicode_alnum v2); [|discriminate].
      intros H; inversion H; subst. apply re_search_spec in H2 as [Hl Hc].
      simpl in Hl, Hc. unfold matches_id_regex. rewrite Hl, Hc. reflexivity.
  - destruct (re_search _ url) as [v2|] eqn:H2 in |- *; [|discriminate].
    destruct (validate_video_id unicode_alnum v2); [|discriminate].
    intros H; inversion H; subst. apply re_search_spec in H2 as [Hl Hc].
    simpl in Hl, Hc. unfold matches_id_regex. rewrite Hl, Hc. reflexivity.
Qed.

(** What [extract_video_id] returns is either a capture of a pattern, or
    the input itself when [VIDEO_ID_REGEX] accepts it. *)
Lemma extract_video_id_cases url vid :
  extract_video_id unicode_alnum url = Some vid ->
  matches_id_regex vid = true \/
  (vid = url /\ validate_video_id unicode_alnum url = true).
Proof.
  unfold extract_video_id.
  destruct (validate_video_id unicode_alnum url) eqn:Hv.
  - intros H; inversion H; subst. right; auto.
  - intros H. left. eapply try_patterns_spec; eauto.
Qed.

Lemma video_id_class_ascii c :
  (c < 128)%N -> video_id_class unicode_alnum c = id_class c.
Proof.
  intros Hc. unfold video_id_class, word_char, py_isalnum, id_class, latin1_alnum,
    ascii_digit, ascii_upper, ascii_lower, in_range.
  destruct (N.ltb_spec c 256); [|lia].
  apply eq_true_iff_eq.
  rewrite !orb_true_iff, !andb_true_iff, !N.leb_le, !N.eqb_eq. lia.
Qed.

(** On an input made of ASCII characters the value returned matches the
    regular expression of the data model. *)
Lemma extract_video_id_ascii url vid :
  Forall (fun c => (c < 128)%N) url ->
  extract_video_id unicode_alnum url = Some vid ->
  matches_id_regex vid = true.
Proof.
  intros Hascii H. destruct (extract_video_id_cases _ _ H) as [Hm|[-> Hv]]; [exact Hm|].
  apply validate_video_id_spec in Hv as [Hl Hall].
  unfold matches_id_regex. rewrite Hl. simpl.
  clear Hl H. induction url as [|c url IH]; [reflexivity|].
  simpl in *. apply andb_prop in Hall as [Hc Hall].
  inversion Hascii; subst. rewrite <- (video_id_class_ascii c) by assumption.
  rewrite Hc. simpl. apply IH; assumption.
Qed.

(** Every value returned has eleven characters. *)
Lemma extract_video_id_length url vid :
  extract_video_id unicode_alnum url = Some vid -> List.length vid = 11%nat.
Proof.
  intros H. destruct (extract_video_id_cases _ _ H) as [Hm|[-> Hv]].
  - unfold matches_id_regex in Hm. apply andb_prop in Hm as [Hl _].
    apply Nat.eqb_eq in Hl. exact Hl.
  - apply validate_video_id_spec in Hv as [Hl _]. exact Hl.
Qed.

Lemma extract_video_id_empty : extract_video_id unicode_alnum [] = None.
Proof. reflexivity. Qed.

(** C5. [extract_video_id] does return values outside
    [^[A-Za-z0-9_-]{11}$]: the bare-id path tests the input with [[\w-]],
    and [\w] accepts every Unicode letter. Eleven times U+00E9 is returned
    as it is, and it does not match the regular expression. *)
Theorem extract_video_id_accepts_non_ascii :
  let s := List.repeat 233%N 11 in
  extract_video_id unicode_alnum s = Some s /\ matches_id_regex s = false.
Proof. split; reflexivity. Qed.

End Facts.

End VideoIdSpec.

(** ** The proxy provider pool *)

Module ProxyPoolSpec.
Import ProxyPool ProxyPoolProps.

Section Accounting.

Variable TRANSCRIPT_PROXY_FAILURE_THRESHOLD : Z.
Variable TRANSCRIPT_PROXY_COOLDOWN_SECONDS : Z.

Local Abbreviation T := TRANSCRIPT_PROXY_FAILURE_THRESHOLD.
Local Abbreviation CD := TRANSCRIPT_PROXY_COOLDOWN_SECONDS.
Local Abbreviation count_in_range := (ProxyPoolProps.count_in_range T).

Lemma count_in_range_new n cfg d : count_in_range (new_provider n cfg d).
Proof. unfold ProxyPoolProps.count_in_range; simpl. lia. Qed.

Lemma count_in_range_call p c :
  count_in_range p -> count_in_range (apply_call T CD p c).
Proof.
  unfold ProxyPoolProps.count_in_range. intros [H0 HT]. destruct c as [|now]; simpl.
  - lia.
  - unfold record_failure. destruct (Z.leb_spec T (_failure_count p + 1)); simpl; lia.
Qed.

Lemma count_in_range_run cs : forall p,
  count_in_range p -> count_in_range (run_calls T CD cs p).
Proof.
  induction cs as [|c cs IH]; intros p Hp; simpl; [exact Hp|].
  apply IH, count_in_range_call, Hp.
Qed.

(** C6. After any sequence of calls on a provider: [record_success] zeroes
    the counter and the cooldown; [record_failure] returns true exactly when
    the incremented counter reaches the threshold, and then sets the
    cooldown to [now + COOLDOWN_SECONDS] and the counter to 0; otherwise it
    returns false, keeps the incremented counter and leaves the cooldown;
    the counter is never negative, and with a positive threshold it never
    passes the threshold, so that reaching it is being equal to it. *)
Theorem provider_accounting (n cfg d : string) (cs : list call) (now : Z) :
  let p := run_calls T CD cs (new_provider n cfg d) in
  let after := record_failure T CD now p in
  (_failure_count (record_success p) = 0 /\ _cooldown_until (record_success p) = 0) /\
  (fst after = true <-> T <= _failure_count p + 1) /\
  (fst after = true ->
     _cooldown_until (snd after) = now + CD /\ _failure_count (snd after) = 0) /\
  (fst after = false ->
     _failure_count (snd after) = _failure_count p + 1 /\
     _cooldown_until (snd after) = _cooldown_until p) /\
  0 <= _failure_count p /\
  (1 <= T -> (fst after = true <-> _failure_count p + 1 = T)).
Proof.
  intros p after.
  assert (Hr : count_in_range p) by (apply count_in_range_run, count_in_range_new).
  destruct Hr as [H0 HT]. subst after. unfold record_failure.
  destruct (Z.leb_spec T (_failure_count p + 1)) as [Hle|Hlt]; simpl;
    repeat split; try (intros; lia); try (intros; discriminate); auto.
Qed.

End Accounting.

(** With the default threshold 2 and a cooldown of 300 s, the second
    failure in a row starts the cooldown. *)
Lemma provider_accounting_witness :
  let p := run_calls 2 (seconds 300) [CallFailure 5] (new_provider "generic" "" "") in
  fst (record_failure 2 (seconds 300) 10 p) = true /\
  _cooldown_until (snd (record_failure 2 (seconds 300) 10 p)) = 10 + seconds 300 /\
  _failure_count (snd (record_failure 2 (seconds 300) 10 p)) = 0.
Proof.
  intros p.
  destruct (provider_accounting 2 (seconds 300) "generic" "" "" [CallFailure 5] 10)
    as (_ & Hiff & Htrue & _ & _ & _).
  assert (Hfst : fst (record_failure 2 (seconds 300) 10 p) = true)
    by (apply Hiff; vm_compute; discriminate).
  split; [exact Hfst|]. exact (Htrue Hfst).
Defined.

Section Selection.

Lemma deref_seq_app (pre ps : pool) :
  deref (pre ++ ps) (seq (length pre) (length ps)) = ps.
Proof.
  unfold deref. revert pre. induction ps as [|p ps IH]; intros pre; [reflexivity|].
  simpl.
  rewrite (lookup_app_r pre (p :: ps)) by lia. rewrite Nat.sub_diag. simpl. f_equal.
  specialize (IH (pre ++ [p])). rewrite <- app_assoc in IH. simpl in IH.
  rewrite length_app in IH. simpl in IH. rewrite Nat.add_1_r in IH. exact IH.
Qed.

Lemma deref_seq (ps : pool) : deref ps (seq 0 (length ps)) = ps.
Proof. exact (deref_seq_app [] ps). Qed.

Lemma deref_cons (ps : pool) (r : nat) (refs : list nat) :
  deref ps (r :: refs)
  = match ps !! r with
    | Some p => p :: deref ps refs
    | None => deref ps refs
    end.
Proof. reflexivity. Qed.

Lemma deref_filter (ps : pool) (now : Z) (refs : list nat) :
  deref ps (List.filter (available_ref ps now) refs)
  = List.filter (is_available now) (deref ps refs).
Proof.
  induction refs as [|r refs IH]; [reflexivity|].
  rewrite deref_cons. cbn [List.filter]. unfold available_ref at 1.
  destruct (ps !! r) as [p|] eqn:Hr.
  - cbn [List.filter]. destruct (is_available now p).
    + rewrite deref_cons, Hr, IH. reflexivity.
    + exact IH.
  - exact IH.
Qed.

Lemma insert_by_Permutation {A} (key : A -> Z) x l :
  Permutation (insert_by key x l) (x :: l).
Proof.
  induction l as [|y l IH]; simpl; [reflexivity|].
  destruct (key x <=? key y); [reflexivity|].
  rewrite IH. apply perm_swap.
Qed.

Lemma sorted_Permutation {A} (key : A -> Z) l : Permutation (sorted key l) l.
Proof.
  induction l as [|x l IH]; simpl; [reflexivity|].
  rewrite insert_by_Permutation. constructor. exact IH.
Qed.

Lemma insert_by_sorted {A} (key : A -> Z) x l :
  StronglySorted (ascending key) l -> StronglySorted (ascending key) (insert_by key x l).
Proof.
  induction 1 as [|y l Hs IH Hall]; simpl.
  - repeat constructor.
  - destruct (Z.leb_spec (key x) (key y)).
    + constructor; [constructor; assumption|].
      constructor; [assumption|].
      eapply List.Forall_impl; [|exact Hall]. unfold ascending. intros a Ha. lia.
    + constructor; [exact IH|].
      eapply Permutation_Forall; [symmetry; apply insert_by_Permutation|].
      constructor; [unfold ascending; lia|exact Hall].
Qed.

Lemma sorted_sorted {A} (key : A -> Z) l : StronglySorted (ascending key) (sorted key l).
Proof.
  induction l as [|x l IH]; simpl; [constructor|]. apply insert_by_sorted, IH.
Qed.

Lemma deref_ascending (ps : pool) (refs : list nat) :
  StronglySorted (ascending (cooldown_key ps)) refs ->
  StronglySorted (ascending _cooldown_until) (deref ps refs).
Proof.
  induction 1 as [|r refs Hs IH Hall]; [constructor|].
  rewrite deref_cons. destruct (ps !! r) as [p|] eqn:Hr; [|exact IH].
  constructor; [exact IH|].
  clear IH Hs. induction refs as [|r' refs IH]; [constructor|].
  inversion Hall as [|? ? Hr' Hall']; subst.
  rewrite deref_cons. destruct (ps !! r') as [p'|] eqn:Hp'; [|apply IH; assumption].
  constructor; [|apply IH; assumption].
  unfold ascending, cooldown_key in *. rewrite Hr, Hp' in Hr'. exact Hr'.
Qed.

Lemma select_nonempty (ps : pool) (now : Z) :
  _select_transcript_proxy_providers ps now = [] -> ps = [].
Proof.
  destruct ps as [|p ps]; [reflexivity|]. unfold _select_transcript_proxy_providers.
  destruct (List.filter _ _) eqn:Hf; [|discriminate].
  intros H. pose proof (sorted_Permutation (cooldown_key (p :: ps)) (seq 0 (length (p :: ps)))) as HP.
  rewrite H in HP. apply Permutation_nil in HP. discriminate.
Qed.

(** The two cases of the selection: the available providers in their
    configured order, or else all of them in ascending order of
    [cooldown_until]. *)
Lemma select_cases (ps : pool) (now : Z) :
  let selected := deref ps (_select_transcript_proxy_providers ps now) in
  let available := List.filter (is_available now) ps in
  (available <> [] -> selected = available) /\
  (available = [] ->
     _select_transcript_proxy_providers ps now
       = sorted (cooldown_key ps) (seq 0 (length ps)) /\
     Permutation selected ps /\
     StronglySorted (ascending _cooldown_until) selected).
Proof.
  intros selected available.
  assert (Hav : deref ps (List.filter (available_ref ps now) (seq 0 (length ps))) = available).
  { rewrite deref_filter, deref_seq. reflexivity. }
  subst selected. unfold _select_transcript_proxy_providers.
  destruct ps as [|p0 ps0] eqn:Hps; [split; [intros H; exfalso; apply H; reflexivity|];
    intros _; repeat split; constructor|].
  rewrite <- Hps in *. 
  destruct (List.filter (available_ref ps now) (seq 0 (length ps))) as [|r rs] eqn:Hf.
  - split; [intros H; exfalso; apply H; rewrite <- Hav; reflexivity|].
    intros _. split; [subst; reflexivity|]. split.
    + unfold deref. rewrite sorted_Permutation.
      change (Permutation (deref ps (seq 0 (length ps))) ps).
      rewrite deref_seq. reflexivity.
    + apply deref_ascending, sorted_sorted.
  - split; [intros _; exact Hav|].
    intros Hnil. exfalso. rewrite Hnil in Hav.
    assert (Hin : In r (List.filter (available_ref ps now) (seq 0 (length ps))))
      by (rewrite Hf; left; reflexivity).
    apply filter_In in Hin as [_ Hr]. unfold available_ref in Hr.
    destruct (ps !! r) as [p|] eqn:Hp; [|discriminate].
    rewrite deref_cons, Hp in Hav. cbn [List.filter] in Hav.
    discriminate.
Qed.

End Selection.

End ProxyPoolSpec.

(** ** The transcript orchestrator *)

Module OrchestratorSpec.
Import ProxyPool Orchestrator ProxyPoolProps ProxyPoolSpec OrchestratorProps.

Section Facts.

Variable TRANSCRIPT_PROXY_FAILURE_THRESHOLD : Z.
Variable TRANSCRIPT_PROXY_COOLDOWN_SECONDS : Z.
Variable TRANSCRIPT_PROXY_ATTEMPTS_PER_PROVIDER : Z.

Local Abbreviation T := TRANSCRIPT_PROXY_FAILURE_THRESHOLD.
Local Abbreviation CD := TRANSCRIPT_PROXY_COOLDOWN_SECONDS.
Local Abbreviation N := TRANSCRIPT_PROXY_ATTEMPTS_PER_PROVIDER.

Variable E : env.

Lemma attempts_loop_success r idx : forall n attempt p log started txt p' log' started',
  attempts_loop T CD E r idx n attempt p log started = (Some txt, p', log', started') ->
  In status_success log'.
Proof.
  induction n as [|n IH]; intros attempt p log started txt p' log' started' H; simpl in H.
  - discriminate.
  - destruct (fetch_api_once E (Some r) attempt) as [[t|]|e].
    + inversion H; subst. apply in_or_app. right. left. reflexivity.
    + destruct (record_failure _ _ _ p) as [entered p1]. eapply IH; eauto.
    + destruct (record_failure _ _ _ p) as [entered p1]. eapply IH; eauto.
Qed.

Lemma providers_loop_success : forall sequence idx ps logs txt ps' logs',
  providers_loop T CD N E sequence idx ps logs = (Some txt, ps', logs') ->
  exists l, In l logs' /\ In status_success (attempts l).
Proof.
  induction sequence as [|r rest IH]; intros idx ps logs txt ps' logs' H; simpl in H.
  - discriminate.
  - destruct (ps !! r) as [p|]; [|eapply IH; eauto].
    destruct (negb (is_available (now_check E idx) p) && (0 <? idx)%nat).
    + eapply IH; eauto.
    + destruct (attempts_loop _ _ _ _ _ _ _ _ _ _) as [[[t p1] alog] started] eqn:Ha.
      destruct t as [t|]; [|eapply IH; eauto].
      inversion H; subst. eexists. split.
      * apply in_or_app. right. left. reflexivity.
      * simpl. eapply attempts_loop_success; eauto.
Qed.

Lemma attempts_loop_length r idx : forall n attempt p log started txt p' log' started',
  attempts_loop T CD E r idx n attempt p log started = (txt, p', log', started') ->
  (length log' <= length log + n)%nat.
Proof.
  induction n as [|n IH]; intros attempt p log started txt p' log' started' H; simpl in H.
  - inversion H; subst. lia.
  - destruct (fetch_api_once E (Some r) attempt) as [[t|]|e].
    + inversion H; subst. rewrite length_app. simpl. lia.
    + destruct (record_failure _ _ _ p) as [entered p1].
      apply IH in H. rewrite length_app in H. simpl in H. lia.
    + destruct (record_failure _ _ _ p) as [entered p1].
      apply IH in H. rewrite length_app in H. simpl in H. lia.
Qed.

(** No provider is fetched through more than
    [TRANSCRIPT_PROXY_ATTEMPTS_PER_PROVIDER] times in a call. *)
Lemma providers_loop_attempts : forall sequence idx ps logs,
  Forall (fun l => (length (attempts l) <= Z.to_nat N)%nat) logs ->
  Forall (fun l => (length (attempts l) <= Z.to_nat N)%nat)
         (snd (providers_loop T CD N E sequence idx ps logs)).
Proof.
  induction sequence as [|r rest IH]; intros idx ps logs Hlogs; simpl; [exact Hlogs|].
  destruct (ps !! r) as [p|]; [|apply IH; exact Hlogs].
  destruct (negb (is_available (now_check E idx) p) && (0 <? idx)%nat).
  - apply IH. apply Forall_app. split; [exact Hlogs|]. repeat constructor. simpl. lia.
  - destruct (attempts_loop _ _ _ _ _ _ _ _ _ _) as [[[t p1] alog] started] eqn:Ha.
    apply attempts_loop_length in Ha. simpl in Ha.
    assert (Hnew : Forall (fun l => (length (attempts l) <= Z.to_nat N)%nat)
                     (logs ++ [ {| provider := r; attempts := alog;
                                   skipped_due_to_cooldown := false;
                                   cooldown_break := negb (is_available (now_check E idx) p);
                                   cooldown_started := started |} ])).
    { apply Forall_app. split; [exact Hlogs|]. repeat constructor. simpl. lia. }
    destruct t as [t|]; [exact Hnew|]. apply IH. exact Hnew.
Qed.

Lemma get_transcript_attempts (ps : pool) :
  Forall (fun l => (length (attempts l) <= Z.to_nat N)%nat)
         (provider_logs (get_transcript T CD N E ps)).
Proof.
  unfold get_transcript.
  destruct (_select_transcript_proxy_providers ps (now_select E)) as [|r0 rest].
  - destruct (fetch_api_once E None 1) as [[t|]|e]; [constructor| |].
    + unfold fallback_stage. destruct (as_completed _ _ _) as [y o].
      destruct (first_result E y); constructor.
    + destruct (is_retrieval_error e); [|constructor].
      unfold fallback_stage. destruct (as_completed _ _ _) as [y o].
      destruct (first_result E y); constructor.
  - pose proof (providers_loop_attempts (r0 :: rest) 0 ps [] (List.Forall_nil _)) as H.
    destruct (providers_loop _ _ _ _ _ _ _ _) as [[t ps'] logs]. cbn [snd] in H.
    destruct t as [t|]; [exact H|].
    unfold fallback_stage. destruct (as_completed _ _ _) as [y o].
    destruct (first_result E y); exact H.
Qed.

(** Providers that are still cooling down at every check and are not at
    the head of the sequence are skipped, and their state is not touched. *)
Lemma providers_loop_skips : forall rest idx ps logs,
  (0 < idx)%nat ->
  (forall r, In r rest -> exists p, ps !! r = Some p /\
                          forall i, is_available (now_check E i) p = false) ->
  providers_loop T CD N E rest idx ps logs
  = (None, ps, logs ++ List.map skipped_entry rest).
Proof.
  induction rest as [|r rest IH]; intros idx ps logs Hidx Hcool; simpl.
  - rewrite app_nil_r. reflexivity.
  - destruct (Hcool r (or_introl eq_refl)) as (p & Hp & Hav). rewrite Hp, Hav.
    destruct (Nat.ltb_spec 0 idx); [|lia]. simpl.
    rewrite IH; [|lia|intros r' Hr'; apply Hcool; right; exact Hr'].
    rewrite <- app_assoc. reflexivity.
Qed.

Lemma skipped_not_attempted rest :
  List.filter attempted (List.map skipped_entry rest) = [] /\
  List.filter cooldown_break (List.map skipped_entry rest) = [].
Proof. induction rest as [|r rest [IH1 IH2]]; simpl; auto. Qed.

(** When every provider is cooling down, at the selection and at the checks
    of the loop, one provider is attempted in the call: the head of the
    selection, marked [cooldown_break]; the others are skipped. *)
Lemma one_bypass (ps : pool) :
  ps <> [] ->
  List.filter (is_available (now_select E)) ps = [] ->
  (forall idx p, In p ps -> is_available (now_check E idx) p = false) ->
  let logs := provider_logs (get_transcript T CD N E ps) in
  exists head,
    List.hd_error (_select_transcript_proxy_providers ps (now_select E)) = Some head /\
    List.map provider (List.filter attempted logs) = [head] /\
    List.map provider (List.filter cooldown_break logs) = [head].
Proof.
  intros Hne Hnone Hcool logs. subst logs.
  destruct (select_cases ps (now_select E)) as [_ Hsorted].
  destruct (Hsorted Hnone) as (Hsel & Hperm & _). clear Hsorted.
  assert (HP : Permutation (_select_transcript_proxy_providers ps (now_select E))
                           (seq 0 (length ps)))
    by (rewrite Hsel; apply sorted_Permutation).
  unfold get_transcript.
  destruct (_select_transcript_proxy_providers ps (now_select E)) as [|r0 rest] eqn:Hseq.
  { exfalso. apply Hne. eapply select_nonempty; eauto. }
  exists r0. split; [reflexivity|].
  assert (Hnd : List.NoDup (r0 :: rest)).
  { eapply Permutation_NoDup; [symmetry; exact HP|]. apply List.seq_NoDup. }
  assert (Hvalid : forall r, In r (r0 :: rest) -> exists p, ps !! r = Some p /\ In p ps).
  { intros r Hr. assert (Hin : In r (seq 0 (length ps)))
      by (eapply Permutation_in; [exact HP|exact Hr]).
    apply in_seq in Hin. destruct (lookup_lt_is_Some_2 ps r) as [p Hp]; [lia|].
    exists p. split; [exact Hp|]. apply list_elem_of_In. eapply list_elem_of_lookup_2; eauto. }
  destruct (Hvalid r0 (or_introl eq_refl)) as (p0 & Hp0 & Hin0).
  cbn [providers_loop]. rewrite Hp0. rewrite (Hcool 0%nat p0 Hin0). cbn [negb andb Nat.ltb Nat.leb].
  destruct (attempts_loop _ _ _ _ _ _ _ _ _ _) as [[[t p1] alog] started] eqn:Ha.
  destruct t as [t|].
  - simpl. auto.
  - rewrite providers_loop_skips; [|lia|].
    + unfold fallback_stage. destruct (as_completed _ _ _) as [yielded timed_out].
      assert (Hl : forall (l : list provider_log),
        l = [] ++ [ {| provider := r0; attempts := alog; skipped_due_to_cooldown := false;
                       cooldown_break := negb false; cooldown_started := started |} ]
              ++ List.map skipped_entry rest ->
        List.map provider (List.filter attempted l) = [r0] /\
        List.map provider (List.filter cooldown_break l) = [r0]).
      { intros l ->. destruct (skipped_not_attempted rest) as [H1 H2].
        cbn [app List.filter]. unfold attempted at 1.
        cbn [skipped_due_to_cooldown cooldown_break negb].
        rewrite H1, H2. split; reflexivity. }
      destruct (first_result E yielded); cbn [provider_logs]; apply Hl;
        rewrite <- app_assoc; reflexivity.
    + intros r Hr. destruct (Hvalid r (or_intror Hr)) as (p & Hp & Hin).
      exists p. split; [|intros i; apply Hcool; exact Hin].
      unfold pool in *. rewrite list_lookup_insert_ne; [exact Hp|].
      intros ->. inversion Hnd; subst. contradiction.
Qed.

(** The attempt loop fetches through its provider, once per turn, until a
    fetch gives a payload or the turns are used up, and logs the status of
    every fetch. *)
Lemma attempts_loop_fetches r idx : forall n attempt p log started txt p' log' started',
  attempts_loop T CD E r idx n attempt p log started = (txt, p', log', started') ->
  exists k,
    (k <= n)%nat /\
    log' = log ++ List.map (fun a => status_of (fetch_api_once E (Some r) a)) (seq attempt k) /\
    match txt with
    | Some t =>
        (1 <= k)%nat /\
        Forall (fun a => ~ has_payload (fetch_api_once E (Some r) a)) (seq attempt (k - 1)) /\
        fetch_api_once E (Some r) (attempt + k - 1) = Return (Some t)
    | None =>
        k = n /\
        Forall (fun a => ~ has_payload (fetch_api_once E (Some r) a)) (seq attempt k)
    end.
Proof.
  induction n as [|n IH]; intros attempt p log started txt p' log' started' H; simpl in H.
  - inversion H; subst. exists 0%nat. simpl. rewrite app_nil_r.
    repeat split; auto.
  - destruct (fetch_api_once E (Some r) attempt) as [[t|]|e] eqn:Hfetch.
    + inversion H; subst. exists 1%nat. simpl. rewrite Hfetch.
      split; [lia|]. split; [reflexivity|]. split; [lia|]. split; [constructor|].
      rewrite <- Hfetch. f_equal. lia.
    + destruct (record_failure _ _ _ p) as [entered p1].
      apply IH in H as (k & Hk & Hlog & Htxt). exists (S k).
      split; [lia|]. split.
      { rewrite Hlog, <- app_assoc. simpl. rewrite Hfetch. reflexivity. }
      assert (Hnone : ~ has_payload (fetch_api_once E (Some r) attempt))
        by (rewrite Hfetch; intros [t Ht]; discriminate).
      destruct txt as [t|].
      * destruct Htxt as (H1 & Hbefore & Hlast). split; [lia|]. split.
        { replace (S k - 1)%nat with (S (k - 1)) by lia. simpl.
          constructor; [exact Hnone|exact Hbefore]. }
        { rewrite <- Hlast. f_equal. lia. }
      * destruct Htxt as (-> & Hall). split; [reflexivity|]. simpl.
        constructor; [exact Hnone|exact Hall].
    + destruct (record_failure _ _ _ p) as [entered p1].
      apply IH in H as (k & Hk & Hlog & Htxt). exists (S k).
      split; [lia|]. split.
      { rewrite Hlog, <- app_assoc. simpl. rewrite Hfetch. reflexivity. }
      assert (Hnone : ~ has_payload (fetch_api_once E (Some r) attempt))
        by (rewrite Hfetch; intros [t Ht]; discriminate).
      destruct txt as [t|].
      * destruct Htxt as (H1 & Hbefore & Hlast). split; [lia|]. split.
        { replace (S k - 1)%nat with (S (k - 1)) by lia. simpl.
          constructor; [exact Hnone|exact Hbefore]. }
        { rewrite <- Hlast. f_equal. lia. }
      * destruct Htxt as (-> & Hall). split; [reflexivity|]. simpl.
        constructor; [exact Hnone|exact Hall].
Qed.

Lemma fetches_without_payload r k :
  Forall (fun a => ~ has_payload (fetch_api_once E (Some r) a)) (seq 1 k) ->
  Forall (fun o => ~ has_payload o) (fetches E r k).
Proof. intros H. unfold fetches. apply List.Forall_map. exact H. Qed.

Lemma fetches_statuses r k :
  List.map (fun a => status_of (fetch_api_once E (Some r) a)) (seq 1 k)
  = List.map status_of (fetches E r k).
Proof. unfold fetches. rewrite List.map_map. reflexivity. Qed.

(** The cooldown bypass: when every provider is cooling down, at the
    selection and at the checks of the loop, the call fetches through the
    head of the selection and through no other provider. *)
Lemma bypass_attempt (ps : pool) :
  ps <> [] ->
  List.filter (is_available (now_select E)) ps = [] ->
  (forall idx p, In p ps -> is_available (now_check E idx) p = false) ->
  exists head rest,
    _select_transcript_proxy_providers ps (now_select E) = head :: rest /\
    one_bypass_attempt N E head rest (get_transcript T CD N E ps).
Proof.
  intros Hne Hnone Hcool.
  destruct (select_cases ps (now_select E)) as [_ Hsorted].
  destruct (Hsorted Hnone) as (Hsel & Hperm & _). clear Hsorted.
  assert (HP : Permutation (_select_transcript_proxy_providers ps (now_select E))
                           (seq 0 (length ps)))
    by (rewrite Hsel; apply sorted_Permutation).
  unfold get_transcript.
  destruct (_select_transcript_proxy_providers ps (now_select E)) as [|r0 rest] eqn:Hseq.
  { exfalso. apply Hne. eapply select_nonempty; eauto. }
  exists r0, rest. split; [reflexivity|].
  assert (Hnd : List.NoDup (r0 :: rest)).
  { eapply Permutation_NoDup; [symmetry; exact HP|]. apply List.seq_NoDup. }
  assert (Hvalid : forall r, In r (r0 :: rest) -> exists p, ps !! r = Some p /\ In p ps).
  { intros r Hr. assert (Hin : In r (seq 0 (length ps)))
      by (eapply Permutation_in; [exact HP|exact Hr]).
    apply in_seq in Hin. destruct (lookup_lt_is_Some_2 ps r) as [p Hp]; [lia|].
    exists p. split; [exact Hp|]. apply list_elem_of_In. eapply list_elem_of_lookup_2; eauto. }
  destruct (Hvalid r0 (or_introl eq_refl)) as (p0 & Hp0 & Hin0).
  cbn [providers_loop]. rewrite Hp0. rewrite (Hcool 0%nat p0 Hin0). cbn [negb andb Nat.ltb Nat.leb].
  destruct (attempts_loop _ _ _ _ _ _ _ _ _ _) as [[[t p1] alog] started] eqn:Ha.
  apply attempts_loop_fetches in Ha as (k & Hk & Hlog & Htxt).
  rewrite app_nil_l, fetches_statuses in Hlog.
  exists {| provider := r0; attempts := alog; skipped_due_to_cooldown := false;
            cooldown_break := true; cooldown_started := started |}, k.
  cbn [provider attempts skipped_due_to_cooldown cooldown_break].
  split; [reflexivity|]. split; [reflexivity|]. split; [reflexivity|]. split; [exact Hlog|].
  destruct t as [t|].
  - left. destruct Htxt as (H1 & Hbefore & Hlast). exists t.
    split; [lia|]. split; [apply fetches_without_payload; exact Hbefore|].
    split; [rewrite <- Hlast; f_equal; lia|]. repeat split; reflexivity.
  - right. destruct Htxt as (-> & Hall).
    split; [reflexivity|]. split; [apply fetches_without_payload; exact Hall|].
    rewrite providers_loop_skips; [|lia|].
    + unfold fallback_stage. destruct (as_completed _ _ _) as [yielded timed_out].
      destruct (first_result E yielded); cbn [provider_logs submitted]; split; reflexivity.
    + intros r Hr. destruct (Hvalid r (or_intror Hr)) as (p & Hp & Hin).
      exists p. split; [|intros i; apply Hcool; exact Hin].
      unfold pool in *. rewrite list_lookup_insert_ne; [exact Hp|].
      intros ->. inversion Hnd; subst. contradiction.
Qed.

Ltac no_payload :=
  match goal with
  | H : has_payload _ |- _ =>
      let txt := fresh "txt" in destruct H as [txt H];
      unfold fallback_result, adapter_of, run_adapter in H; congruence
  end.

Ltac same_time :=
  repeat match goal with
  | Ha : finished_after ?E ?g = Some ?a, Hb : finished_after ?E ?g = Some ?b |- _ =>
      assert (a = b) by congruence; clear Hb; subst
  end.

Ltac impossible :=
  first [ congruence | same_time; unfold seconds in *; lia | no_payload ].

Ltac on_time := unfold in_time; split; [assumption|unfold seconds in *; lia].

Ltac has_one :=
  eexists; unfold fallback_result, adapter_of, run_adapter; eassumption.

Ltac winner f t :=
  exists f, t; split; [on_time|];
  split; [unfold fallback_result, adapter_of, run_adapter; assumption|];
  let g := fresh "g" in let t' := fresh "t'" in
  let Hg := fresh "Hg" in let Hlt := fresh "Hlt" in let Hp := fresh "Hp" in
  intros g t' Hg Hlt Hp; destruct g; impossible.

(** The fallback stage on its own: whatever step 1 leaves behind. *)
Lemma fallback_stage_decides (ps : pool) (logs : list provider_log) :
  fallbacks_decide E (fallback_stage E ps logs).
Proof.
  unfold fallbacks_decide, fallbacks_decide_raising, fallback_stage, as_completed,
    fallback_attempts, FALLBACK_TIMEOUT, raise_NoTranscriptFound,
    NoTranscriptFound_required_arguments.
  cbn [List.filter]. unfold done_in_time. cbn [fst].
  destruct (finished_after E timedtext) as [t1|] eqn:H1;
  destruct (finished_after E yt_dlp_no_proxy) as [t2|] eqn:H2;
  try destruct (Z.leb_spec t1 (seconds 12));
  try destruct (Z.leb_spec t2 (seconds 12));
  cbn [sorted fold_right insert_by]; unfold finish_key; cbn [fst]; rewrite ?H1, ?H2;
  try destruct (Z.leb_spec t1 t2);
  cbn [first_result run_adapter snd length Nat.eqb negb];
  destruct (timedtext_try_languages E false) as [[txt1|]|e1] eqn:O1;
  destruct (fetch_ytdlp E None) as [[txt2|]|e2] eqn:O2;
  cbn [result submitted fallback_timeout List.map snd];
  (split; [reflexivity|]).
  all: (split; [intros txt Hr; try discriminate; inversion Hr; subst;
           first [ winner timedtext t1 | winner yt_dlp_no_proxy t2 ] |]).
  all: (split; [split;
     [ intros Hr; try discriminate;
       let f := fresh "f" in let t := fresh "t" in
       let Hf := fresh "Hf" in let Ht := fresh "Ht" in let Hp := fresh "Hp" in
       intros f t [Hf Ht] Hp; destruct f; impossible
     | intros Hnone; try reflexivity; exfalso;
       first [ apply (Hnone timedtext t1); [on_time|has_one]
             | apply (Hnone yt_dlp_no_proxy t2); [on_time|has_one] ] ] |]).
  all: (split; [first [left; eexists; reflexivity | right; reflexivity] |]).
  all: intros Hnever; try reflexivity; exfalso;
  first [ apply (Hnever timedtext t1); on_time
        | apply (Hnever yt_dlp_no_proxy t2); on_time ].
Qed.

(** With nothing from the primary stage, the call is the fallback stage. *)
Lemma get_transcript_falls_back (ps : pool) :
  primary_gives_nothing T CD N E ps ->
  exists ps' logs, get_transcript T CD N E ps = fallback_stage E ps' logs.
Proof.
  intros [[Hne Hnone]|[-> Hdirect]].
  - unfold get_transcript in *.
    destruct (_select_transcript_proxy_providers ps (now_select E)) as [|r0 rest] eqn:Hseq.
    { exfalso. apply Hne. eapply select_nonempty; eauto. }
    destruct (providers_loop _ _ _ _ _ _ _ _) as [[txt ps'] logs] eqn:Hloop.
    destruct txt as [txt|]; [|eauto].
    exfalso. apply providers_loop_success in Hloop as (l & Hin & Hok).
    cbn [provider_logs] in Hnone. unfold no_attempt_succeeded in Hnone.
    rewrite List.Forall_forall in Hnone. exact (Hnone l Hin Hok).
  - unfold get_transcript. cbn [_select_transcript_proxy_providers].
    destruct Hdirect as [-> | (e & -> & ->)]; eauto.
Qed.

(** A call that has exhausted its strategies reaches
    [raise NoTranscriptFound], which raises [TypeError]. *)
Lemma exhausted_raises (ps : pool) :
  strategies_exhausted T CD N E ps ->
  result (get_transcript T CD N E ps) = Raise OtherException.
Proof.
  intros [Hprimary Hnone].
  destruct (get_transcript_falls_back ps Hprimary) as (ps' & logs & ->).
  destruct (fallback_stage_decides ps' logs) as (_ & _ & Hiff & _).
  apply Hiff. exact Hnone.
Qed.

(** No call of [get_transcript] ends in [NoTranscriptFound]. *)
Lemma never_not_found (ps : pool) :
  result (get_transcript T CD N E ps) <> Raise NoTranscriptFound.
Proof.
  assert (Hstage : forall ps' logs,
            result (fallback_stage E ps' logs) <> Raise NoTranscriptFound).
  { intros ps' logs. unfold fallback_stage.
    destruct (as_completed _ _ _) as [yielded timed_out].
    destruct (first_result E yielded); cbn [result]; discriminate. }
  unfold get_transcript.
  destruct (_select_transcript_proxy_providers ps (now_select E)) as [|r0 rest].
  - destruct (fetch_api_once E None 1) as [[t|]|e]; [discriminate|apply Hstage|].
    destruct (is_retrieval_error e) eqn:He; [apply Hstage|].
    cbn [result]. intros Heq. inversion Heq; subst. discriminate.
  - destruct (providers_loop _ _ _ _ _ _ _ _) as [[[t|] ps'] logs];
      [discriminate|apply Hstage].
Qed.

(** Without providers, an exception of the direct attempt outside its
    [except] clause leaves [get_transcript], and no fallback is submitted. *)
Lemma direct_attempt_escapes (e : exn) :
  fetch_api_once E None 1 = Raise e ->
  is_retrieval_error e = false ->
  result (get_transcript T CD N E []) = Raise e /\
  submitted (get_transcript T CD N E []) = [].
Proof.
  intros Hfetch He. unfold get_transcript. cbn [_select_transcript_proxy_providers].
  rewrite Hfetch, He. split; reflexivity.
Qed.

End Facts.

(** C7. The selection returns the providers whose cooldown is over at
    [now], in their configured order, when there are some; otherwise all
    providers in ascending order of [cooldown_until]. In that second case a
    call of [get_transcript], for which the providers are still cooling
    down when the loop checks them, makes one bypass attempt: one provider
    is attempted, the head of that order, marked [cooldown_break]; the call
    fetches through it up to [TRANSCRIPT_PROXY_ATTEMPTS_PER_PROVIDER] times,
    logging each fetch, until a fetch gives a payload, which it returns; the
    other providers are skipped without a fetch. *)
Theorem selection_policy (T CD N : Z) (ps : pool) (now : Z) :
  let selected := deref ps (_select_transcript_proxy_providers ps now) in
  let available := List.filter (is_available now) ps in
  (available <> [] -> selected = available) /\
  (available = [] ->
     Permutation selected ps /\
     StronglySorted (ascending _cooldown_until) selected /\
     forall E : env,
       now_select E = now ->
       (forall idx p, In p ps -> is_available (now_check E idx) p = false) ->
       ps <> [] ->
       let logs := provider_logs (get_transcript T CD N E ps) in
       (exists head,
          List.hd_error (_select_transcript_proxy_providers ps now) = Some head /\
          List.map provider (List.filter attempted logs) = [head] /\
          List.map provider (List.filter cooldown_break logs) = [head]) /\
       Forall (fun l => (length (attempts l) <= Z.to_nat N)%nat) logs /\
       (exists head rest,
          _select_transcript_proxy_providers ps now = head :: rest /\
          one_bypass_attempt N E head rest (get_transcript T CD N E ps))).
Proof.
  intros selected available.
  destruct (select_cases ps now) as [Hsome Hnone].
  split; [exact Hsome|]. intros Hnil. destruct (Hnone Hnil) as (_ & Hperm & Hsorted).
  split; [exact Hperm|]. split; [exact Hsorted|].
  intros E Hnow Hcool Hne. subst now.
  split; [apply one_bypass; assumption|].
  split; [apply get_transcript_attempts|apply bypass_attempt; assumption].
Qed.

(** C8. When no attempt made through the providers succeeded, or when no
    provider is configured and the direct attempt returned nothing or
    raised one of the retrieval errors, [get_transcript] submits the
    timedtext adapter and the yt-dlp adapter, both without a proxy, and
    takes their results as they complete, for at most 12 s: the payload
    returned is the one of the first fallback that completes in time with
    one. When none does, in particular when both run out of time, the call
    reaches [raise NoTranscriptFound] and ends in [TypeError]: no call of
    [get_transcript] ends in [NoTranscriptFound]. Without providers, an
    exception of the direct attempt that is not a retrieval error leaves
    the call before any fallback is submitted. *)
Theorem fallback_policy (T CD N : Z) (E : env) (ps : pool) :
  (primary_gives_nothing T CD N E ps ->
   fallbacks_decide E (get_transcript T CD N E ps)) /\
  result (get_transcript T CD N E ps) <> Raise NoTranscriptFound /\
  (forall e, ps = [] ->
     fetch_api_once E None 1 = Raise e ->
     is_retrieval_error e = false ->
     result (get_transcript T CD N E ps) = Raise e /\
     submitted (get_transcript T CD N E ps) = []).
Proof.
  split; [|split].
  - intros H. destruct (get_transcript_falls_back T CD N E ps H) as (ps' & logs & ->).
    apply fallback_stage_decides.
  - apply never_not_found.
  - intros e -> Hfetch He. apply direct_attempt_escapes; assumption.
Qed.

(** At 400 s the two providers whose cooldown ended at 300 s are selected,
    in their configured order; at 100 s all three are cooling down and one
    of them is attempted. *)
Lemma selection_policy_witness :
  deref cooling_pool (_select_transcript_proxy_providers cooling_pool (seconds 400))
    = List.filter (is_available (seconds 400)) cooling_pool /\
  (exists head,
     List.hd_error (_select_transcript_proxy_providers cooling_pool 100) = Some head /\
     List.map provider
       (List.filter attempted
          (provider_logs (get_transcript 2 (seconds 300) 2 (timedtext_env 100) cooling_pool)))
       = [head] /\
     List.map provider
       (List.filter cooldown_break
          (provider_logs (get_transcript 2 (seconds 300) 2 (timedtext_env 100) cooling_pool)))
       = [head]) /\
  (exists head rest,
     _select_transcript_proxy_providers cooling_pool 100 = head :: rest /\
     one_bypass_attempt 2 (timedtext_env 100) head rest
       (get_transcript 2 (seconds 300) 2 (timedtext_env 100) cooling_pool)).
Proof.
  split.
  - apply (selection_policy 2 (seconds 300) 2 cooling_pool (seconds 400)).
    vm_compute. discriminate.
  - destruct (selection_policy 2 (seconds 300) 2 cooling_pool 100) as [_ Hcooling].
    destruct (Hcooling eq_refl) as (_ & _ & Hbypass).
    assert (Hcool : forall (idx : nat) p, In p cooling_pool ->
                      is_available (now_check (timedtext_env 100) idx) p = false)
      by (intros idx p [<-|[<-|[<-|[]]]]; reflexivity).
    assert (Hne : cooling_pool <> []) by discriminate.
    destruct (Hbypass (timedtext_env 100) eq_refl Hcool Hne) as (Hone & _ & Hfetches).
    split; [exact Hone|exact Hfetches].
Defined.

(** The logs of that call: two fetches through the second provider, which
    give nothing, and no fetch through the others. *)
Example bypass_run :
  provider_logs (get_transcript 2 (seconds 300) 2 (timedtext_env 100) cooling_pool)
  = [ {| provider := 1; attempts := [status_empty; status_empty];
         skipped_due_to_cooldown := false; cooldown_break := true;
         cooldown_started := true |};
      skipped_entry 2; skipped_entry 0 ].
Proof. vm_compute. reflexivity. Qed.

(** Without providers and with an empty direct attempt, the payload of
    timedtext, done after 3 s, is returned; a direct attempt that raises
    another exception ends the call. *)
Lemma fallback_policy_witness :
  (primary_gives_nothing 2 (seconds 300) 2 (timedtext_env 0) [] /\
   fallbacks_decide (timedtext_env 0) (get_transcript 2 (seconds 300) 2 (timedtext_env 0) [])) /\
  (fetch_api_once raising_env None 1 = Raise OtherException /\
   result (get_transcript 2 (seconds 300) 2 raising_env []) = Raise OtherException /\
   submitted (get_transcript 2 (seconds 300) 2 raising_env []) = []).
Proof.
  assert (H : primary_gives_nothing 2 (seconds 300) 2 (timedtext_env 0) []).
  { right. split; [reflexivity|]. left. reflexivity. }
  split.
  - split; [exact H|].
    exact (proj1 (fallback_policy 2 (seconds 300) 2 (timedtext_env 0) []) H).
  - split; [reflexivity|].
    exact (proj2 (proj2 (fallback_policy 2 (seconds 300) 2 raising_env []))
             OtherException eq_refl eq_refl eq_refl).
Defined.

(** C8, as stated, fails on two inputs, both without providers. The direct
    attempt finds nothing and both fallbacks run out of time: the call ends
    in [TypeError], not in [NoTranscriptFound]. The direct attempt raises an
    exception outside the [except] clause of the direct branch: the
    exception leaves [get_transcript] and no fallback is submitted. *)
Lemma fallbacks_do_not_report_unavailable :
  ~ (primary_fails 2 (seconds 300) 2 timed_out_env [] ->
     fallbacks_report_unavailable timed_out_env
       (get_transcript 2 (seconds 300) 2 timed_out_env [])) /\
  ~ (primary_fails 2 (seconds 300) 2 raising_env [] ->
     fallbacks_report_unavailable raising_env
       (get_transcript 2 (seconds 300) 2 raising_env [])).
Proof.
  split; intros H.
  - assert (Hfails : primary_fails 2 (seconds 300) 2 timed_out_env []).
    { right. split; [reflexivity|]. intros [txt Htxt]. discriminate. }
    destruct (H Hfails) as (_ & _ & _ & [[txt Hreturn]|Hraise] & _); discriminate.
  - assert (Hfails : primary_fails 2 (seconds 300) 2 raising_env []).
    { right. split; [reflexivity|]. intros [txt Htxt]. discriminate. }
    destruct (H Hfails) as [Hsubmitted _]. discriminate.
Qed.

Example timed_out_env_result :
  result (get_transcript 2 (seconds 300) 2 timed_out_env []) = Raise OtherException /\
  submitted (get_transcript 2 (seconds 300) 2 timed_out_env [])
    = [call_timedtext_try_languages false; call_fetch_ytdlp None] /\
  fallback_timeout (get_transcript 2 (seconds 300) 2 timed_out_env []) = true.
Proof. repeat split; reflexivity. Qed.

Example raising_env_result :
  result (get_transcript 2 (seconds 300) 2 raising_env []) = Raise OtherException /\
  submitted (get_transcript 2 (seconds 300) 2 raising_env []) = [].
Proof. split; reflexivity. Qed.

End OrchestratorSpec.

(** ** The comment engine *)

Module CommentsSpec.
Import Cache Comments Samples CommentsProps.

Lemma resilient_loop_blocked A s : forall before after done,
  fetch_func A s = Raise PermanentCommentBlock ->
  Forall (fun s' => fetch_func A s' <> Raise PermanentCommentBlock /\
                    forall c cs, fetch_func A s' <> Return (c :: cs)) before ->
  resilient_loop A (before ++ s :: after) done
  = {| comments := []; invoked := done ++ before ++ [s]; permanent_block_detected := true |}.
Proof.
  induction before as [|s' before IH]; intros after done Hs Hbefore; simpl.
  - rewrite Hs. reflexivity.
  - inversion Hbefore as [|? ? [Hnb Hne] Hrest]; subst.
    destruct (fetch_func A s') as [[|c cs]|e] eqn:Hf.
    + rewrite IH by assumption. rewrite <- app_assoc. reflexivity.
    + exfalso. eapply Hne. reflexivity.
    + destruct e; try (rewrite IH by assumption; rewrite <- app_assoc; reflexivity).
      exfalso. apply Hnb. reflexivity.
Qed.

(** The chain stops at the strategy that raises the block and gives the
    empty list. *)
Lemma resilient_blocked A s before after :
  blocked_at A s before after ->
  _fetch_comments_resilient A
  = {| comments := []; invoked := before ++ [s]; permanent_block_detected := true |}.
Proof.
  intros (Hsplit & Hs & Hbefore). unfold _fetch_comments_resilient. rewrite Hsplit.
  apply resilient_loop_blocked; assumption.
Qed.

(** Whatever the adapters do, a chain that has seen the block returns the
    empty list. *)
Lemma resilient_blocked_gives_nothing A :
  permanent_block_detected (_fetch_comments_resilient A) = true ->
  comments (_fetch_comments_resilient A) = [].
Proof.
  unfold _fetch_comments_resilient, comment_retrieval_strategies. simpl.
  repeat match goal with
  | |- context [match ?o with Return _ => _ | Raise _ => _ end] =>
      destruct o as [[|? ?]|[]]; simpl; try discriminate; try reflexivity
  end.
Qed.

Section Endpoint.

Variable unicode_alnum : N -> bool.

Local Abbreviation step := (Comments.step unicode_alnum).
Local Abbreviation serve := (CommentsProps.serve unicode_alnum).
Local Abbreviation answers_200 := (CommentsProps.answers_200 unicode_alnum).

Lemma try_serve_status now video_id w r w' :
  _try_serve_from_cache now video_id w = (Some r, w') -> status r = 200.
Proof.
  unfold _try_serve_from_cache.
  destruct (cache_get now (comment_cache w) video_id).
  - intros H; inversion H; reflexivity.
  - destruct (comment_db w !! video_id); intros H; inversion H; reflexivity.
Qed.

Ltac tidy :=
  cbn [fst snd Comments.position Comments.registered Comments.moves rank answer
       status json max_age respond ok_comments new_event] in *.

(** Every step of a request that is not done brings it nearer to its end. *)
Lemma step_rank i t w :
  position t = position (fst (step i t w)) /\ rank (position t) = 0%nat \/
  (rank (position (fst (step i t w))) < rank (position t))%nat.
Proof.
  unfold Comments.step. destruct (position t) eqn:Hp; tidy.
  - right. destruct video_url_or_id; tidy; [lia|].
    destruct (VideoId.extract_video_id _ _); tidy; [|lia].
    destruct (_try_serve_from_cache _ _ _) as [[r|] w']; tidy; lia.
  - right. destruct (comment_inflight_events w !! video_id); tidy; lia.
  - right. destruct (event_is_set _ _); tidy; lia.
  - right. destruct (_try_serve_from_cache _ _ _) as [[r|] w']; tidy; lia.
  - right. destruct (fetched i) as [cs|[]]; tidy; lia.
  - right. lia.
  - right. lia.
  - right. lia.
  - right. lia.
  - right. lia.
  - right. destruct (comment_inflight_events w !! video_id) as [e|]; tidy; [|lia].
    destruct (Nat.eqb e evt); tidy; lia.
  - left. rewrite Hp. auto.
Qed.

(** A property of positions that every step keeps holds of the response
    with which a request ends, and the request does end. *)
Lemma serve_ends (I : pc -> Prop) :
  (forall i t w, I (position t) -> I (position (fst (step i t w)))) ->
  forall schedule t w,
    I (position t) -> (rank (position t) <= length schedule)%nat ->
    exists r t' w', serve schedule t w = (t', w') /\ position t' = done r /\ I (done r).
Proof.
  intros Hkeeps. induction schedule as [|[i others] rest IH]; intros t w Hi Hrank.
  - simpl in *. destruct (position t) eqn:Hp; simpl in Hrank; try lia.
    exists r, t, w. auto.
  - cbn [CommentsProps.serve].
    pose proof (Hkeeps i t (others w) Hi) as Hi'.
    pose proof (step_rank i t (others w)) as Hr.
    destruct (Comments.step unicode_alnum i t (others w)) as [t1 w1] eqn:Hs.
    tidy. apply IH; [exact Hi'|].
    cbn [length] in Hrank. destruct Hr as [[Heq H0]|Hlt]; [rewrite <- Heq|]; lia.
Qed.

Lemma answers_200_kept i t w :
  answers_200 (position t) -> answers_200 (position (fst (step i t w))).
Proof.
  unfold Comments.step, CommentsProps.answers_200. destruct (position t) eqn:Hp; tidy; intros H; auto.
  - destruct video_url_or_id; [exfalso; apply H; reflexivity|].
    destruct (VideoId.extract_video_id _ _); [|exfalso; apply H; reflexivity].
    destruct (_try_serve_from_cache _ _ _) as [[r|] w'] eqn:Hc; tidy; auto.
    eapply try_serve_status; eauto.
  - destruct (comment_inflight_events w !! video_id); tidy; auto.
  - destruct (event_is_set _ _); tidy; auto.
  - destruct (_try_serve_from_cache _ _ _) as [[r|] w'] eqn:Hc; tidy; auto.
    eapply try_serve_status; eauto.
  - destruct (fetched i) as [cs|[]]; tidy; auto.
  - destruct (comment_inflight_events w !! video_id) as [e|]; tidy; auto.
    destruct (Nat.eqb e evt); tidy; auto.
  - rewrite Hp. tidy. exact H.
Qed.

Lemma answers_warning_kept video_id i t w :
  answers_warning video_id (position t) ->
  answers_warning video_id (position (fst (step i t w))).
Proof.
  unfold Comments.step, answers_warning.
  destruct (position t) eqn:Hp; tidy; intros H; try contradiction; auto.
  - subst. split; eauto.
  - destruct (comment_inflight_events w !! video_id0) as [e|]; tidy; auto.
    destruct (Nat.eqb e evt); tidy; auto.
  - rewrite Hp. exact H.
Qed.

Lemma answers_warning_raised video_id evt reg i w e :
  fetched i = Raise e ->
  let t' := fst (step i {| position := at_fetch video_id evt; registered := reg |} w) in
  answers_warning video_id (position t') /\ (rank (position t') <= 4)%nat.
Proof.
  intros He. unfold Comments.step, answers_warning. tidy. rewrite He.
  destruct e; tidy; repeat split; eauto; lia.
Qed.


(** C9. A request to /comments with a valid video id is answered with
    status 200 whatever the caches hold, whatever the other requests do in
    between and however the fetch ends; when the fetch raises, whatever the
    exception, the answer is a 200 with an empty comment list and a
    warning. The request ends within nine steps. *)
Theorem comments_always_200 (video_url_or_id video_id : pystr) :
  VideoId.extract_video_id unicode_alnum video_url_or_id = Some video_id ->
  (forall schedule reg w,
     (9 <= length schedule)%nat ->
     exists r t' w',
       serve schedule {| position := at_start video_url_or_id; registered := reg |} w
         = (t', w') /\
       position t' = done r /\ status r = 200) /\
  (forall i others schedule evt reg w e,
     fetched i = Raise e ->
     (4 <= length schedule)%nat ->
     exists r t' w' warning,
       serve ((i, others) :: schedule)
             {| position := at_fetch video_id evt; registered := reg |} w = (t', w') /\
       position t' = done r /\ status r = 200 /\
       json r = body_comments video_id [] (Some warning)).
Proof.
  intros Hvalid. split.
  - intros schedule reg w Hlen.
    destruct (serve_ends answers_200 answers_200_kept schedule
                {| position := at_start video_url_or_id; registered := reg |} w)
      as (r & t' & w' & Hs & Hp & Hr).
    + unfold CommentsProps.answers_200. tidy. rewrite Hvalid. discriminate.
    + tidy. exact Hlen.
    + exists r, t', w'. auto.
  - intros i others schedule evt reg w e He Hlen. cbn [CommentsProps.serve].
    destruct (answers_warning_raised video_id evt reg i (others w) e He) as [Hw Hrank].
    destruct (Comments.step unicode_alnum i _ (others w)) as [t1 w1].
    tidy.
    destruct (serve_ends (answers_warning video_id) (answers_warning_kept video_id)
                schedule t1 w1 Hw) as (r & t' & w' & Hs & Hp & Hst & warning & Hj).
    + lia.
    + exists r, t', w', warning. auto.
Qed.

(** C1, as amended. When the chain reaches a strategy that raises the
    permanent block, no later strategy is invoked and the chain returns the
    empty list; the endpoint then stores the empty list under the video id,
    in memory, where it expires [ttl] after the write as every list stored
    after a fetch does, and then in the persistent tier, and it answers 200
    with an empty comment list. *)
Theorem permanent_block_stops_chain (A : adapters) (s : strategy)
    (before after : list strategy) (video_id : pystr) (evt : nat) (reg : bool)
    (i1 i2 i3 : input) (w1 w2 w3 : world) :
  blocked_at A s before after ->
  fetched i1 = Return (comments (_fetch_comments_resilient A)) ->
  let t1 := fst (step i1 {| position := at_fetch video_id evt; registered := reg |} w1) in
  let t2 := fst (step i2 t1 w2) in
  let w2' := snd (step i2 t1 w2) in
  let t3 := fst (step i3 t2 w3) in
  let w3' := snd (step i3 t2 w3) in
  invoked (_fetch_comments_resilient A) = before ++ [s] /\
  snd (step i1 {| position := at_fetch video_id evt; registered := reg |} w1) = w1 /\
  entries (comment_cache w2') !! video_id = Some ([], now i2 + ttl (comment_cache w2)) /\
  (forall cs,
     entries (comment_cache
                (snd (step i2 {| position := at_store_memory video_id evt cs;
                                 registered := reg |} w2))) !! video_id
     = Some (cs, now i2 + ttl (comment_cache w2))) /\
  comment_db w3' !! video_id = Some [] /\
  exists r warning,
    position t3 = at_finally_set video_id evt r /\ status r = 200 /\
    json r = body_comments video_id [] warning.
Proof.
  intros Hblocked Hfetched t1 t2 w2' t3 w3'.
  pose proof (resilient_blocked A s before after Hblocked) as HR.
  rewrite HR in Hfetched. cbn [comments] in Hfetched.
  subst t1 t2 w2' t3 w3'. unfold Comments.step. tidy. rewrite Hfetched. tidy.
  rewrite HR. cbn [invoked].
  split; [reflexivity|]. split; [reflexivity|].
  split; [apply lookup_insert_eq|]. split; [intros cs; apply lookup_insert_eq|].
  split; [apply lookup_insert_eq|].
  exists (ok_comments video_id []), None. auto.
Qed.

End Endpoint.

(** A request with a valid id always gets its 200. *)
Lemma comments_always_200_witness :
  VideoId.extract_video_id sample_table (py "https://youtu.be/dQw4w9WgXcQ") = Some sample_id /\
  forall schedule reg w,
    (9 <= length schedule)%nat ->
    exists r t' w',
      serve sample_table schedule
            {| position := at_start (py "https://youtu.be/dQw4w9WgXcQ"); registered := reg |} w
        = (t', w') /\
      position t' = done r /\ status r = 200.
Proof.
  split; [reflexivity|].
  apply (comments_always_200 sample_table (py "https://youtu.be/dQw4w9WgXcQ") sample_id).
  reflexivity.
Defined.

(** C1, as stated, fails: yt-dlp raises the block after two empty
    downloader attempts; the empty list is cached for the whole
    [COMMENT_CACHE_TTL], two hours here, and not for less. *)
Lemma permanent_block_ttl_is_not_shorter :
  ~ permanent_block_short_ttl sample_table challenged
      [downloader_no_proxy; downloader_with_proxy] yt_dlp_no_proxy
      sample_id 1000 (empty_world (seconds 7200)).
Proof.
  unfold permanent_block_short_ttl.
  cbn [CommentsProps.serve untouched].
  unfold Comments.step. cbn -[lookup insert].
  intros (_ & (expires & Hentry & Hshort) & _).
  rewrite lookup_insert_eq in Hentry. inversion Hentry; subst. unfold seconds in Hshort. lia.
Qed.

(** In that run the response has no warning either. *)
Example permanent_block_run :
  let '(t', _) :=
    serve sample_table
      [(at_clock 1000 challenged, untouched); (at_clock 1000 challenged, untouched);
       (at_clock 1000 challenged, untouched)]
      {| position := at_fetch sample_id 0; registered := true |}
      (empty_world (seconds 7200)) in
  invoked (_fetch_comments_resilient challenged)
    = [downloader_no_proxy; downloader_with_proxy; yt_dlp_no_proxy] /\
  answer (position t') = Some (respond 200 (body_comments sample_id [] None)).
Proof. split; reflexivity. Qed.

(** The block raised by the third strategy ends the chain there. *)
Lemma permanent_block_stops_chain_witness :
  blocked_at challenged yt_dlp_no_proxy [downloader_no_proxy; downloader_with_proxy]
             [yt_dlp_with_proxy] /\
  invoked (_fetch_comments_resilient challenged)
    = [downloader_no_proxy; downloader_with_proxy] ++ [yt_dlp_no_proxy].
Proof.
  assert (H : blocked_at challenged yt_dlp_no_proxy
                [downloader_no_proxy; downloader_with_proxy] [yt_dlp_with_proxy]).
  { split; [reflexivity|]. split; [reflexivity|].
    repeat constructor; try discriminate; intros c cs; discriminate. }
  split; [exact H|].
  exact (proj1 (permanent_block_stops_chain sample_table challenged yt_dlp_no_proxy
                  [downloader_no_proxy; downloader_with_proxy] [yt_dlp_with_proxy]
                  sample_id 0 true (at_clock 1000 challenged) (at_clock 1000 challenged)
                  (at_clock 1000 challenged)
                  (empty_world (seconds 7200)) (empty_world (seconds 7200))
                  (empty_world (seconds 7200)) H eq_refl)).
Defined.

End CommentsSpec.

(** ** The transcript endpoint *)

Module TranscriptSpec.
Import Cache Transcript Samples TranscriptProps.

Ltac tidy :=
  cbn [fst snd Transcript.position Transcript.query Transcript.moves
       status json max_age respond new_event Transcript.now Transcript.fetched] in *.

Section Endpoint.

Variable unicode_alnum : N -> bool.

Local Abbreviation step := (Transcript.step unicode_alnum).


(** C4. When [get_transcript] has exhausted its strategies, it reaches
    [raise NoTranscriptFound], which ends in [TypeError]: the endpoint does
    not enter its handler of [NoTranscriptFound]; it answers 500 and writes
    to neither tier, so no marker is stored under the cache key, whatever
    the other requests do to the globals between its steps. *)
Theorem exhaustion_stores_no_marker (T CD N : Z) (E : Orchestrator.env) (ps : ProxyPool.pool)
    (q : params) (video_id cache_key : pystr) (leader : bool) (attempts : Z)
    (i1 i2 : input) (w1 w2 : world) :
  OrchestratorProps.strategies_exhausted T CD N E ps ->
  fetched i1 = Orchestrator.result (Orchestrator.get_transcript T CD N E ps) ->
  let t1 := fst (step i1 {| query := q;
                            position := at_fetch video_id cache_key leader attempts |} w1) in
  let w1' := snd (step i1 {| query := q;
                             position := at_fetch video_id cache_key leader attempts |} w1) in
  let t2 := fst (step i2 t1 w2) in
  let w2' := snd (step i2 t1 w2) in
  fetched i1 = Raise OtherException /\
  position t1 = at_finally cache_key leader fetch_failed /\
  w1' = w1 /\
  position t2 = done fetch_failed /\
  status fetch_failed = 500 /\
  transcript_cache w2' = transcript_cache w2 /\
  transcript_db w2' = transcript_db w2 /\
  transcript_writes w2' = transcript_writes w2.
Proof.
  intros Hexhausted Hf t1 w1' t2 w2'. subst t1 w1' t2 w2'.
  rewrite (OrchestratorSpec.exhausted_raises T CD N E ps Hexhausted) in Hf.
  unfold Transcript.step. tidy. rewrite Hf. tidy.
  split; [reflexivity|]. split; [reflexivity|]. split; [reflexivity|].
  destruct leader; [|repeat split; reflexivity].
  destruct (transcript_inflight_events w2 !! cache_key); tidy; repeat split; reflexivity.
Qed.

(** The handler of [NoTranscriptFound] as it is written: entered with the
    cache key absent from the memory tier, it stores the marker
    ["__NOT_AVAILABLE__"] under the cache key in memory, where it expires
    [ttl] after the write as a payload stored at that time does, and then
    in the persistent tier, where nothing expires; the answer is a 404 with
    [max-age=600]. *)
Lemma marker_handler_lifetime (q : params) (video_id cache_key : pystr) (leader : bool)
    (attempts : Z) (i1 i2 i3 : input) (w1 w2 w3 : world) :
  fetched i1 = Raise NoTranscriptFound ->
  cache_contains (now i2) (transcript_cache w2) cache_key = false ->
  let t1 := fst (step i1 {| query := q;
                            position := at_fetch video_id cache_key leader attempts |} w1) in
  let t2 := fst (step i2 t1 w2) in
  let w2' := snd (step i2 t1 w2) in
  let t3 := fst (step i3 t2 w3) in
  let w3' := snd (step i3 t2 w3) in
  entries (transcript_cache w2') !! cache_key
    = Some (cached_str NOT_AVAILABLE, now i2 + ttl (transcript_cache w2)) /\
  (forall payload,
     entries (transcript_cache
                (snd (step i2 {| query := q;
                                 position := at_store_memory video_id cache_key leader payload |}
                           w2))) !! cache_key
     = Some (cached_payload payload, now i2 + ttl (transcript_cache w2))) /\
  transcript_db w3' !! cache_key = Some (cached_str NOT_AVAILABLE) /\
  transcript_writes w2' = transcript_writes w2 ++ [wrote memory cache_key (cached_str NOT_AVAILABLE)] /\
  transcript_writes w3' = transcript_writes w3 ++ [wrote persistent cache_key (cached_str NOT_AVAILABLE)] /\
  position t3 = at_finally cache_key leader not_available_short /\
  status not_available_short = 404 /\ max_age not_available_short = Some 600.
Proof.
  intros Hf Habsent t1 t2 w2' t3 w3'. subst t1 t2 w2' t3 w3'.
  unfold Transcript.step. tidy. rewrite Hf. tidy. rewrite Habsent. tidy.
  split; [apply lookup_insert_eq|]. split; [intros payload; apply lookup_insert_eq|].
  split; [apply lookup_insert_eq|]. repeat split; reflexivity.
Qed.

(** C10. When the fetch ends in [NoTranscriptFound] while the memory tier
    holds a value under the cache key, the endpoint writes nothing: the
    step that would store the marker leaves the globals as they are, and
    the last step leaves both tiers as they are; the answer is the 404. The
    marker is written only when the key is absent from the memory tier. *)
Theorem negative_marker_kept_out (q : params) (video_id cache_key : pystr) (leader : bool)
    (attempts : Z) (held : cached_value) (i1 i2 i3 : input) (w1 w2 w3 : world) :
  fetched i1 = Raise NoTranscriptFound ->
  cache_get (now i2) (transcript_cache w2) cache_key = Some held ->
  let t1 := fst (step i1 {| query := q;
                            position := at_fetch video_id cache_key leader attempts |} w1) in
  let t2 := fst (step i2 t1 w2) in
  let w2' := snd (step i2 t1 w2) in
  let t3 := fst (step i3 t2 w3) in
  let w3' := snd (step i3 t2 w3) in
  snd (step i1 {| query := q;
                  position := at_fetch video_id cache_key leader attempts |} w1) = w1 /\
  w2' = w2 /\
  (transcript_cache w3' = transcript_cache w3 /\ transcript_db w3' = transcript_db w3 /\
   transcript_writes w3' = transcript_writes w3) /\
  position t3 = done not_available_short /\
  (forall w, snd (step i2 t1 w) <> w ->
             cache_contains (now i2) (transcript_cache w) cache_key = false).
Proof.
  intros Hf Hheld t1 t2 w2' t3 w3'. subst t1 t2 w2' t3 w3'.
  unfold Transcript.step. tidy. rewrite Hf. tidy.
  unfold cache_contains. rewrite Hheld. tidy.
  split; [reflexivity|]. split; [reflexivity|]. split; [|split].
  - destruct leader; [|auto].
    destruct (transcript_inflight_events w3 !! cache_key); tidy; auto.
  - destruct leader; [|reflexivity].
    destruct (transcript_inflight_events w3 !! cache_key); reflexivity.
  - intros w Hw. destruct (cache_get (now i2) (transcript_cache w) cache_key);
      [exfalso; apply Hw; reflexivity|reflexivity].
Qed.

End Endpoint.

(** The steps of the negative path, one by one. *)
Lemma step_not_found unicode_alnum i q video_id cache_key leader attempts w :
  fetched i = Raise NoTranscriptFound ->
  Transcript.step unicode_alnum i
    {| query := q; position := at_fetch video_id cache_key leader attempts |} w
  = ({| query := q; position := at_negative cache_key leader |}, w).
Proof. intros H. unfold Transcript.step. tidy. rewrite H. reflexivity. Qed.

Lemma step_negative_absent unicode_alnum i q cache_key leader w :
  cache_contains (now i) (transcript_cache w) cache_key = false ->
  Transcript.step unicode_alnum i {| query := q; position := at_negative cache_key leader |} w
  = ({| query := q; position := at_negative_persistent cache_key leader |},
     write_memory (now i) cache_key (cached_str NOT_AVAILABLE) w).
Proof. intros H. unfold Transcript.step. tidy. rewrite H. reflexivity. Qed.

Lemma step_negative_persistent unicode_alnum i q cache_key leader w :
  Transcript.step unicode_alnum i
    {| query := q; position := at_negative_persistent cache_key leader |} w
  = ({| query := q; position := at_finally cache_key leader not_available_short |},
     write_persistent cache_key (cached_str NOT_AVAILABLE) w).
Proof. reflexivity. Qed.

(** The steps after a fetch that raised [TypeError]. *)
Lemma step_fetch_failed unicode_alnum i q video_id cache_key leader attempts w :
  fetched i = Raise OtherException ->
  Transcript.step unicode_alnum i
    {| query := q; position := at_fetch video_id cache_key leader attempts |} w
  = ({| query := q; position := at_finally cache_key leader fetch_failed |}, w).
Proof. intros H. unfold Transcript.step. tidy. rewrite H. reflexivity. Qed.

Lemma step_finally_idle unicode_alnum i q cache_key leader r w :
  transcript_inflight_events w !! cache_key = None ->
  Transcript.step unicode_alnum i {| query := q; position := at_finally cache_key leader r |} w
  = ({| query := q; position := done r |}, w).
Proof. intros H. unfold Transcript.step. tidy. rewrite H. destruct leader; reflexivity. Qed.

Lemma step_done unicode_alnum i q r w :
  Transcript.step unicode_alnum i {| query := q; position := done r |} w
  = ({| query := q; position := done r |}, w).
Proof. reflexivity. Qed.

Lemma empty_world_contains now cache_ttl k :
  cache_contains now (transcript_cache (empty_world cache_ttl)) k = false.
Proof.
  unfold cache_contains, cache_get. cbn [empty_world transcript_cache entries].
  rewrite lookup_empty. reflexivity.
Qed.

Lemma exhausted_env_exhausted :
  OrchestratorProps.strategies_exhausted 2 (seconds 300) 2 exhausted_env [].
Proof.
  split.
  - right. split; [reflexivity|]. left. reflexivity.
  - intros f t _ [txt Htxt]. destruct f; discriminate.
Defined.

(** With a cold cache, no provider, nothing from the primary adapter and
    from timedtext and an error of yt-dlp, the answer is the 500 and the
    memory tier stays empty. *)
Lemma exhaustion_stores_no_marker_witness :
  OrchestratorProps.strategies_exhausted 2 (seconds 300) 2 exhausted_env [] /\
  let fetch :=
    gives 1000 (Orchestrator.result
                  (Orchestrator.get_transcript 2 (seconds 300) 2 exhausted_env [])) in
  let t1 := fst (Transcript.step sample_table fetch
                   {| query := sample_query; position := at_fetch sample_id sample_id true 0 |}
                   (empty_world (seconds 7200))) in
  position (fst (Transcript.step sample_table fetch t1 (empty_world (seconds 7200))))
    = done fetch_failed /\
  transcript_cache (snd (Transcript.step sample_table fetch t1 (empty_world (seconds 7200))))
    = transcript_cache (empty_world (seconds 7200)).
Proof.
  split; [exact exhausted_env_exhausted|].
  intros fetch t1.
  destruct (exhaustion_stores_no_marker sample_table 2 (seconds 300) 2 exhausted_env []
              sample_query sample_id sample_id true 0 fetch fetch
              (empty_world (seconds 7200)) (empty_world (seconds 7200))
              exhausted_env_exhausted eq_refl)
    as (_ & _ & _ & Hdone & _ & Hcache & _).
  split; [exact Hdone|exact Hcache].
Defined.

(** C4, as stated, fails: the request whose call of [get_transcript]
    exhausts every strategy at clock reading 1000, on a cold cache, leaves
    no marker in the memory tier. *)
Lemma exhausted_request_stores_nothing :
  ~ marker_short_ttl sample_table 2 (seconds 300) 2 exhausted_env []
      sample_query sample_id sample_id 1000 (empty_world (seconds 7200)).
Proof.
  unfold marker_short_ttl. cbn [serve]. unfold untouched.
  rewrite step_fetch_failed by reflexivity. cbv beta iota zeta.
  rewrite step_finally_idle by apply lookup_empty. cbv beta iota zeta.
  rewrite step_done. cbv beta iota zeta.
  intros (expires & Hentry & _).
  cbn [empty_world transcript_cache entries] in Hentry.
  rewrite lookup_empty in Hentry. discriminate.
Qed.

(** With a value held in memory the marker is not stored. *)
Lemma negative_marker_kept_out_witness :
  cache_get 1000 (transcript_cache holding_world) sample_id = Some cached_other /\
  snd (Transcript.step sample_table (gives 1000 (Raise NoTranscriptFound))
         (fst (Transcript.step sample_table (gives 1000 (Raise NoTranscriptFound))
                 {| query := sample_query; position := at_fetch sample_id sample_id true 0 |}
                 holding_world))
         holding_world) = holding_world.
Proof.
  assert (H : cache_get 1000 (transcript_cache holding_world) sample_id = Some cached_other)
    by reflexivity.
  split; [exact H|].
  exact (proj1 (proj2 (negative_marker_kept_out sample_table sample_query sample_id sample_id
                         true 0 cached_other
                         (gives 1000 (Raise NoTranscriptFound))
                         (gives 1000 (Raise NoTranscriptFound))
                         (gives 1000 (Raise NoTranscriptFound))
                         holding_world holding_world holding_world eq_refl H))).
Defined.

End TranscriptSpec.

(** ** The order of the cache writes *)

Module WritePolicySpec.
Import Cache.




End WritePolicySpec.

(** ** Single flight *)

Module SingleFlightSpec.
Import Cache SingleFlight SingleFlightProps.

Section Ownership.

Context {request world input : Type}.
Variable step : input -> request -> world -> request * world.
Variable table : world -> gmap pystr nat.
Variable owns : request -> pystr -> nat -> Prop.
Variable sane : request -> Prop.
Variable valid : world -> pystr -> nat -> Prop.
Variable fresh : world -> pystr -> nat -> Prop.

Hypothesis fresh_not_valid : forall w k v, valid w k v -> fresh w k v -> False.
Hypothesis respects : step_respects step table owns sane valid fresh.

Local Abbreviation coordinated := (coordinated table owns sane valid).

Lemma coordinated_step n i (s : @system request world) :
  coordinated s -> coordinated (system_step step n i s).
Proof.
  intros (K1 & K2 & K3 & K4). unfold system_step.
  destruct (requests s !! n) as [t|] eqn:Ht; [|repeat split; assumption].
  destruct (respects i t (shared s) (K4 n t Ht)) as (S & E1 & E2 & E3).
  destruct (step i t (shared s)) as [t' w'] eqn:Hs. cbn [fst snd] in *.
  assert (Hn : (n < length (requests s))%nat) by (eapply lookup_lt_Some; eauto).
  assert (Lk : forall m x, <[n:=t']> (requests s) !! m = Some x ->
                 (m = n /\ x = t') \/ (m <> n /\ requests s !! m = Some x)).
  { intros m x Hm. destruct (decide (m = n)) as [->|Hne].
    - rewrite list_lookup_insert_eq in Hm by exact Hn. left. split; congruence.
    - rewrite list_lookup_insert_ne in Hm by congruence. right. auto. }
  split; [|split; [|split]].
  - intros k v Hkv. cbn [shared requests] in *.
    destruct (E1 k v Hkv) as [Ho | [Hold Hkeep]].
    + exists n, t'. split; [apply list_lookup_insert_eq; exact Hn | exact Ho].
    + destruct (K1 k v Hold) as (m & x & Hm & Hx). destruct (decide (m = n)) as [->|Hne].
      * exists n, t'. split; [apply list_lookup_insert_eq; exact Hn|].
        assert (x = t) by congruence. subst. auto.
      * exists m, x. split; [rewrite list_lookup_insert_ne by congruence; exact Hm | exact Hx].
  - intros a b x y k v Ha Hb Hx Hy. cbn [shared requests] in *.
    destruct (Lk a x Ha) as [[-> ->]|[Hane Ha']];
      destruct (Lk b y Hb) as [[-> ->]|[Hbne Hb']]; auto.
    + exfalso. destruct (E2 k v Hx) as [Hold | [Hfresh _]].
      * apply Hbne. symmetry. eapply K2; eauto.
      * eapply fresh_not_valid; [eapply K3; eauto | eauto].
    + exfalso. destruct (E2 k v Hy) as [Hold | [Hfresh _]].
      * apply Hane. eapply K2; eauto.
      * eapply fresh_not_valid; [eapply K3; eauto | eauto].
    + eapply K2; eauto.
  - intros a x k v Ha Hx. cbn [shared requests] in *.
    destruct (Lk a x Ha) as [[-> ->]|[Hane Ha']].
    + destruct (E2 k v Hx) as [Hold | [_ Hv]]; [|exact Hv].
      destruct (E3 k v (K3 n t k v Ht Hold)) as [Hv | [_ Hnot]]; [exact Hv | contradiction].
    + destruct (E3 k v (K3 a x k v Ha' Hx)) as [Hv | [Hold _]]; [exact Hv|].
      exfalso. apply Hane. eapply K2; eauto.
  - intros a x Ha. cbn [shared requests] in *.
    destruct (Lk a x Ha) as [[-> ->]|[_ Ha']]; [exact S | eapply K4; eauto].
Qed.

Lemma coordinated_reachable (initial : @system request world -> Prop) :
  (forall s, initial s -> coordinated s) ->
  forall s, reachable step initial s -> coordinated s.
Proof.
  intros Hinit s Hr. induction Hr as [s Hs | s n i Hr IH].
  - apply Hinit, Hs.
  - apply coordinated_step, IH.
Qed.

Lemma run_reachable (initial : @system request world -> Prop) schedule :
  forall s, reachable step initial s -> reachable step initial (run step schedule s).
Proof.
  induction schedule as [|[n i] rest IH]; intros s Hs; [exact Hs|].
  cbn [run fold_left]. apply IH. apply reachable_step. exact Hs.
Qed.

End Ownership.

(** *** The transcript endpoint *)

Section TranscriptFlight.

Import Transcript.

Variable unicode_alnum : N -> bool.

Local Abbreviation tstep := (Transcript.step unicode_alnum).
Local Abbreviation inflight := Transcript.transcript_inflight_events.

Lemma serve_keeps_inflight now video_id cache_key q cached w :
  inflight (snd (serve now video_id cache_key q cached w)) = inflight w.
Proof.
  unfold serve. destruct cached as [v|]; [|reflexivity].
  destruct (is_marker v); [reflexivity|].
  destruct (ensure_payload v (languages q)); reflexivity.
Qed.

Lemma or_else_keeps_inflight first next w0 :
  inflight (snd first) = inflight w0 ->
  (forall w, inflight (snd (next w)) = inflight w) ->
  inflight (snd (or_else first next)) = inflight w0.
Proof.
  intros Hf Hn. unfold or_else. destruct first as [[r|] w]; cbn [snd] in *; [exact Hf|].
  rewrite Hn. exact Hf.
Qed.

Lemma lookup_first_keeps_inflight now video_id cache_key q w :
  inflight (snd (lookup_first now video_id cache_key q w)) = inflight w.
Proof.
  unfold lookup_first.
  apply or_else_keeps_inflight; [apply serve_keeps_inflight|]. intros w1.
  apply or_else_keeps_inflight; [apply serve_keeps_inflight|]. intros w2.
  destruct (legacy_allowed q); [apply serve_keeps_inflight|reflexivity].
Qed.

Lemma lookup_after_wait_keeps_inflight now video_id cache_key q w :
  inflight (snd (lookup_after_wait now video_id cache_key q w)) = inflight w.
Proof.
  unfold lookup_after_wait.
  apply or_else_keeps_inflight; [apply serve_keeps_inflight|]. intros w1.
  apply serve_keeps_inflight.
Qed.

(** A step leaves the map and the leadership of the request as they are,
    or registers the request as leader under a key that had no entry, or
    ends its leadership and removes the entry of its key. *)
Lemma transcript_step_effect i t w :
  let t' := fst (tstep i t w) in
  let w' := snd (tstep i t w) in
  (leading t' = leading t /\ inflight w' = inflight w) \/
  (exists k e, leading t = None /\ inflight w !! k = None /\
               leading t' = Some k /\ inflight w' = <[k := e]> (inflight w)) \/
  (exists k, leading t = Some k /\ leading t' = None /\
             inflight w' = delete k (inflight w)).
Proof.
  unfold Transcript.step, leading. destruct (position t) eqn:Hp; cbn [fst snd].
  - left. destruct (videoId (query t)); [cbn [fst snd position moves]; auto|].
    destruct (VideoId.extract_video_id _ _) as [vid|]; [|cbn [fst snd position moves]; auto].
    pose proof (lookup_first_keeps_inflight (now i) vid (cache_key_of vid (query t))
                  (query t) w) as Hk.
    destruct (lookup_first _ _ _ _ _) as [[r|] w']; cbn [fst snd position moves] in *; auto.
  - destruct (inflight w !! cache_key) as [evt|] eqn:He.
    + left. cbn [fst snd position moves]. auto.
    + right. left. exists cache_key, (length (transcript_events w)).
      cbn [fst snd position moves new_event set_inflight transcript_inflight_events]. auto.
  - left. cbn [fst snd position moves]. auto.
  - left.
    pose proof (lookup_after_wait_keeps_inflight (now i) video_id cache_key (query t) w) as Hk.
    destruct (lookup_after_wait _ _ _ _ _) as [[r|] w']; cbn [fst snd position moves] in *; auto.
  - left. destruct (fetched i) as [payload|[]]; cbn [fst snd position moves]; auto.
    destruct (attempts + 1 <? 2); cbn [fst snd position moves]; auto.
  - left. cbn [fst snd position moves]. auto.
  - left. cbn [fst snd position moves]. auto.
  - left. destruct (cache_contains _ _ _); cbn [fst snd position moves]; auto.
  - left. cbn [fst snd position moves]. auto.
  - destruct leader.
    + right. right. exists cache_key.
      destruct (inflight w !! cache_key) as [evt|] eqn:He;
        cbn [fst snd position moves set_inflight transcript_inflight_events]; auto.
      repeat split. symmetry. apply delete_id. exact He.
    + left. cbn [fst snd position moves]. auto.
  - left. cbn [fst snd]. rewrite Hp. auto.
Qed.

Lemma entry_absent_not_present w k v : entry_present w k v -> entry_absent w k v -> False.
Proof. unfold entry_present, entry_absent. intros [e He] Hn. congruence. Qed.

Lemma transcript_step_respects :
  step_respects tstep inflight leads (fun _ => True) entry_present entry_absent.
Proof.
  intros i t w _ t' w'. subst t' w'. unfold leads, entry_present, entry_absent.
  destruct (transcript_step_effect i t w)
    as [[Hl Hw] | [(k & e & Hl & Hnone & Hl' & Hw) | (k & Hl & Hl' & Hw)]];
    rewrite ?Hw, ?Hl'; (split; [exact I|]); split; [|split| |split| |split].
  - intros k v Hkv. right. rewrite Hl. auto.
  - intros k v Hk. left. rewrite <- Hl. exact Hk.
  - intros k v Hk. left. exact Hk.
  - intros k' v Hkv. destruct (decide (k' = k)) as [->|Hne]; [left; reflexivity|].
    right. rewrite lookup_insert_ne in Hkv by congruence. split; [exact Hkv|].
    rewrite Hl. discriminate.
  - intros k' v Hk. right. inversion Hk; subst. split; [exact Hnone|].
    rewrite lookup_insert_eq. eauto.
  - intros k' v Hk. left. destruct (decide (k' = k)) as [->|Hne].
    + rewrite lookup_insert_eq. eauto.
    + rewrite lookup_insert_ne by congruence. exact Hk.
  - intros k' v Hkv. right. apply lookup_delete_Some in Hkv as [Hne Hkv].
    split; [exact Hkv|]. rewrite Hl. intros Heq. inversion Heq; subst. contradiction.
  - intros k' v Hk. discriminate.
  - intros k' v Hk. destruct (decide (k' = k)) as [->|Hne].
    + right. split; [exact Hl|discriminate].
    + left. rewrite lookup_delete_ne by congruence. exact Hk.
Qed.

Lemma transcript_initial_coordinated s :
  transcript_initial s ->
  coordinated inflight leads (fun _ => True) entry_present s.
Proof.
  intros (Hmap & _ & Hstart). split; [|split; [|split]].
  - intros k v Hkv. rewrite Hmap in Hkv. rewrite lookup_empty in Hkv. discriminate.
  - intros n m t t' k v Hn _ Ht _. exfalso.
    rewrite List.Forall_forall in Hstart.
    assert (Hin : In t (requests s))
      by (apply list_elem_of_In; eapply list_elem_of_lookup_2; eauto).
    specialize (Hstart t Hin). unfold leads, leading in Ht. rewrite Hstart in Ht. discriminate.
  - intros n t k v Hn Ht. exfalso.
    rewrite List.Forall_forall in Hstart.
    assert (Hin : In t (requests s))
      by (apply list_elem_of_In; eapply list_elem_of_lookup_2; eauto).
    specialize (Hstart t Hin). unfold leads, leading in Ht. rewrite Hstart in Ht. discriminate.
  - intros n t _. exact I.
Qed.

End TranscriptFlight.

(** *** The comment endpoint *)

Section CommentFlight.

Import Comments.

Variable unicode_alnum : N -> bool.

Local Abbreviation cstep := (Comments.step unicode_alnum).
Local Abbreviation registry := Comments.comment_inflight_events.
Local Abbreviation created w := (length (Comments.comment_events w)).

Lemma try_serve_keeps_inflight now video_id w :
  registry (snd (_try_serve_from_cache now video_id w)) = registry w /\
  comment_events (snd (_try_serve_from_cache now video_id w)) = comment_events w.
Proof.
  unfold _try_serve_from_cache. destruct (cache_get now (comment_cache w) video_id); [auto|].
  destruct (comment_db w !! video_id); auto.
Qed.

Lemma event_set_length e (es : events) : length (event_set e es) = length es.
Proof. apply length_insert. Qed.

Ltac settle :=
  cbn [fst snd position registered moves held set_inflight comment_inflight_events
       comment_events write_memory write_persistent log_write set_cache set_db new_event].

(** A step leaves the map and what the request has registered as they
    are, or registers a new event under a key that had no entry, or is the
    last step of the request, which removes at most its own entry. *)
Lemma comments_step_effect i t w :
  unregistered_before_election t ->
  let t' := fst (cstep i t w) in
  let w' := snd (cstep i t w) in
  unregistered_before_election t' /\
  ((held t' = held t /\ registry w' = registry w /\ (created w <= created w')%nat) \/
   (exists k, held t = None /\ registry w !! k = None /\
              held t' = Some (k, created w) /\
              registry w' = <[k := created w]> (registry w) /\
              created w' = S (created w)) \/
   (held t' = None /\ created w' = created w /\
    forall k v, registry w' !! k = Some v ->
                registry w !! k = Some v /\ held t <> Some (k, v))).
Proof.
  unfold Comments.step, unregistered_before_election, held.
  destruct t as [p reg]. cbn [position registered]. intros Hsane.
  destruct p; settle.
  - subst reg. destruct video_url_or_id; settle; [split; [exact I|left; auto]|].
    destruct (VideoId.extract_video_id _ _) as [vid|]; settle; [|split; [exact I|left; auto]].
    destruct (try_serve_keeps_inflight (now i) vid w) as [Hm He].
    destruct (_try_serve_from_cache _ _ _) as [[r|] w']; settle; cbn [snd] in *;
      rewrite Hm, He; (split; [auto|left; auto]).
  - subst reg. destruct (registry w !! video_id) as [evt|] eqn:He; settle.
    + split; [reflexivity|left; auto].
    + split; [exact I|]. right. left. exists video_id. repeat split; auto.
      rewrite length_app. cbn [length]. lia.
  - subst reg. destruct (event_is_set _ _); settle; (split; [auto|left; auto]).
  - subst reg. destruct (try_serve_keeps_inflight (now i) video_id w) as [Hm He].
    destruct (_try_serve_from_cache _ _ _) as [[r|] w']; settle; cbn [snd] in *;
      rewrite Hm, He; (split; [auto|left; auto]).
  - split; [destruct (fetched i) as [cs|[]]; settle; exact I|].
    left. destruct (fetched i) as [cs|[]]; settle; auto.
  - split; [exact I|]. left. auto.
  - split; [exact I|]. left. auto.
  - split; [exact I|]. left. auto.
  - split; [exact I|]. left. auto.
  - split; [exact I|]. left. rewrite event_set_length. auto.
  - split; [destruct (registry w !! video_id) as [e|]; settle;
            [destruct (Nat.eqb e evt)|]; settle; exact I|].
    right. right.
    destruct (registry w !! video_id) as [e|] eqn:He; settle.
    + destruct (Nat.eqb_spec e evt) as [->|Hne]; settle.
      * split; [destruct reg; reflexivity|]. split; [reflexivity|].
        intros k v Hkv. apply lookup_delete_Some in Hkv as [Hk Hkv].
        split; [exact Hkv|]. destruct reg; [|discriminate]. congruence.
      * split; [destruct reg; reflexivity|]. split; [reflexivity|].
        intros k v Hkv. split; [exact Hkv|]. destruct reg; [|discriminate].
        intros Heq. inversion Heq; subst. congruence.
    + split; [destruct reg; reflexivity|]. split; [reflexivity|].
      intros k v Hkv. split; [exact Hkv|]. destruct reg; [|discriminate].
      intros Heq. inversion Heq; subst. congruence.
  - split; [exact I|]. left. auto.
Qed.

Lemma event_next_not_exists w k v : event_exists w k v -> event_next w k v -> False.
Proof. unfold event_exists, event_next. lia. Qed.

Lemma comments_step_respects :
  step_respects cstep registry holds unregistered_before_election event_exists event_next.
Proof.
  intros i t w Hsane t' w'. subst t' w'. unfold holds, event_exists, event_next.
  destruct (comments_step_effect i t w Hsane)
    as [Hsane' [(Hh & Hw & Hlen) | [(k & Hh & Hnone & Hh' & Hw & Hlen) | (Hh' & Hlen & Hsub)]]];
    (split; [exact Hsane'|]); split; [|split| |split| |split].
  - intros k v Hkv. right. rewrite Hw in Hkv. rewrite Hh. auto.
  - intros k v Hk. left. rewrite <- Hh. exact Hk.
  - intros k v Hk. left. lia.
  - intros k' v Hkv. rewrite Hw in Hkv. destruct (decide (k' = k)) as [->|Hne].
    + left. rewrite lookup_insert_eq in Hkv. inversion Hkv; subst. exact Hh'.
    + right. rewrite lookup_insert_ne in Hkv by congruence. split; [exact Hkv|].
      rewrite Hh. discriminate.
  - intros k' v Hk. right. rewrite Hh' in Hk. inversion Hk; subst. split; [reflexivity|lia].
  - intros k' v Hk. left. lia.
  - intros k v Hkv. right. destruct (Hsub k v Hkv) as [Hold Hnot].
    split; [exact Hold|]. intros Hown. contradiction.
  - intros k v Hk. rewrite Hh' in Hk. discriminate.
  - intros k v Hk. left. lia.
Qed.

Lemma comments_initial_coordinated s :
  comments_initial s ->
  coordinated registry holds unregistered_before_election event_exists s.
Proof.
  intros (Hmap & _ & Hstart). rewrite List.Forall_forall in Hstart.
  assert (Hat : forall n t, requests s !! n = Some t ->
                  exists raw, t = {| position := at_start raw; registered := false |}).
  { intros n t Hn. apply Hstart. apply list_elem_of_In. eapply list_elem_of_lookup_2; eauto. }
  split; [|split; [|split]].
  - intros k v Hkv. rewrite Hmap in Hkv. rewrite lookup_empty in Hkv. discriminate.
  - intros n m t t' k v Hn _ Ht _. destruct (Hat n t Hn) as [raw ->]. discriminate.
  - intros n t k v Hn Ht. destruct (Hat n t Hn) as [raw ->]. discriminate.
  - intros n t Hn. destruct (Hat n t Hn) as [raw ->]. reflexivity.
Qed.

End CommentFlight.

(** C2, as amended. In every state that the requests can reach, on the
    transcript endpoint at most one request has [leader = True] for a cache
    key and is not done, and the key has an in-flight entry exactly when
    there is such a request; on the comment endpoint every in-flight entry
    was registered by exactly one request, which is not done. (Nothing
    bounds the requests that fetch: a follower that finds no cached value
    after its wait fetches as well.) *)
Theorem one_registered_leader (unicode_alnum : N -> bool) :
  (forall s, reachable (Transcript.step unicode_alnum) transcript_initial s ->
     (forall n m t t' k,
        requests s !! n = Some t -> requests s !! m = Some t' ->
        leading t = Some k -> leading t' = Some k -> n = m) /\
     (forall k,
        is_Some (Transcript.transcript_inflight_events (shared s) !! k) <->
        exists n t, requests s !! n = Some t /\ leading t = Some k)) /\
  (forall s, reachable (Comments.step unicode_alnum) comments_initial s ->
     forall k e,
       Comments.comment_inflight_events (shared s) !! k = Some e ->
       exists n t,
         requests s !! n = Some t /\ held t = Some (k, e) /\
         forall m t', requests s !! m = Some t' -> held t' = Some (k, e) -> m = n).
Proof.
  split.
  - intros s Hr.
    destruct (coordinated_reachable (Transcript.step unicode_alnum)
                Transcript.transcript_inflight_events leads (fun _ => True)
                entry_present entry_absent
                entry_absent_not_present
                (transcript_step_respects unicode_alnum)
                transcript_initial transcript_initial_coordinated s Hr)
      as (K1 & K2 & K3 & _).
    split.
    + intros n m t t' k Hn Hm Ht Ht'. exact (K2 n m t t' k 0%nat Hn Hm Ht Ht').
    + intros k. split.
      * intros [e He]. exact (K1 k e He).
      * intros (n & t & Hn & Ht). exact (K3 n t k 0%nat Hn Ht).
  - intros s Hr k e He.
    destruct (coordinated_reachable (Comments.step unicode_alnum)
                Comments.comment_inflight_events holds unregistered_before_election
                event_exists event_next
                event_next_not_exists
                (comments_step_respects unicode_alnum)
                comments_initial comments_initial_coordinated s Hr)
      as (K1 & K2 & _ & _).
    destruct (K1 k e He) as (n & t & Hn & Ht).
    exists n, t. split; [exact Hn|]. split; [exact Ht|].
    intros m t' Hm Ht'. exact (K2 m n t' t k e Hm Hn Ht' Ht).
Qed.

(** In the state that the three sample requests reach, the leader is the
    only request with [leader = True]. *)
Lemma one_registered_leader_witness :
  let s := run (Transcript.step Samples.sample_table) slow_leader three_requests in
  reachable (Transcript.step Samples.sample_table) transcript_initial s /\
  forall n m t t' k,
    requests s !! n = Some t -> requests s !! m = Some t' ->
    leading t = Some k -> leading t' = Some k -> n = m.
Proof.
  intros s.
  assert (Hr : reachable (Transcript.step Samples.sample_table) transcript_initial s).
  { apply run_reachable. apply reachable_initial.
    split; [reflexivity|]. split; [reflexivity|]. repeat constructor. }
  split; [exact Hr|].
  exact (proj1 (proj1 (one_registered_leader Samples.sample_table) s Hr)).
Defined.

(** C2, as stated, fails: with three requests for one video on a cold
    cache, the first becomes leader and the two others, after their wait
    has run out without a cached value, fetch as well; three requests are
    then fetching for the same key. *)
Lemma followers_fetch_too : ~ one_fetch_per_key Samples.sample_table.
Proof.
  intros H.
  specialize (H (run (Transcript.step Samples.sample_table) slow_leader three_requests)
                Samples.sample_id).
  assert (Hr : reachable (Transcript.step Samples.sample_table) transcript_initial
                 (run (Transcript.step Samples.sample_table) slow_leader three_requests)).
  { apply run_reachable. apply reachable_initial.
    split; [reflexivity|]. split; [reflexivity|]. repeat constructor. }
  specialize (H Hr). vm_compute in H. lia.
Qed.

End SingleFlightSpec.

(** ** Strings *)

Module StrSpec.
Import Transcript Str StrProps.

Lemma pystr_eqb_eq a b : pystr_eqb a b = true <-> a = b.
Proof. unfold pystr_eqb. rewrite bool_decide_eq_true. reflexivity. Qed.

Lemma pystr_eqb_refl a : pystr_eqb a a = true.
Proof. apply pystr_eqb_eq. reflexivity. Qed.

Lemma mem_In x xs : mem x xs = true <-> In x xs.
Proof.
  unfold mem. rewrite existsb_exists. split.
  - intros (y & Hy & He). apply pystr_eqb_eq in He. subst. exact Hy.
  - intros H. exists x. split; [exact H|apply pystr_eqb_refl].
Qed.

Lemma mem_not_In x xs : mem x xs = false <-> ~ In x xs.
Proof.
  rewrite <- mem_In. destruct (mem x xs); split; intros; congruence.
Qed.

Lemma truthy_true s : truthy s = true <-> s <> [].
Proof. destruct s; simpl; split; intros; congruence. Qed.

Lemma before_no_sep sep s : ~ In sep (before sep s).
Proof.
  induction s as [|c s IH]; simpl; [tauto|].
  destruct (N.eqb_spec c sep); simpl; [tauto|]. intros [?|?]; [congruence|tauto].
Qed.

Lemma strip_literal_spec lit : forall s rest,
  VideoId.strip_literal lit s = Some rest <-> s = lit ++ rest.
Proof.
  induction lit as [|a lit IH]; intros s rest; simpl.
  - split; [intros H; inversion H; reflexivity|intros ->; reflexivity].
  - destruct s as [|c s]; [split; discriminate|].
    destruct (N.eqb_spec a c) as [->|Hne].
    + rewrite IH. split; [intros ->; reflexivity|intros H; inversion H; reflexivity].
    + split; [discriminate|]. intros H; inversion H; congruence.
Qed.

Lemma contains_infix needle s :
  contains needle s = true <-> exists pre post, s = pre ++ needle ++ post.
Proof.
  induction s as [|c s IH]; simpl.
  - destruct (VideoId.strip_literal needle []) as [rest|] eqn:Hs.
    + apply strip_literal_spec in Hs. split; [|reflexivity].
      intros _. exists [], rest. exact Hs.
    + split; [discriminate|]. intros (pre & post & H).
      destruct pre; [|discriminate]. simpl in H.
      apply strip_literal_spec in H. congruence.
  - destruct (VideoId.strip_literal needle (c :: s)) as [rest|] eqn:Hs.
    + apply strip_literal_spec in Hs. split; [|reflexivity].
      intros _. exists [], rest. exact Hs.
    + rewrite IH. split.
      * intros (pre & post & ->). exists (c :: pre), post. reflexivity.
      * intros (pre & post & H). destruct pre as [|d pre].
        -- simpl in H. apply strip_literal_spec in H. congruence.
        -- inversion H; subst. exists pre, post. reflexivity.
Qed.

Lemma join_infix sep m ms :
  In m ms -> exists a b, join sep ms = a ++ m ++ b.
Proof.
  induction ms as [|x ms IH]; [intros []|].
  intros [->|Hin].
  - destruct ms as [|y ms].
    + exists [], []. simpl. rewrite app_nil_r. reflexivity.
    + exists [], (sep ++ join sep (y :: ms)). reflexivity.
  - destruct (IH Hin) as (a & b & He). destruct ms as [|y ms]; [destruct Hin|].
    exists (x ++ sep ++ a), b. change (join sep (x :: y :: ms)) with (x ++ sep ++ join sep (y :: ms)).
    rewrite He, <- !app_assoc. reflexivity.
Qed.

Lemma lstrip_split s :
  exists ws, s = ws ++ lstrip s /\ forallb py_isspace ws = true.
Proof.
  induction s as [|c s (ws & Hs & Hw)]; [exists []; auto|].
  simpl. destruct (py_isspace c) eqn:Hc.
  - exists (c :: ws). simpl. rewrite Hc, Hw. split; [congruence|reflexivity].
  - exists []. auto.
Qed.

Lemma lstrip_head s c t : lstrip s = c :: t -> py_isspace c = false.
Proof.
  induction s as [|d s IH]; simpl; [discriminate|].
  destruct (py_isspace d) eqn:Hd; [exact IH|]. intros H; inversion H; subst. exact Hd.
Qed.

Lemma lstrip_fixed s : (forall c t, s = c :: t -> py_isspace c = false) -> lstrip s = s.
Proof.
  destruct s as [|c s]; [reflexivity|]. intros H. simpl.
  rewrite (H c s eq_refl). reflexivity.
Qed.

Lemma lstrip_idem s : lstrip (lstrip s) = lstrip s.
Proof. apply lstrip_fixed. intros c t. apply lstrip_head. Qed.

Lemma strip_infix s : exists a b, s = a ++ strip s ++ b.
Proof.
  unfold strip. destruct (lstrip_split s) as (a & Ha & _).
  destruct (lstrip_split (rev (lstrip s))) as (b & Hb & _).
  exists a, (rev b). rewrite <- rev_app_distr, <- Hb, rev_involutive. exact Ha.
Qed.

Lemma strip_trimmed s : trimmed (strip s).
Proof.
  unfold trimmed, strip. rewrite rev_involutive. split; [|apply lstrip_idem].
  apply lstrip_fixed. intros c t Hc.
  destruct (lstrip_split (rev (lstrip s))) as (ws & Hs & _).
  set (u := lstrip (rev (lstrip s))) in *.
  assert (Hu : u = rev t ++ [c]).
  { rewrite <- (rev_involutive u), Hc. reflexivity. }
  apply (f_equal (@rev N)) in Hs. rewrite rev_involutive, Hu, rev_app_distr in Hs.
  rewrite rev_app_distr in Hs. simpl in Hs. apply (lstrip_head s c (rev (rev t) ++ rev ws)).
  exact Hs.
Qed.

Lemma trimmed_strip s : trimmed s -> strip s = s.
Proof. intros [H1 H2]. unfold strip. rewrite H1, H2. apply rev_involutive. Qed.

Lemma strip_idem s : strip (strip s) = strip s.
Proof. apply trimmed_strip, strip_trimmed. Qed.

Lemma contains_mono needle a s b :
  contains needle s = true -> contains needle (a ++ s ++ b) = true.
Proof.
  rewrite !contains_infix. intros (pre & post & ->).
  exists (a ++ pre), (post ++ b). rewrite <- !app_assoc. reflexivity.
Qed.

Lemma contains_strip needle s :
  contains needle (strip s) = true -> contains needle s = true.
Proof.
  intros H. destruct (strip_infix s) as (a & b & Hs). rewrite Hs.
  apply contains_mono, H.
Qed.

(** A needle that has no [sep] does not straddle a [sep]. *)
Lemma contains_across needle sep x y :
  needle <> [] -> ~ In sep needle ->
  contains needle (x ++ sep :: y) = true ->
  contains needle x = true \/ contains needle y = true.
Proof.
  intros Hne Hsep. rewrite !contains_infix. intros (pre & post & H).
  apply app_eq_app in H as (l & [[Hx Hr]|[Hp Hr]]).
  - apply app_eq_app in Hr as (l' & [[Hn Hr]|[Hl Hr]]).
    + destruct l' as [|d l'].
      * left. exists pre, []. rewrite app_nil_r in *. congruence.
      * simpl in Hr. injection Hr as Hd Hy. exfalso. apply Hsep. rewrite Hn, Hd.
        apply in_app_iff. right. left. reflexivity.
    + left. exists pre, l'. rewrite Hx, Hl. reflexivity.
  - destruct l as [|d l].
    + simpl in Hr. destruct needle as [|n needle]; [congruence|].
      injection Hr as Hd Hy. exfalso. apply Hsep. left. congruence.
    + simpl in Hr. injection Hr as Hd Hy. right. exists l, post. exact Hy.
Qed.

Lemma contains_join needle sep lines :
  needle <> [] -> ~ In sep needle ->
  contains needle (join [sep] lines) = true ->
  exists l, In l lines /\ contains needle l = true.
Proof.
  intros Hne Hsep. induction lines as [|x lines IH].
  - intros H. apply contains_infix in H as (pre & post & H).
    simpl in H. destruct pre; [|discriminate]. destruct needle; [congruence|discriminate].
  - destruct lines as [|y lines].
    + simpl. intros H. exists x. auto.
    + change (join [sep] (x :: y :: lines)) with (x ++ sep :: join [sep] (y :: lines)).
      intros H. apply contains_across in H as [H|H]; [| |assumption|assumption].
      * exists x. split; [left; reflexivity|exact H].
      * destruct (IH H) as (l & Hl & Hc). exists l. split; [right; exact Hl|exact Hc].
Qed.

Lemma lstrip_spaces l u : forallb py_isspace l = true -> lstrip (l ++ u) = lstrip u.
Proof.
  induction l as [|c l IH]; [reflexivity|]. simpl. intros H.
  apply andb_prop in H as [Hc Hl]. rewrite Hc. apply IH, Hl.
Qed.

Lemma strip_spaces l u : forallb py_isspace l = true -> strip (l ++ u) = strip u.
Proof. intros H. unfold strip. rewrite (lstrip_spaces l u H). reflexivity. Qed.

Lemma forallb_rev (f : N -> bool) l : forallb f (rev l) = forallb f l.
Proof.
  induction l as [|c l IH]; [reflexivity|]. simpl. rewrite forallb_app, IH. simpl.
  rewrite andb_true_r. apply andb_comm.
Qed.

(** A string is its stripped form between two runs of white space. *)
Lemma strip_split s :
  exists l r, s = l ++ strip s ++ r /\
              forallb py_isspace l = true /\ forallb py_isspace r = true.
Proof.
  unfold strip. destruct (lstrip_split s) as (a & Ha & Hsa).
  destruct (lstrip_split (rev (lstrip s))) as (b & Hb & Hsb).
  exists a, (rev b). split; [|split; [exact Hsa|rewrite forallb_rev; exact Hsb]].
  rewrite <- rev_app_distr, <- Hb, rev_involutive. exact Ha.
Qed.

Lemma before_app_in sep t r : In sep t -> before sep (t ++ r) = before sep t.
Proof.
  induction t as [|c t IH]; [intros []|]. simpl.
  destruct (N.eqb_spec c sep) as [->|Hne]; [reflexivity|].
  intros [?|H]; [congruence|]. rewrite (IH H). reflexivity.
Qed.

Lemma before_app_out sep t r : ~ In sep t -> before sep (t ++ r) = t ++ before sep r.
Proof.
  induction t as [|c t IH]; [reflexivity|]. simpl. intros H.
  destruct (N.eqb_spec c sep) as [->|Hne]; [exfalso; apply H; left; reflexivity|].
  rewrite IH; [reflexivity|]. intros Hin. apply H. right. exact Hin.
Qed.

Lemma spaces_without sep l :
  py_isspace sep = false -> forallb py_isspace l = true -> ~ In sep l.
Proof.
  intros Hsep Hl Hin. rewrite forallb_forall in Hl. rewrite (Hl sep Hin) in Hsep.
  discriminate.
Qed.

Lemma before_idem sep s : before sep (before sep s) = before sep s.
Proof.
  rewrite <- (app_nil_r (before sep s)) at 1.
  rewrite before_app_out; [apply app_nil_r|apply before_no_sep].
Qed.

(** Stripping before or after cutting at a character that is not white
    space comes to the same, once the result is stripped. *)
Lemma strip_before_strip sep p :
  py_isspace sep = false -> strip (before sep (strip p)) = strip (before sep p).
Proof.
  intros Hsep. destruct (strip_split p) as (l & r & Hp & Hl & Hr).
  assert (Ht : strip (strip p ++ r) = strip p).
  { rewrite <- (strip_spaces l (strip p ++ r) Hl), <- Hp. reflexivity. }
  set (t := strip p) in *.
  assert (Hrhs : before sep p = l ++ before sep (t ++ r)).
  { rewrite Hp at 1. apply before_app_out, spaces_without; assumption. }
  rewrite Hrhs, (strip_spaces l _ Hl).
  destruct (in_dec N.eq_dec sep t) as [Hin|Hout].
  - rewrite (before_app_in sep t r Hin). reflexivity.
  - rewrite (before_app_out sep t r Hout).
    assert (Hr' : before sep r = r).
    { rewrite <- (app_nil_r r) at 1. rewrite before_app_out;
        [apply app_nil_r|apply spaces_without; assumption]. }
    rewrite Hr', Ht.
    assert (Hb : before sep t = t).
    { rewrite <- (app_nil_r t) at 1. rewrite before_app_out; [apply app_nil_r|exact Hout]. }
    rewrite Hb. unfold t. apply strip_idem.
Qed.

Lemma split_on_single sep p : ~ In sep p -> split_on sep p = [p].
Proof.
  induction p as [|c p IH]; [reflexivity|]. simpl. intros H.
  destruct (N.eqb_spec c sep) as [->|Hne]; [exfalso; apply H; left; reflexivity|].
  rewrite IH; [reflexivity|]. intros Hin. apply H. right. exact Hin.
Qed.

Lemma split_on_app sep p rest :
  ~ In sep p -> split_on sep (p ++ sep :: rest) = p :: split_on sep rest.
Proof.
  induction p as [|c p IH]; simpl; intros H.
  - rewrite N.eqb_refl. reflexivity.
  - destruct (N.eqb_spec c sep) as [->|Hne]; [exfalso; apply H; left; reflexivity|].
    rewrite IH; [reflexivity|]. intros Hin. apply H. right. exact Hin.
Qed.

Lemma split_on_join sep p parts :
  Forall (fun q => ~ In sep q) (p :: parts) ->
  split_on sep (join [sep] (p :: parts)) = p :: parts.
Proof.
  revert p. induction parts as [|q parts IH]; intros p H.
  - inversion H; subst. apply split_on_single. assumption.
  - inversion H as [|? ? Hp Hrest]; subst.
    change (join [sep] (p :: q :: parts)) with (p ++ sep :: join [sep] (q :: parts)).
    rewrite (split_on_app sep p _ Hp), (IH q Hrest). reflexivity.
Qed.

Section Lower.

Variable unicode_lower : N -> pystr.
Variable final_sigma : pystr -> pystr -> bool.

Local Abbreviation py_lower := (Str.py_lower unicode_lower final_sigma).
Local Abbreviation lower_loop := (Str.lower_loop unicode_lower final_sigma).
Local Abbreviation lowers_to := (StrProps.lowers_to unicode_lower).

Lemma lower_loop_prefix pre : forall before rest,
  exists x, lower_loop before (pre ++ rest) = x ++ lower_loop (before ++ pre) rest.
Proof.
  induction pre as [|c pre IH]; intros before rest.
  - exists []. rewrite app_nil_r. reflexivity.
  - destruct (IH (before ++ [c]) rest) as (x & Hx).
    exists (lower_char unicode_lower final_sigma before c (pre ++ rest) ++ x).
    simpl. rewrite Hx, <- !app_assoc. reflexivity.
Qed.

Lemma lower_loop_phrase phrase needle :
  Forall2 lowers_to phrase needle ->
  forall before rest,
  lower_loop before (phrase ++ rest) = needle ++ lower_loop (before ++ phrase) rest.
Proof.
  induction 1 as [|c n phrase needle [Hs Hc] _ IH]; intros before rest.
  - rewrite app_nil_r. reflexivity.
  - simpl. rewrite IH, <- app_assoc. simpl.
    unfold lower_char. destruct (N.ltb c 128).
    + inversion Hc; subst. reflexivity.
    + destruct (N.eqb_spec c 931); [contradiction|]. rewrite Hc. reflexivity.
Qed.

Lemma py_lower_finds pre phrase post needle :
  Forall2 lowers_to phrase needle ->
  contains needle (py_lower (pre ++ phrase ++ post)) = true.
Proof.
  intros H. unfold Str.py_lower.
  destruct (lower_loop_prefix pre [] (phrase ++ post)) as (x & ->).
  rewrite (lower_loop_phrase _ _ H). apply contains_infix. eauto.
Qed.

End Lower.

End StrSpec.

Module LangSpec.
Import Transcript Str StrProps StrSpec Lang LangProps.

Lemma together_nil : together [] [].
Proof. split; [tauto|constructor]. Qed.

Lemma together_add v seen out :
  together seen out -> ~ In v seen -> together (v :: seen) (out ++ [v]).
Proof.
  intros [Hs Hn] Hv. split.
  - intros w. rewrite in_app_iff. simpl. rewrite Hs. tauto.
  - apply List.NoDup_app; [exact Hn|repeat constructor; simpl; tauto|].
    intros w Hw [<-|[]]. apply Hv, Hs, Hw.
Qed.

Lemma variants_loop_spec vs : forall seen out,
  together seen out ->
  together (fst (variants_loop vs seen out)) (snd (variants_loop vs seen out)) /\
  (forall v, In v (snd (variants_loop vs seen out)) <-> In v out \/ In v vs) /\
  (exists more, snd (variants_loop vs seen out) = out ++ more).
Proof.
  induction vs as [|v vs IH]; intros seen out Ht; simpl.
  - split; [exact Ht|]. split; [tauto|]. exists []. rewrite app_nil_r. reflexivity.
  - destruct (mem v seen) eqn:Hm.
    + destruct (IH seen out Ht) as (H1 & H2 & H3). split; [exact H1|]. split; [|exact H3].
      intros w. rewrite H2. apply mem_In in Hm. destruct Ht as [Hs _].
      split; [tauto|]. intros [?|[<-|?]]; auto. left. apply Hs, Hm.
    + apply mem_not_In in Hm.
      destruct (IH _ _ (together_add _ _ _ Ht Hm)) as (H1 & H2 & more & H3).
      split; [exact H1|]. split.
      * intros w. rewrite H2, in_app_iff. simpl. tauto.
      * exists (v :: more). rewrite H3, <- app_assoc. reflexivity.
Qed.

Lemma expand_loop_spec ordered : forall seen out,
  together seen out ->
  List.NoDup (expand_loop ordered seen out) /\
  (forall v, In v (expand_loop ordered seen out) <->
             In v out \/ exists c, In c ordered /\ In v (variants_of c)) /\
  (exists more, expand_loop ordered seen out = out ++ more).
Proof.
  induction ordered as [|c rest IH]; intros seen out Ht; simpl.
  - split; [apply Ht|]. split.
    + intros v. split; [tauto|]. intros [?|(c & [] & _)]. assumption.
    + exists []. rewrite app_nil_r. reflexivity.
  - destruct (variants_loop_spec (variants_of c) seen out Ht) as (H1 & H2 & m1 & H3).
    destruct (variants_loop (variants_of c) seen out) as [seen' out']. simpl in *.
    destruct (IH _ _ H1) as (Hn & Hi & m2 & Hm). split; [exact Hn|]. split.
    + intros v. rewrite Hi, H2. split.
      * intros [[?|?]|(c' & Hc' & Hv)]; eauto.
      * intros [?|(c' & [<-|Hc'] & Hv)]; eauto.
    + exists (m1 ++ m2). rewrite Hm, H3, <- app_assoc. reflexivity.
Qed.

Lemma dedup_loop_spec codes : forall seen ordered,
  together seen ordered ->
  List.NoDup (dedup_loop codes seen ordered) /\
  (forall c, In c (dedup_loop codes seen ordered) <->
             In c ordered \/ In c (List.filter truthy (List.map strip codes))) /\
  (exists more, dedup_loop codes seen ordered = ordered ++ more).
Proof.
  induction codes as [|c0 codes IH]; intros seen ordered Ht; simpl.
  - split; [apply Ht|]. split; [tauto|]. exists []. rewrite app_nil_r. reflexivity.
  - destruct (truthy (strip c0)) eqn:Hc; simpl.
    + destruct (mem (strip c0) seen) eqn:Hm.
      * destruct (IH seen ordered Ht) as (Hn & Hi & He). split; [exact Hn|]. split; [|exact He].
        intros c. rewrite Hi. simpl. apply mem_In in Hm. destruct Ht as [Hs _].
        split; [tauto|]. intros [?|[<-|?]]; auto. left. apply Hs, Hm.
      * apply mem_not_In in Hm.
        destruct (IH _ _ (together_add _ _ _ Ht Hm)) as (Hn & Hi & more & He).
        split; [exact Hn|]. split.
        -- intros c. rewrite Hi, in_app_iff. simpl. tauto.
        -- exists (strip c0 :: more). rewrite He, <- app_assoc. reflexivity.
    + apply IH, Ht.
Qed.

Lemma remove_first_In x y xs : In y (remove_first x xs) -> In y xs.
Proof.
  induction xs as [|z xs IH]; simpl; [tauto|].
  destruct (pystr_eqb x z); simpl; tauto.
Qed.

Lemma remove_first_other x y xs : In y xs -> y <> x -> In y (remove_first x xs).
Proof.
  induction xs as [|z xs IH]; simpl; [tauto|].
  destruct (pystr_eqb x z) eqn:He.
  - apply pystr_eqb_eq in He. subst. intros [<-|?] ?; [congruence|assumption].
  - simpl. tauto.
Qed.

Lemma en_first_In force ordered c : In c (en_first force ordered) <-> In c ordered.
Proof.
  unfold en_first. destruct force; simpl; [|tauto].
  destruct (mem (py "en") ordered) eqn:Hm; [|tauto].
  apply mem_In in Hm. simpl. split.
  - intros [<-|H]; [exact Hm|]. eapply remove_first_In, H.
  - intros H. destruct (decide (c = py "en")) as [->|Hne]; [auto|].
    right. apply remove_first_other; assumption.
Qed.

(** Every list of variants of the table starts with its own key. *)
Lemma variants_of_head c : hd_error (variants_of c) = Some c.
Proof.
  unfold variants_of, mapping.
  repeat (cbn [dict_get];
          match goal with
          | |- context [pystr_eqb c ?k] =>
              destruct (pystr_eqb c k) eqn:?He;
              [apply pystr_eqb_eq in He; subst c; reflexivity|clear He]
          end).
  reflexivity.
Qed.

Lemma variants_of_self c : In c (variants_of c).
Proof.
  pose proof (variants_of_head c) as H.
  destruct (variants_of c) as [|v vs]; [discriminate|].
  simpl in *. left. congruence.
Qed.

Section Expansion.

Variable TRANSCRIPT_LANGS : list pystr.

Local Abbreviation expand_preferred_langs :=
  (Lang.expand_preferred_langs TRANSCRIPT_LANGS).
Local Abbreviation requested := (LangProps.requested TRANSCRIPT_LANGS).

Lemma expand_members codes force_en_first :
  List.NoDup (expand_preferred_langs codes force_en_first) /\
  forall v, In v (expand_preferred_langs codes force_en_first) <->
            exists c, In c (requested codes) /\ In v (variants_of c).
Proof.
  unfold Lang.expand_preferred_langs, LangProps.requested.
  set (cs := match codes with [] => TRANSCRIPT_LANGS | _ => codes end).
  destruct (dedup_loop_spec cs [] [] together_nil) as (_ & Hd & _).
  destruct (expand_loop_spec (en_first force_en_first (dedup_loop cs [] [])) [] []
              together_nil) as (Hn & He & _).
  split; [exact Hn|]. intros v. rewrite He. split.
  - intros [[]|(c & Hc & Hv)]. exists c. split; [|exact Hv].
    apply en_first_In, Hd in Hc. destruct Hc as [[]|Hc]. exact Hc.
  - intros (c & Hc & Hv). right. exists c. split; [|exact Hv].
    apply en_first_In, Hd. right. exact Hc.
Qed.

Lemma dedup_loop_head cs :
  hd_error (dedup_loop cs [] []) = hd_error (List.filter truthy (List.map strip cs)).
Proof.
  induction cs as [|c0 cs IH]; [reflexivity|].
  simpl. destruct (truthy (strip c0)) eqn:Hc; simpl; [|exact IH].
  destruct (dedup_loop_spec cs [strip c0] [strip c0]) as (_ & _ & more & ->);
    [|reflexivity].
  split; [tauto|]. repeat constructor; simpl; tauto.
Qed.

Lemma expand_loop_head c rest :
  hd_error (expand_loop (c :: rest) [] []) = Some c.
Proof.
  simpl. pose proof (variants_of_head c) as Hh.
  destruct (variants_of c) as [|v vs]; [discriminate|]. simpl in Hh. inversion Hh; subst v.
  simpl.
  destruct (variants_loop_spec vs [c] [c]) as (Ht & _ & m1 & H1).
  { split; [tauto|]. repeat constructor; simpl; tauto. }
  destruct (variants_loop vs [c] [c]) as [seen' out']. simpl in *.
  destruct (expand_loop_spec rest seen' out' Ht) as (_ & _ & m2 & ->).
  rewrite H1. reflexivity.
Qed.

Lemma expand_head codes force_en_first :
  hd_error (expand_preferred_langs codes force_en_first) =
  if force_en_first && mem (py "en") (requested codes)
  then Some (py "en") else hd_error (requested codes).
Proof.
  unfold Lang.expand_preferred_langs, LangProps.requested.
  set (cs := match codes with [] => TRANSCRIPT_LANGS | _ => codes end).
  destruct (dedup_loop_spec cs [] [] together_nil) as (_ & Hd & _).
  assert (Hmem : mem (py "en") (dedup_loop cs [] []) =
                 mem (py "en") (List.filter truthy (List.map strip cs))).
  { apply eq_true_iff_eq. rewrite !mem_In, Hd. simpl. tauto. }
  unfold en_first. rewrite Hmem.
  destruct (force_en_first && mem (py "en") _) eqn:Hf.
  - apply expand_loop_head.
  - rewrite <- dedup_loop_head.
    destruct (dedup_loop cs [] []) as [|c rest]; [reflexivity|].
    apply expand_loop_head.
Qed.

(** X1. The first language of the result: English when [force_en_first]
    is set and English is among the codes worked on, the first of those
    codes otherwise. *)
Theorem expand_preferred_langs_first codes force_en_first :
  hd_error (expand_preferred_langs codes force_en_first) =
  if force_en_first && mem (py "en") (requested codes)
  then Some (py "en") else hd_error (requested codes).
Proof. apply expand_head. Qed.

(** X2. [expand_preferred_langs] returns, without repeats, exactly the
    variants of the codes it works on: a language is in the result if and
    only if the table (or, for a code the table does not know, the code
    itself) lists it for one of the stripped non-blank codes of the caller,
    or of [TRANSCRIPT_LANGS] when the caller gives none. *)
Theorem expand_preferred_langs_members codes force_en_first :
  List.NoDup (expand_preferred_langs codes force_en_first) /\
  forall v, In v (expand_preferred_langs codes force_en_first) <->
            exists c, In c (requested codes) /\ In v (variants_of c).
Proof. apply expand_members. Qed.

End Expansion.

Section Facts.

Variable TRANSCRIPT_LANGS : list pystr.
Variable unicode_lower : N -> pystr.
Variable final_sigma : pystr -> pystr -> bool.

Local Abbreviation expand_preferred_langs :=
  (Lang.expand_preferred_langs TRANSCRIPT_LANGS).
Local Abbreviation requested := (LangProps.requested TRANSCRIPT_LANGS).
Local Abbreviation py_lower := (Str.py_lower unicode_lower final_sigma).
Local Abbreviation _parse_accept_language_header :=
  (Lang._parse_accept_language_header unicode_lower final_sigma).
Local Abbreviation resolve_languages :=
  (Lang.resolve_languages TRANSCRIPT_LANGS unicode_lower final_sigma).
Local Abbreviation query_of := (Lang.query_of TRANSCRIPT_LANGS unicode_lower final_sigma).

Lemma has_dash_false s : has_dash s = false <-> ~ In 45%N s.
Proof.
  unfold has_dash. rewrite <- not_true_iff_false, existsb_exists. split.
  - intros H Hi. apply H. exists 45%N. split; [exact Hi|reflexivity].
  - intros H (c & Hc & He). apply N.eqb_eq in He. subst. exact (H Hc).
Qed.

Lemma parse_loop_spec (good : pystr -> Prop) :
  (forall tag, good (before 45 tag) \/ before 45 tag = []) ->
  forall parts seen out,
  together seen out -> Forall good out ->
  List.NoDup (Lang.parse_loop unicode_lower final_sigma parts seen out) /\
  Forall good (Lang.parse_loop unicode_lower final_sigma parts seen out).
Proof.
  intros Hgood. induction parts as [|p parts IH]; intros seen out Ht Hg; simpl.
  - split; [apply Ht|exact Hg].
  - destruct (negb (truthy (py_lower (strip (before 59 p)))) || _); [apply IH; assumption|].
    destruct (truthy (before 45 _)) eqn:Hb; simpl; [|apply IH; assumption].
    destruct (mem _ seen) eqn:Hm; simpl; [apply IH; assumption|].
    apply mem_not_In in Hm. apply IH; [apply together_add; assumption|].
    apply Forall_app. split; [exact Hg|]. constructor; [|constructor].
    destruct (Hgood (py_lower (strip (before 59 p)))) as [H|H]; [exact H|].
    rewrite H in Hb. discriminate.
Qed.

(** X3. The bases that [_parse_accept_language_header] returns are
    distinct, none is empty and none has a dash: whatever the header, the
    result is a list of different primary language subtags. *)
Theorem parse_accept_language_bases header_val :
  List.NoDup (_parse_accept_language_header header_val) /\
  Forall (fun b => b <> [] /\ has_dash b = false)
         (_parse_accept_language_header header_val).
Proof.
  unfold Lang._parse_accept_language_header.
  destruct header_val as [[|c h]|]; try (split; constructor).
  apply parse_loop_spec; [|apply together_nil|constructor].
  intros tag. destruct (before 45 tag) eqn:Hb; [right; reflexivity|left].
  split; [discriminate|]. rewrite <- Hb. apply has_dash_false, before_no_sep.
Qed.

Lemma parse_general h :
  _parse_accept_language_header (Some h) =
  Lang.parse_loop unicode_lower final_sigma
    (List.filter truthy (List.map strip (split_on 44 h))) [] [].
Proof. destruct h; reflexivity. Qed.

Lemma parse_loop_cut parts : forall seen out,
  Lang.parse_loop unicode_lower final_sigma
    (List.filter truthy (List.map strip parts)) seen out =
  Lang.parse_loop unicode_lower final_sigma
    (List.filter truthy (List.map strip (List.map (before 59) parts))) seen out.
Proof.
  induction parts as [|p parts IH]; intros seen out; [reflexivity|].
  cbn [List.map List.filter].
  pose proof (strip_before_strip 59 p eq_refl) as HA.
  pose proof (strip_before_strip 59 (before 59 p) eq_refl) as HB.
  rewrite before_idem in HB.
  destruct (strip (before 59 p)) as [|c u] eqn:Hu.
  - cbn [truthy]. destruct (truthy (strip p)) eqn:Hp; [|apply IH].
    cbn [Lang.parse_loop]. rewrite HA. cbn. apply IH.
  - cbn [truthy]. destruct (strip p) as [|d sp] eqn:Hp.
    + exfalso. cbn in HA. discriminate.
    + cbn [truthy Lang.parse_loop]. rewrite HA, HB.
      destruct (negb (truthy (py_lower (c :: u))) || _); [apply IH|].
      destruct (truthy (before 45 _) && _); apply IH.
Qed.

Lemma parse_join parts :
  Forall (fun p => ~ In 44%N p) parts ->
  _parse_accept_language_header (Some (join [44%N] parts)) =
  Lang.parse_loop unicode_lower final_sigma
    (List.filter truthy (List.map strip parts)) [] [].
Proof.
  intros H. rewrite parse_general. destruct parts as [|p parts]; [reflexivity|].
  rewrite (split_on_join 44 p parts H). reflexivity.
Qed.

(** X4. [_parse_accept_language_header] looks at nothing but the
    language tags: what follows the first semicolon of a part of the
    header, its quality value among it, has no effect on the result. The
    bases come in the order of the header, not in the order of the
    qualities. *)
Theorem accept_language_ignores_parameters parts :
  Forall (fun p => ~ In 44%N p) parts ->
  _parse_accept_language_header (Some (join (py ",") parts)) =
  _parse_accept_language_header (Some (join (py ",") (List.map (before 59) parts))).
Proof.
  intros H. change (py ",") with [44%N].
  etransitivity; [apply (parse_join parts H)|].
  etransitivity; [apply parse_loop_cut|].
  symmetry. apply parse_join.
  apply List.Forall_forall. intros q Hq. apply in_map_iff in Hq as (q0 & <- & Hq0).
  rewrite List.Forall_forall in H. specialize (H q0 Hq0). intros Hin. apply H.
  clear -Hin. induction q0 as [|c q0 IH]; [destruct Hin|]. simpl in Hin.
  destruct (N.eqb_spec c 59); [destruct Hin|].
  destruct Hin as [->|Hin]; [left; reflexivity|right; apply IH, Hin].
Qed.

Lemma cache_key_of_length video_id q :
  length (cache_key_of video_id q) =
  match lang_bases q with
  | Some csv => (length video_id + 8 + length csv)%nat
  | None => length video_id
  end.
Proof.
  unfold cache_key_of. destruct (lang_bases q); [|reflexivity].
  rewrite !length_app. simpl. lia.
Qed.

Lemma requested_keeps_english codes :
  In (py "en") codes -> In (py "en") (requested codes).
Proof.
  intros H. unfold LangProps.requested. destruct codes as [|c cs]; [destruct H|].
  apply filter_In. split; [|reflexivity].
  change (py "en") with (strip (py "en")) at 1. apply in_map. exact H.
Qed.

(** X5. A request without a [languages] parameter whose [Accept-Language]
    header puts another language than English first still gets English:
    the languages handed to the fetchers contain ["en"], and the request
    leaves the default path (its cache key carries the languages and the
    legacy key is not consulted). *)
Theorem inferred_languages_keep_english video_url_or_id accept_lang_hdr first rest :
  _parse_accept_language_header (Some accept_lang_hdr) = first :: rest ->
  first <> py "en" ->
  let q := query_of video_url_or_id None accept_lang_hdr in
  In (py "en") (languages q) /\ legacy_allowed q = false /\
  exists bases, lang_bases q = Some (join (py ",") bases) /\
                hd_error bases = Some first /\ In (py "en") bases.
Proof.
  intros Hp Hne. unfold Lang.query_of, Lang.resolve_languages. rewrite Hp.
  destruct (pystr_eqb first (py "en")) eqn:He; [apply pystr_eqb_eq in He; congruence|].
  cbn [negb]. cbv zeta.
  set (bases := if mem (py "en") (first :: rest) then first :: rest
                else (first :: rest) ++ [py "en"]).
  assert (Hen : In (py "en") bases).
  { unfold bases. destruct (mem (py "en") (first :: rest)) eqn:Hm.
    - apply mem_In, Hm.
    - apply in_app_iff. right. left. reflexivity. }
  assert (Hhd : hd_error bases = Some first).
  { unfold bases. destruct (mem (py "en") (first :: rest)); reflexivity. }
  cbn [languages legacy_allowed lang_bases]. split; [|split; [reflexivity|]].
  - apply expand_members. exists (py "en"). split.
    + apply requested_keeps_english, Hen.
    + apply variants_of_self.
  - exists bases. auto.
Qed.

Lemma py_lower_nil : py_lower [] = [].
Proof. reflexivity. Qed.

Lemma base_list_loop_blank cs : forall seen base_list,
  Forall (fun c => blank c = true) cs ->
  Lang.base_list_loop unicode_lower final_sigma cs seen base_list = base_list.
Proof.
  induction cs as [|c cs IH]; intros seen base_list H; [reflexivity|].
  inversion H as [|? ? Hc Hcs]; subst. simpl.
  unfold blank in Hc. destruct (strip c); [|discriminate].
  rewrite py_lower_nil. simpl. apply IH, Hcs.
Qed.

(** X6. A [languages] parameter that is not empty but holds nothing
    except commas and blanks does not fall back to the default path: the
    request gets the configured languages expanded without the
    English-first rule, under a cache key of its own, the video id followed
    by ["::langs="], and the legacy key is not consulted. *)
Theorem blank_languages_parameter video_url_or_id video_id c raw accept_lang_hdr :
  Forall (fun part => blank part = true) (split_on 44 (c :: raw)) ->
  let q := query_of video_url_or_id (Some (c :: raw)) accept_lang_hdr in
  languages q = expand_preferred_langs [] false /\
  cache_key_of video_id q = video_id ++ py "::langs=" /\
  legacy_allowed q = false.
Proof.
  intros H. unfold Lang.query_of, Lang.resolve_languages.
  rewrite (base_list_loop_blank _ [] [] H). cbn. repeat split.
Qed.

End Facts.

(** X7. Cache keys keep the requests apart: two requests whose keys are
    equal have the same video id and the same language part, and the key of
    a language-aware request is never the legacy key of any video. *)
Theorem cache_keys_do_not_collide unicode_alnum url1 url2 v1 v2 q1 q2 :
  VideoId.extract_video_id unicode_alnum url1 = Some v1 ->
  VideoId.extract_video_id unicode_alnum url2 = Some v2 ->
  cache_key_of v1 q1 = cache_key_of v2 q2 ->
  v1 = v2 /\ lang_bases q1 = lang_bases q2.
Proof.
  intros H1 H2 Hk.
  apply VideoIdSpec.extract_video_id_length in H1, H2.
  pose proof (f_equal (@length N) Hk) as Hl. rewrite !cache_key_of_length in Hl.
  unfold cache_key_of in Hk.
  destruct (lang_bases q1) as [c1|], (lang_bases q2) as [c2|]; try lia.
  - apply app_inj_1 in Hk as [-> Hk]; [|congruence].
    apply app_inv_head in Hk. subst. auto.
  - auto.
Qed.

(** The header of the docstring, ["es-419,es;q=0.9,en-US;q=0.8,en;q=0.7"],
    gives the bases ["es"] and ["en"]. *)
Lemma inferred_languages_keep_english_witness :
  let hdr := py "es-419,es;q=0.9,en-US;q=0.8,en;q=0.7" in
  let q := Lang.query_of default_langs sample_lower sample_sigma Samples.sample_id None hdr in
  Lang._parse_accept_language_header sample_lower sample_sigma (Some hdr) = [py "es"; py "en"] /\
  In (py "en") (languages q) /\ legacy_allowed q = false.
Proof.
  intros hdr q.
  assert (Hp : Lang._parse_accept_language_header sample_lower sample_sigma (Some hdr)
               = [py "es"; py "en"]) by (vm_compute; reflexivity).
  split; [exact Hp|].
  destruct (inferred_languages_keep_english default_langs sample_lower sample_sigma Samples.sample_id
              hdr (py "es") [py "en"] Hp) as (H1 & H2 & _).
  - vm_compute. discriminate.
  - split; assumption.
Defined.

Lemma blank_languages_parameter_witness :
  let q := Lang.query_of default_langs sample_lower sample_sigma Samples.sample_id
             (Some (py " , ")) (py "es") in
  languages q = Lang.expand_preferred_langs default_langs [] false /\
  cache_key_of Samples.sample_id q = Samples.sample_id ++ py "::langs=" /\
  legacy_allowed q = false.
Proof.
  apply (blank_languages_parameter default_langs sample_lower sample_sigma Samples.sample_id
           Samples.sample_id 32%N (py ", ")).
  repeat constructor.
Defined.

(** With the qualities turned round the bases come out as before. *)
Lemma accept_language_ignores_parameters_witness :
  Lang._parse_accept_language_header sample_lower sample_sigma
    (Some (py "es;q=0.1,en;q=0.9"))
  = Lang._parse_accept_language_header sample_lower sample_sigma (Some (py "es,en")).
Proof.
  apply (accept_language_ignores_parameters sample_lower sample_sigma
           [py "es;q=0.1"; py "en;q=0.9"]).
  repeat constructor; vm_compute; intuition discriminate.
Defined.

Lemma cache_keys_do_not_collide_witness :
  let q1 := {| videoId := Samples.sample_id; lang_bases := Some (py "es");
               languages := [py "es"] |} in
  Samples.sample_id = Samples.sample_id /\ lang_bases q1 = lang_bases q1.
Proof.
  intros q1.
  apply (cache_keys_do_not_collide Samples.sample_table
           (py "https://youtu.be/dQw4w9WgXcQ") Samples.sample_id
           Samples.sample_id Samples.sample_id q1 q1); reflexivity.
Defined.

End LangSpec.

Module CommentSourcesSpec.
Import Str StrProps StrSpec Lang LangProps LangSpec CommentSources CommentSourcesProps.

Section Facts.

Variable GEN_HTTPS GEN_HTTP WS_USER WS_PASS : option pystr.
Variable COMMENT_LIMIT : Z.
Variable MAX_COMMENTS_FETCH : Z.
Variable sys_maxsize : Z.
Variable unicode_lower : N -> pystr.
Variable final_sigma : pystr -> pystr -> bool.
Variable YoutubeDL : bool -> option pystr -> ydl_run.
Variable get_comments_from_url : bool -> list (pystr * pystr) -> outcome (list (outcome item)).

Local Abbreviation py_lower := (Str.py_lower unicode_lower final_sigma).
Local Abbreviation lowers_to := (StrProps.lowers_to unicode_lower).
Local Abbreviation _detect_comment_permanent_block :=
  (CommentSources._detect_comment_permanent_block unicode_lower final_sigma).
Local Abbreviation ydl_proxy :=
  (CommentSources.ydl_proxy GEN_HTTPS GEN_HTTP WS_USER WS_PASS).
Local Abbreviation downloader_proxies :=
  (CommentSources.downloader_proxies GEN_HTTPS GEN_HTTP WS_USER WS_PASS).
Local Abbreviation _fetch_comments_from_ytdlp :=
  (CommentSources._fetch_comments_from_ytdlp GEN_HTTPS GEN_HTTP WS_USER WS_PASS
     unicode_lower final_sigma YoutubeDL).
Local Abbreviation downloader_loop := (CommentSources.downloader_loop COMMENT_LIMIT).
Local Abbreviation _fetch_comments_downloader :=
  (CommentSources._fetch_comments_downloader GEN_HTTPS GEN_HTTP WS_USER WS_PASS
     COMMENT_LIMIT MAX_COMMENTS_FETCH sys_maxsize get_comments_from_url).
Local Abbreviation sources :=
  (CommentSources.sources GEN_HTTPS GEN_HTTP WS_USER WS_PASS COMMENT_LIMIT
     MAX_COMMENTS_FETCH sys_maxsize unicode_lower final_sigma YoutubeDL
     get_comments_from_url).

(** A phrase that lower-cases to one of the needles, anywhere in one of the
    messages kept, is detected, whatever else was logged and whatever the
    text of the exception. *)
Lemma detect_phrase msgs extra_text lvl pre phrase post needle :
  In needle needles ->
  Forall2 lowers_to phrase needle ->
  In (lvl, pre ++ phrase ++ post) msgs ->
  _detect_comment_permanent_block msgs extra_text = (true, Some (py "signin_required")).
Proof.
  intros Hn Hp Hin. unfold CommentSources._detect_comment_permanent_block.
  apply (in_map snd) in Hin. simpl in Hin.
  destruct (join_infix (py " ") _ _ Hin) as (a & b & Hj).
  cbv zeta.
  match goal with |- context [Str.py_lower _ _ ?t] => set (text := t) end.
  assert (Ht : exists a' b', text = a' ++ phrase ++ b').
  { assert (Hj' : join (py " ") (List.map snd msgs) = (a ++ pre) ++ phrase ++ (post ++ b))
      by (etransitivity; [exact Hj|]; rewrite <- !app_assoc; reflexivity).
    unfold text. destruct extra_text as [[|c e]|].
    - exists (a ++ pre), (post ++ b). exact Hj'.
    - exists (a ++ pre), (post ++ b ++ py " " ++ c :: e).
      etransitivity; [apply (f_equal (fun t => t ++ py " " ++ c :: e) Hj')|].
      rewrite <- !app_assoc. reflexivity.
    - exists (a ++ pre), (post ++ b). exact Hj'. }
  destruct Ht as (a' & b' & Ht). rewrite Ht.
  assert (He : existsb (fun n => contains n (py_lower (a' ++ phrase ++ b'))) needles = true).
  { apply existsb_exists. exists needle. split; [exact Hn|].
    apply py_lower_finds, Hp. }
  rewrite He. reflexivity.
Qed.

(** X8. The bot challenge outranks the data: when a warning or an error
    that yt-dlp logged holds, in any letter case, the phrase "sign in to
    confirm you're not a bot" (with either apostrophe),
    [_fetch_comments_from_ytdlp] raises [PermanentCommentBlock], also when
    yt-dlp returned comments. *)
Theorem bot_challenge_outranks_comments use_proxy lvl pre phrase post needle :
  In needle needles ->
  Forall2 lowers_to phrase needle ->
  In (lvl, pre ++ phrase ++ post)
     (messages (YoutubeDL use_proxy (ydl_proxy use_proxy))) ->
  _fetch_comments_from_ytdlp use_proxy = Raise PermanentCommentBlock.
Proof.
  intros Hn Hp Hin.
  unfold CommentSources._fetch_comments_from_ytdlp, CommentSources.yt_dlp_extract_info.
  cbv zeta.
  destruct (extraction_result _) as [info|str_e];
    rewrite (detect_phrase _ _ _ _ _ _ _ Hn Hp Hin); reflexivity.
Qed.

Lemma downloader_loop_spec n : forall gen acc r,
  downloader_loop n gen acc = Return r ->
  (1 <= COMMENT_LIMIT -> Z.of_nat (length acc) < COMMENT_LIMIT) ->
  Forall (fun c => c <> []) acc ->
  (length r <= length acc + n)%nat /\
  (Z.of_nat (length r) <= Z.max (Z.of_nat (length acc) + 1) COMMENT_LIMIT) /\
  Forall (fun c => c <> []) r /\
  exists more, r = acc ++ more /\ texts n gen = more ++ skipn (length more) (texts n gen).
Proof.
  induction n as [|n IH]; intros gen acc r H Hl Hf; simpl in H.
  - inversion H; subst. repeat split; [lia|lia|exact Hf|].
    exists []. rewrite app_nil_r. auto.
  - destruct gen as [|[it|e] rest]; [| |discriminate].
    + inversion H; subst. repeat split; [lia|lia|exact Hf|].
      exists []. rewrite app_nil_r. auto.
    + set (acc' := match item_text it with
                   | Some (c :: t) => acc ++ [c :: t]
                   | _ => acc
                   end) in *.
      assert (Hacc : Forall (fun c => c <> []) acc' /\
                     (length acc <= length acc' <= length acc + 1)%nat /\
                     exists new, acc' = acc ++ new /\
                                 texts (S n) (Return it :: rest) = new ++ texts n rest).
      { unfold acc'. simpl. destruct (item_text it) as [[|c t]|].
        - split; [exact Hf|]. split; [lia|]. exists []. rewrite app_nil_r. auto.
        - split; [apply Forall_app; split; [exact Hf|repeat constructor; discriminate]|].
          split; [rewrite length_app; simpl; lia|]. exists [c :: t]. auto.
        - split; [exact Hf|]. split; [lia|]. exists []. rewrite app_nil_r. auto. }
      destruct Hacc as (Hf' & Hlen & new & Hnew & Htexts).
      destruct (COMMENT_LIMIT <=? Z.of_nat (length acc')) eqn:Hlim.
      * inversion H; subst r. apply Z.leb_le in Hlim.
        repeat split; [lia|lia|exact Hf'|].
        exists new. split; [exact Hnew|]. rewrite Htexts.
        rewrite skipn_app, skipn_all, Nat.sub_diag. reflexivity.
      * apply Z.leb_gt in Hlim.
        destruct (IH rest acc' r H) as (H1 & H2 & H3 & more & H4 & H5); [lia|exact Hf'|].
        repeat split; [lia|lia|exact H3|].
        exists (new ++ more). split; [rewrite H4, Hnew, <- app_assoc; reflexivity|].
        rewrite Htexts, <- app_assoc. f_equal.
        rewrite length_app, <- Nat.add_comm, <- skipn_skipn.
        rewrite skipn_app, skipn_all, Nat.sub_diag. simpl. exact H5.
Qed.

Lemma downloader_result use_proxy :
  let r := _fetch_comments_downloader use_proxy in
  Z.of_nat (length r) <= Z.max 0 MAX_COMMENTS_FETCH /\
  Z.of_nat (length r) <= Z.max 1 COMMENT_LIMIT /\
  Forall (fun c => c <> []) r /\
  forall gen, get_comments_from_url use_proxy (downloader_proxies use_proxy) = Return gen ->
              exists rest, texts (Z.to_nat MAX_COMMENTS_FETCH) gen = r ++ rest.
Proof.
  unfold CommentSources._fetch_comments_downloader.
  destruct (get_comments_from_url _ _) as [gen|e];
    [|simpl; repeat split; [lia|lia|constructor|discriminate]].
  destruct ((MAX_COMMENTS_FETCH <? 0) || _) eqn:Hm;
    [simpl; repeat split; [lia|lia|constructor|eauto]|].
  destruct (downloader_loop _ gen []) as [r|e] eqn:Hr;
    [|simpl; repeat split; [lia|lia|constructor|eauto]].
  apply downloader_loop_spec in Hr as (H1 & H2 & H3 & more & H4 & H5);
    [|simpl; lia|constructor].
  simpl in *. subst r. repeat split; [lia|lia|exact H3|].
  intros gen' Hg. inversion Hg; subst gen'. eauto.
Qed.

(** X9. What [_fetch_comments_downloader] returns is bounded and clean:
    at most [MAX_COMMENTS_FETCH] comments, at most [COMMENT_LIMIT] when
    that limit is positive and at most one otherwise, none of them empty;
    and they are the first non-empty texts that the generator gives, in
    its order. *)
Theorem downloader_bounds use_proxy :
  let r := _fetch_comments_downloader use_proxy in
  Z.of_nat (length r) <= Z.max 0 MAX_COMMENTS_FETCH /\
  Z.of_nat (length r) <= Z.max 1 COMMENT_LIMIT /\
  Forall (fun c => c <> []) r /\
  forall gen, get_comments_from_url use_proxy (downloader_proxies use_proxy) = Return gen ->
              exists rest, texts (Z.to_nat MAX_COMMENTS_FETCH) gen = r ++ rest.
Proof. apply downloader_result. Qed.

Lemma downloader_loop_raises good : forall n acc e rest,
  (length good < n)%nat ->
  Z.of_nat (length acc + length good) < COMMENT_LIMIT ->
  downloader_loop n (List.map Return good ++ Raise e :: rest) acc = Raise e.
Proof.
  induction good as [|it good IH]; intros n acc e rest Hn Hl.
  - destruct n; [simpl in Hn; lia|]. reflexivity.
  - destruct n; [simpl in Hn; lia|]. simpl in *.
    set (acc' := match item_text it with
                 | Some (c :: t) => acc ++ [c :: t]
                 | _ => acc
                 end).
    assert (Hacc : (length acc' <= length acc + 1)%nat).
    { unfold acc'. destruct (item_text it) as [[|c t]|]; [lia| |lia].
      rewrite length_app. simpl. lia. }
    destruct (Z.leb_spec COMMENT_LIMIT (Z.of_nat (length acc'))); [lia|].
    apply IH; lia.
Qed.

(** X10. [_fetch_comments_downloader] gives all or nothing: when the
    generator fails before the limits are reached, the comments gathered
    until then are not returned, the result is the empty list. *)
Theorem downloader_drops_partial_results use_proxy good e rest :
  get_comments_from_url use_proxy (downloader_proxies use_proxy)
    = Return (List.map Return good ++ Raise e :: rest) ->
  Z.of_nat (length good) < MAX_COMMENTS_FETCH ->
  Z.of_nat (length good) < COMMENT_LIMIT ->
  _fetch_comments_downloader use_proxy = [].
Proof.
  intros Hg Hm Hl. unfold CommentSources._fetch_comments_downloader. rewrite Hg.
  destruct ((MAX_COMMENTS_FETCH <? 0) || _); [reflexivity|].
  rewrite downloader_loop_raises; [reflexivity|lia|simpl; lia].
Qed.

(** X11. The downloader cannot stop the chain, only yt-dlp can: when
    [_fetch_comments_resilient] ends on a permanent block, both downloader
    strategies were tried before and gave nothing, the strategy invoked last
    is a yt-dlp one, and no comment is returned. *)
Theorem block_only_after_downloaders :
  let r := Comments._fetch_comments_resilient sources in
  Comments.permanent_block_detected r = true ->
  _fetch_comments_downloader false = [] /\
  _fetch_comments_downloader true = [] /\
  Comments.comments r = [] /\
  (Comments.invoked r = [Comments.downloader_no_proxy; Comments.downloader_with_proxy;
                         Comments.yt_dlp_no_proxy] \/
   Comments.invoked r = Comments.comment_retrieval_strategies).
Proof.
  unfold Comments._fetch_comments_resilient, Comments.comment_retrieval_strategies.
  cbn [Comments.resilient_loop Comments.fetch_func CommentSources.sources
       Comments._fetch_comments_downloader Comments._fetch_comments_from_ytdlp].
  destruct (_fetch_comments_downloader false) as [|c0 cs0]; [|discriminate].
  destruct (_fetch_comments_downloader true) as [|c1 cs1]; [|discriminate].
  destruct (_fetch_comments_from_ytdlp false) as [[|c2 cs2]|[]]; cbn;
    try discriminate; try (intros _; repeat split; auto; fail);
  destruct (_fetch_comments_from_ytdlp true) as [[|c3 cs3]|[]]; cbn;
    try discriminate; intros _; repeat split; auto.
Qed.

Lemma ytdlp_comments_clean use_proxy cs :
  _fetch_comments_from_ytdlp use_proxy = Return cs -> Forall (fun c => c <> []) cs.
Proof.
  unfold CommentSources._fetch_comments_from_ytdlp.
  destruct (yt_dlp_extract_info _ _ _ _ _ _ _ _) as [info m].
  destruct (permanent_block m); [discriminate|].
  destruct info as [info|]; intros H; inversion H; [|constructor].
  apply List.Forall_forall. intros c Hc. apply filter_In in Hc as [_ Hc].
  apply truthy_true, Hc.
Qed.

(** X12. Every comment that the chain returns from the two sources is a
    non-empty string. *)
Theorem resilient_comments_not_empty :
  Forall (fun c => c <> []) (Comments.comments (Comments._fetch_comments_resilient sources)).
Proof.
  unfold Comments._fetch_comments_resilient, Comments.comment_retrieval_strategies.
  cbn [Comments.resilient_loop Comments.fetch_func CommentSources.sources
       Comments._fetch_comments_downloader Comments._fetch_comments_from_ytdlp].
  pose proof (downloader_result false) as (_ & _ & H0 & _).
  pose proof (downloader_result true) as (_ & _ & H1 & _).
  pose proof (ytdlp_comments_clean false) as H2.
  pose proof (ytdlp_comments_clean true) as H3.
  destruct (_fetch_comments_downloader false) as [|c0 cs0]; [|exact H0].
  destruct (_fetch_comments_downloader true) as [|c1 cs1]; [|exact H1].
  destruct (_fetch_comments_from_ytdlp false) as [[|c2 cs2]|[]]; cbn;
    try (apply H2; reflexivity); try (constructor; fail);
  destruct (_fetch_comments_from_ytdlp true) as [[|c3 cs3]|[]]; cbn;
    try (apply H3; reflexivity); constructor.
Qed.

End Facts.

(** yt-dlp returns two comments but has logged the challenge: the
    comments are dropped. *)
Lemma bot_challenge_outranks_comments_witness :
  CommentSources._fetch_comments_from_ytdlp None None None None
    LangProps.sample_lower LangProps.sample_sigma (fun _ _ => challenged_run) false
  = Raise PermanentCommentBlock.
Proof.
  apply (bot_challenge_outranks_comments None None None None
           LangProps.sample_lower LangProps.sample_sigma (fun _ _ => challenged_run)
           false warning (py "[youtube] dQw4w9WgXcQ: ")
           (py "Sign in to confirm you" ++ [8217%N] ++ py "re not a bot")
           (py ". Use --cookies for the authentication.")
           (py "sign in to confirm you" ++ [8217%N] ++ py "re not a bot")).
  - right. left. reflexivity.
  - vm_compute. repeat (constructor; [split; [lia|reflexivity]|]). constructor.
  - left. reflexivity.
Defined.

(** Two comments, then a network error: nothing is returned. *)
Lemma downloader_drops_partial_results_witness :
  CommentSources._fetch_comments_downloader None None None None 50 50 (2 ^ 63 - 1)
    (fun _ _ => Return failing_generator) false = [].
Proof.
  apply (downloader_drops_partial_results None None None None 50 50 (2 ^ 63 - 1)
           (fun _ _ => Return failing_generator) false
           [ {| item_text := Some (py "first") |}; {| item_text := Some (py "second") |} ]
           RequestException []).
  - reflexivity.
  - simpl. lia.
  - simpl. lia.
Defined.

Lemma block_only_after_downloaders_witness :
  let r := Comments._fetch_comments_resilient
             (CommentSources.sources None None None None 50 50 (2 ^ 63 - 1)
                LangProps.sample_lower LangProps.sample_sigma
                (fun _ _ => challenged_run) (fun _ _ => Return [])) in
  Comments.comments r = [] /\
  Comments.invoked r = [Comments.downloader_no_proxy; Comments.downloader_with_proxy;
                        Comments.yt_dlp_no_proxy].
Proof.
  intros r.
  destruct (block_only_after_downloaders None None None None 50 50 (2 ^ 63 - 1)
              LangProps.sample_lower LangProps.sample_sigma
              (fun _ _ => challenged_run) (fun _ _ => Return []))
    as (_ & _ & Hc & Hi).
  - vm_compute. reflexivity.
  - split; [exact Hc|]. vm_compute. reflexivity.
Defined.

End CommentSourcesSpec.

Module CommentChainSpec.
Import Comments CommentSourcesProps.

Lemma resilient_loop_outcomes A strategies : forall done,
  let r := resilient_loop A strategies done in
  (exists earlier s later,
     strategies = earlier ++ s :: later /\
     invoked r = done ++ earlier ++ [s] /\
     Forall (gave_nothing A) earlier /\
     ((exists c cs, fetch_func A s = Return (c :: cs) /\ comments r = c :: cs /\
                    permanent_block_detected r = false) \/
      (fetch_func A s = Raise PermanentCommentBlock /\ comments r = [] /\
       permanent_block_detected r = true))) \/
  (invoked r = done ++ strategies /\ Forall (gave_nothing A) strategies /\
   comments r = [] /\ permanent_block_detected r = false).
Proof.
  induction strategies as [|s rest IH]; intros done0; cbn zeta.
  - right. simpl. rewrite app_nil_r. repeat split. constructor.
  - simpl.
    assert (Hgo : gave_nothing A s ->
      let r := resilient_loop A rest (done0 ++ [s]) in
      (exists earlier s0 later,
         s :: rest = earlier ++ s0 :: later /\
         invoked r = done0 ++ earlier ++ [s0] /\
         Forall (gave_nothing A) earlier /\
         ((exists c cs, fetch_func A s0 = Return (c :: cs) /\ comments r = c :: cs /\
                        permanent_block_detected r = false) \/
          (fetch_func A s0 = Raise PermanentCommentBlock /\ comments r = [] /\
           permanent_block_detected r = true))) \/
      (invoked r = done0 ++ s :: rest /\ Forall (gave_nothing A) (s :: rest) /\
       comments r = [] /\ permanent_block_detected r = false)).
    { intros Hs. cbn zeta.
      destruct (IH (done0 ++ [s])) as [(earlier & s0 & later & H1 & H2 & H3 & H4)|(H1 & H2 & H3)].
      - left. exists (s :: earlier), s0, later. split; [simpl; congruence|].
        split; [rewrite H2, <- !app_assoc; reflexivity|]. split; [constructor; assumption|].
        exact H4.
      - right. split; [rewrite H1, <- app_assoc; reflexivity|].
        split; [constructor; assumption|]. exact H3. }
    destruct (fetch_func A s) as [[|c cs]|e] eqn:Hf.
    + apply Hgo. left. exact Hf.
    + left. exists [], s, rest. simpl. repeat split; [constructor|].
      left. exists c, cs. auto.
    + destruct e; try (apply Hgo; right; eexists; split; [|exact Hf]; discriminate).
      left. exists [], s, rest. simpl. repeat split; [constructor|]. right. auto.
Qed.

(** X13. The three ways in which [_fetch_comments_resilient] ends, for
    any behaviour of the adapters. Either a strategy is the first to return
    a non-empty list, and that list is the result; or a strategy is the
    first to raise [PermanentCommentBlock], and the result is empty with the
    block flag set; in both cases the strategies before it gave nothing
    (an empty list or another exception) and none after it is invoked. Or
    all four strategies were invoked in their order, each gave nothing, and
    the result is empty. *)
Theorem resilient_outcomes A :
  let r := _fetch_comments_resilient A in
  (exists earlier s later,
     comment_retrieval_strategies = earlier ++ s :: later /\
     invoked r = earlier ++ [s] /\
     Forall (gave_nothing A) earlier /\
     ((exists c cs, fetch_func A s = Return (c :: cs) /\ comments r = c :: cs /\
                    permanent_block_detected r = false) \/
      (fetch_func A s = Raise PermanentCommentBlock /\ comments r = [] /\
       permanent_block_detected r = true))) \/
  (invoked r = comment_retrieval_strategies /\
   Forall (gave_nothing A) comment_retrieval_strategies /\
   comments r = [] /\ permanent_block_detected r = false).
Proof. apply (resilient_loop_outcomes A comment_retrieval_strategies []). Qed.

End CommentChainSpec.

Module TimedtextSpec.
Import Transcript Str StrProps StrSpec Timedtext TimedtextProps.

(** X14. A text that [_timedtext_fetch_vtt] returns is not empty, has no
    white space at either end, and holds no cue timing: the arrow [-->]
    does not occur in it. *)
Theorem vtt_text_clean response out :
  vtt_text response = Some out ->
  out <> [] /\ trimmed out /\ contains arrow out = false.
Proof.
  unfold vtt_text. destruct response as [[status_code body]|e]; [|discriminate].
  destruct (negb (status_code =? 200)); [discriminate|].
  destruct (negb (truthy (strip body)) || _); [discriminate|].
  cbv zeta. set (lines := List.map strip (List.filter vtt_line_kept (splitlines (strip body)))).
  destruct (strip (join (py " ") lines)) as [|c o] eqn:Ho; [discriminate|].
  intros H; inversion H; subst out. rewrite <- Ho.
  split; [rewrite Ho; discriminate|]. split; [apply strip_trimmed|].
  apply not_true_iff_false. intros Hc. apply contains_strip in Hc.
  change (py " ") with [32%N] in Hc.
  apply contains_join in Hc as (l & Hl & Hc); [|discriminate|].
  - unfold lines in Hl. apply in_map_iff in Hl as (l0 & <- & Hl0).
    apply contains_strip in Hc. apply filter_In in Hl0 as [_ Hk].
    unfold vtt_line_kept in Hk. fold arrow in Hk. rewrite Hc in Hk.
    rewrite andb_false_r in Hk. discriminate.
  - vm_compute. intuition discriminate.
Qed.

Lemma vtt_text_clean_witness :
  vtt_text (Return (200, sample_vtt)) = Some (py "never gonna give you up") /\
  contains arrow (py "never gonna give you up") = false.
Proof.
  assert (H : vtt_text (Return (200, sample_vtt)) = Some (py "never gonna give you up"))
    by (vm_compute; reflexivity).
  split; [exact H|]. apply (vtt_text_clean _ _ H).
Defined.

Section Facts.

Variable TRANSCRIPT_LANGS : list pystr.
Variable MAX_TIMEDTEXT_LANGS : Z.
Variable GEN_HTTPS GEN_HTTP WS_USER WS_PASS : option pystr.
Variable unicode_lower : N -> pystr.
Variable final_sigma : pystr -> pystr -> bool.
Variable _timedtext_list_tracks : bool -> list (pystr * kind).
Variable http_get : nat -> vtt_request -> outcome (Z * pystr).

Local Abbreviation _timedtext_fetch_vtt := (Timedtext._timedtext_fetch_vtt http_get).
Local Abbreviation try_each := (Timedtext.try_each http_get).
Local Abbreviation proxy_configured :=
  (Timedtext.proxy_configured GEN_HTTPS GEN_HTTP WS_USER WS_PASS).
Local Abbreviation plan := (Timedtext.plan GEN_HTTPS GEN_HTTP WS_USER WS_PASS).
Local Abbreviation timedtext_try_languages :=
  (Timedtext.timedtext_try_languages TRANSCRIPT_LANGS MAX_TIMEDTEXT_LANGS
     GEN_HTTPS GEN_HTTP WS_USER WS_PASS unicode_lower final_sigma
     _timedtext_list_tracks http_get).

Lemma try_each_requests (P : vtt_request -> Prop) attempts manifest : forall made,
  Forall (fun a => P (request a)) attempts -> Forall P made ->
  Forall P (snd (try_each attempts manifest made)).
Proof.
  induction attempts as [|a attempts IH]; intros made Ha Hm; simpl; [exact Hm|].
  inversion Ha as [|? ? Hp Hrest]; subst.
  assert (Hm' : Forall P (made ++ [request a]))
    by (apply Forall_app; split; [exact Hm|repeat constructor; exact Hp]).
  destruct (_timedtext_fetch_vtt (length made) (request a)) as [[|c out]|]; simpl;
    try exact Hm'; apply IH; assumption.
Qed.

Lemma listed_attempts_all (P : attempt -> Prop) k proxy base_langs tracks :
  (forall code,
     P {| request := {| lang := code; asr := kind_eqb k kind_asr;
                        use_proxy := proxy; tlang := None |};
          payload_code := code; payload_generated := kind_eqb k kind_asr |}) ->
  Forall P (listed_attempts k proxy base_langs tracks).
Proof.
  intros H. apply List.Forall_forall. intros a Ha. unfold listed_attempts in Ha.
  apply in_flat_map in Ha as (base & _ & Ha).
  apply in_flat_map in Ha as (t & _ & Ha).
  destruct (kind_eqb (snd t) k && starts_with base (fst t)); [|destruct Ha].
  destruct Ha as [<-|[]]. apply H.
Qed.

Lemma translate_attempts_all (P : attempt -> Prop) proxy target_base tracks :
  (forall code,
     P {| request := {| lang := code; asr := false;
                        use_proxy := proxy; tlang := Some target_base |};
          payload_code := target_base; payload_generated := false |}) ->
  Forall P (translate_attempts proxy target_base tracks).
Proof.
  intros H. apply List.Forall_forall. intros a Ha. unfold translate_attempts in Ha.
  apply in_flat_map in Ha as (t & _ & Ha).
  destruct (kind_eqb (snd t) kind_manual && negb (starts_with target_base (fst t)));
    [|destruct Ha].
  destruct Ha as [<-|[]]. apply H.
Qed.

Lemma brute_attempts_all (P : attempt -> Prop) generated proxy base_langs :
  (forall base,
     P {| request := {| lang := base; asr := generated;
                        use_proxy := proxy; tlang := None |};
          payload_code := base; payload_generated := generated |}) ->
  Forall P (brute_attempts generated proxy base_langs).
Proof.
  intros H. apply List.Forall_forall. intros a Ha. unfold brute_attempts in Ha.
  apply in_map_iff in Ha as (base & <- & _). apply H.
Qed.

(** A property of every attempt of a plan follows from the property of
    the attempts of each loop. *)
Lemma plan_all (P : attempt -> Prop) base_langs tracks allow_translate allow_proxy :
  (forall k proxy code, (proxy = true -> allow_proxy && proxy_configured = true) ->
     P {| request := {| lang := code; asr := kind_eqb k kind_asr;
                        use_proxy := proxy; tlang := None |};
          payload_code := code; payload_generated := kind_eqb k kind_asr |}) ->
  (forall proxy code target_base,
     (proxy = true -> allow_proxy && proxy_configured = true) ->
     allow_translate = true ->
     P {| request := {| lang := code; asr := false;
                        use_proxy := proxy; tlang := Some target_base |};
          payload_code := target_base; payload_generated := false |}) ->
  Forall P (plan base_langs tracks allow_translate allow_proxy).
Proof.
  intros Hl Ht. unfold Timedtext.plan.
  assert (Hb : forall generated proxy,
            (proxy = true -> allow_proxy && proxy_configured = true) ->
            Forall P (brute_attempts generated proxy base_langs)).
  { intros generated proxy Hp. apply brute_attempts_all. intros base.
    destruct generated.
    - apply (Hl kind_asr proxy base Hp).
    - apply (Hl kind_manual proxy base Hp). }
  assert (Hls : forall k proxy,
            (proxy = true -> allow_proxy && proxy_configured = true) ->
            Forall P (listed_attempts k proxy base_langs tracks)).
  { intros k proxy Hp. apply listed_attempts_all. intros code. apply Hl, Hp. }
  assert (Hts : forall proxy target_base,
            (proxy = true -> allow_proxy && proxy_configured = true) ->
            allow_translate = true ->
            Forall P (translate_attempts proxy target_base tracks)).
  { intros proxy target_base Hp Hat. apply translate_attempts_all. intros code.
    apply Ht; assumption. }
  assert (Hnil : Forall P []) by constructor.
  destruct (allow_proxy && proxy_configured) eqn:Hp.
  - rewrite !Forall_app. repeat split; try (apply Hb; auto).
    destruct tracks as [|t tracks]; [exact Hnil|].
    rewrite !Forall_app. repeat split; try (apply Hls; auto).
    destruct base_langs as [|target_base ?]; [exact Hnil|].
    destruct allow_translate eqn:Hat; [|exact Hnil].
    rewrite !Forall_app. split; apply Hts; auto.
  - rewrite !Forall_app. repeat split; try (apply Hb; discriminate); try exact Hnil.
    destruct tracks as [|t tracks]; [exact Hnil|].
    rewrite !Forall_app. repeat split; try (apply Hls; discriminate); try exact Hnil.
    destruct base_langs as [|target_base ?]; [exact Hnil|].
    destruct allow_translate eqn:Hat; [|exact Hnil].
    rewrite !Forall_app. split; [|exact Hnil]. apply Hts; auto; discriminate.
Qed.

Lemma timedtext_requests (P : vtt_request -> Prop) languages allow_translate allow_proxy :
  (forall base_langs tracks,
     Forall (fun a => P (request a)) (plan base_langs tracks allow_translate allow_proxy)) ->
  Forall P (requests (timedtext_try_languages languages allow_translate allow_proxy)).
Proof.
  intros H. unfold Timedtext.timedtext_try_languages. cbv zeta.
  destruct (_timedtext_list_tracks false);
    [destruct (allow_proxy && Timedtext.proxy_configured _ _ _ _)|]; cbv beta iota;
  match goal with
  | |- context [Timedtext.try_each _ ?pl ?mf []] =>
      pose proof (try_each_requests P pl mf [] (H _ _) (List.Forall_nil _)) as Hr;
      destruct (Timedtext.try_each http_get pl mf []) as [found made]
  end; exact Hr.
Qed.

(** X15. [timedtext_try_languages] keeps off the proxy when it is told
    to, [allow_proxy=False] as [get_transcript] calls it, and when no proxy
    is configured: the tracks are listed once, directly, and every fetch is
    made with [use_proxy=False]. *)
Theorem timedtext_keeps_off_proxy languages allow_translate allow_proxy :
  allow_proxy && proxy_configured = false ->
  let t := timedtext_try_languages languages allow_translate allow_proxy in
  listings t = [false] /\ Forall (fun r => use_proxy r = false) (requests t).
Proof.
  intros Hp. split.
  - unfold Timedtext.timedtext_try_languages. cbv zeta. rewrite Hp.
    destruct (_timedtext_list_tracks false); cbv beta iota;
    match goal with
    | |- context [Timedtext.try_each _ ?pl ?mf []] =>
        destruct (Timedtext.try_each http_get pl mf []) as [found made]
    end; reflexivity.
  - apply timedtext_requests. intros base_langs tracks. apply plan_all.
    + intros k [|] code Hproxy; [|reflexivity]. rewrite Hp in Hproxy.
      discriminate (Hproxy eq_refl).
    + intros [|] code target_base Hproxy _; [|reflexivity]. rewrite Hp in Hproxy.
      discriminate (Hproxy eq_refl).
Qed.

(** X16. Without [allow_translate] no translation is asked for: no fetch
    carries a [tlang]. *)
Theorem timedtext_translates_on_demand languages allow_proxy :
  Forall (fun r => tlang r = None)
         (requests (timedtext_try_languages languages false allow_proxy)).
Proof.
  apply timedtext_requests. intros base_langs tracks. apply plan_all.
  - reflexivity.
  - discriminate.
Qed.

Lemma try_each_first attempts manifest : forall made,
  Forall (fun a => payload_generated a = asr (request a)) attempts ->
  (forall i r, made !! i = Some r -> silent (_timedtext_fetch_vtt i r)) ->
  let res := try_each attempts manifest made in
  match fst res with
  | Some p =>
      exists earlier r,
        snd res = earlier ++ [r] /\
        _timedtext_fetch_vtt (length earlier) r = Some (text p) /\
        text p <> [] /\
        is_generated (language p) = asr r /\
        tracks p = manifest /\
        forall i r', earlier !! i = Some r' -> silent (_timedtext_fetch_vtt i r')
  | None =>
      forall i r, snd res !! i = Some r -> silent (_timedtext_fetch_vtt i r)
  end.
Proof.
  induction attempts as [|a attempts IH]; intros made Hg Hm; [exact Hm|].
  inversion Hg as [|? ? Ha Hrest]; subst. simpl.
  assert (Hgo : silent (_timedtext_fetch_vtt (length made) (request a)) ->
                forall i r, (made ++ [request a]) !! i = Some r ->
                            silent (_timedtext_fetch_vtt i r)).
  { intros Hs i r Hi. apply lookup_app_Some in Hi as [Hi|[Hge Hi]]; [apply Hm, Hi|].
    destruct (i - length made)%nat as [|k] eqn:Hk; [|discriminate].
    simpl in Hi. inversion Hi; subst r.
    replace i with (length made) by lia. exact Hs. }
  destruct (_timedtext_fetch_vtt (length made) (request a)) as [[|c out]|] eqn:Hf.
  - apply (IH (made ++ [request a]) Hrest). apply Hgo. right. reflexivity.
  - simpl. exists made, (request a). repeat split; auto; try discriminate.
  - apply (IH (made ++ [request a]) Hrest). apply Hgo. left. reflexivity.
Qed.

(** X17. The result of [timedtext_try_languages] is the text of the
    first fetch that gives one: when a payload is returned, the fetch made
    last gave its text, which is not empty, every fetch before it gave
    nothing, the payload is marked as generated exactly when that fetch
    asked for the speech-recognition track, and it carries the manifest of
    the tracks listed; when nothing is returned, every fetch made gave
    nothing. *)
Theorem timedtext_first_text languages allow_translate allow_proxy :
  let t := timedtext_try_languages languages allow_translate allow_proxy in
  match result t with
  | Some p =>
      exists earlier r,
        requests t = earlier ++ [r] /\
        _timedtext_fetch_vtt (length earlier) r = Some (text p) /\
        text p <> [] /\
        is_generated (language p) = asr r /\
        forall i r', earlier !! i = Some r' -> silent (_timedtext_fetch_vtt i r')
  | None =>
      forall i r, requests t !! i = Some r -> silent (_timedtext_fetch_vtt i r)
  end.
Proof.
  unfold Timedtext.timedtext_try_languages. cbv zeta.
  destruct (_timedtext_list_tracks false);
    [destruct (allow_proxy && Timedtext.proxy_configured _ _ _ _)|]; cbv beta iota;
  match goal with
  | |- context [Timedtext.try_each _ ?pl ?mf []] =>
      pose proof (try_each_first pl mf []) as Hr;
      destruct (Timedtext.try_each http_get pl mf []) as [found made]
  end;
  simpl in Hr;
  (match type of Hr with
   | ?A -> ?B -> _ =>
       assert (Ha : A) by (apply plan_all; reflexivity);
       assert (Hb : B) by (intros i r Hi; rewrite lookup_nil in Hi; discriminate)
   end);
  specialize (Hr Ha Hb); cbn [result requests];
  (destruct found as [pl|]; [|exact Hr]);
  destruct Hr as (earlier & r & H1 & H2 & H3 & H4 & _ & H6); eauto 10.
Qed.

End Facts.

Lemma timedtext_keeps_off_proxy_witness :
  let t := Timedtext.timedtext_try_languages LangProps.default_langs 3
             None None None None LangProps.sample_lower LangProps.sample_sigma
             sample_tracks silent_http [py "es"] true false in
  listings t = [false] /\ Forall (fun r => use_proxy r = false) (requests t).
Proof.
  apply (timedtext_keeps_off_proxy LangProps.default_langs 3 None None None None
           LangProps.sample_lower LangProps.sample_sigma sample_tracks silent_http
           [py "es"] true false).
  reflexivity.
Defined.

End TimedtextSpec.

Module YtDlpSpec.
Import Transcript Str StrProps StrSpec YtDlp YtDlpProps Lang LangProps LangSpec.

Lemma patterns_of_In x codes :
  In x (patterns_of codes) <->
  exists code, In code codes /\ strip code <> [] /\
               (x = strip code ++ py ".*" \/ x = strip code).
Proof.
  induction codes as [|code codes IH]; simpl.
  - split; [intros []|intros (c & [] & _)].
  - destruct (strip code) as [|a s] eqn:Hs; simpl.
    + rewrite IH. split.
      * intros (c & Hc & H). exists c. auto.
      * intros (c & [<-|Hc] & Hn & H); [congruence|]. exists c. auto.
    + rewrite IH. split.
      * intros [<-|[<-|(c & Hc & H)]].
        -- exists code. rewrite Hs. split; [auto|]. split; [discriminate|auto].
        -- exists code. rewrite Hs. split; [auto|]. split; [discriminate|auto].
        -- exists c. auto.
      * intros (c & [<-|Hc] & Hn & H).
        -- rewrite Hs in H. destruct H as [->| ->]; auto.
        -- right. right. exists c. auto.
Qed.

Lemma not_english_pattern c : c ++ py ".*" <> py "en".
Proof. destruct c as [|a [|b [|d c]]]; discriminate. Qed.

Lemma mem_en_patterns codes :
  mem (py "en") (patterns_of codes) = mem (py "en") (List.map strip codes).
Proof.
  apply eq_true_iff_eq. rewrite !mem_In, patterns_of_In, in_map_iff. split.
  - intros (c & Hc & _ & [H|H]); [symmetry in H; destruct (not_english_pattern _ H)|].
    exists c. auto.
  - intros (c & Hs & Hc). exists c. split; [exact Hc|]. rewrite Hs.
    split; [discriminate|auto].
Qed.

Lemma missing_patterns_app a b opts :
  missing_patterns (a ++ b) opts = missing_patterns a opts ++ missing_patterns b opts.
Proof.
  induction a as [|code a IH]; [reflexivity|]. simpl.
  destruct (negb (truthy (strip code))); [exact IH|].
  destruct (negb (mem (strip code) opts)); [|exact IH].
  simpl. rewrite IH. reflexivity.
Qed.

Lemma missing_patterns_present codes opts :
  (forall code, In code codes -> strip code <> [] -> In (strip code) opts) ->
  missing_patterns codes opts = [].
Proof.
  induction codes as [|code codes IH]; intros H; [reflexivity|]. simpl.
  destruct (truthy (strip code)) eqn:Ht; simpl.
  - assert (Hin : In (strip code) opts)
      by (apply H; [left; reflexivity|apply truthy_true, Ht]).
    apply mem_In in Hin. rewrite Hin. simpl. apply IH. intros c Hc. apply H. right. exact Hc.
  - apply IH. intros c Hc. apply H. right. exact Hc.
Qed.

Lemma missing_patterns_single c opts :
  strip c = c -> c <> [] ->
  missing_patterns [c] opts = if mem c opts then [] else [c ++ py ".*"; c].
Proof.
  intros Hs Hn. unfold missing_patterns. rewrite Hs.
  destruct c as [|a c]; [congruence|]. cbn [truthy negb].
  destruct (mem (a :: c) opts); reflexivity.
Qed.

Section Facts.

Variable TRANSCRIPT_LANGS : list pystr.
Variable unicode_digit : N -> bool.
Variable YoutubeDL : list pystr -> outcome (suffix -> option pystr).
Variable srv3_text : pystr -> pystr.

Local Abbreviation requested_subtitles := (YtDlp.requested_subtitles TRANSCRIPT_LANGS).
Local Abbreviation fetch_ytdlp :=
  (YtDlp.fetch_ytdlp TRANSCRIPT_LANGS unicode_digit YoutubeDL srv3_text).

Lemma requested_subtitles_spec languages :
  let lang_list := match languages with [] => TRANSCRIPT_LANGS | _ => languages end in
  requested_subtitles languages =
  if mem (py "en") (List.map strip lang_list) then patterns_of lang_list else english_only.
Proof.
  cbv zeta. unfold YtDlp.requested_subtitles. cbv zeta.
  set (lang_list := match languages with [] => TRANSCRIPT_LANGS | _ => languages end).
  set (opts := match patterns_of lang_list with
               | [] => [py "en.*"; py "en"]
               | _ => patterns_of lang_list
               end).
  assert (Hpresent : forall code, In code lang_list -> strip code <> [] ->
                                  In (strip code) opts).
  { intros code Hc Hn.
    assert (Hin : In (strip code) (patterns_of lang_list))
      by (apply patterns_of_In; exists code; auto).
    unfold opts. destruct (patterns_of lang_list); [destruct Hin|exact Hin]. }
  assert (Hen : missing_patterns [py "en"] opts =
                if mem (py "en") opts then [] else english_only).
  { apply (missing_patterns_single (py "en")); [reflexivity|discriminate]. }
  assert (Hopts : (if mem (py "en") opts then opts else english_only) =
                  if mem (py "en") (List.map strip lang_list)
                  then patterns_of lang_list else english_only).
  { rewrite <- mem_en_patterns. unfold opts.
    destruct (patterns_of lang_list) as [|x xs] eqn:Hp; [reflexivity|].
    destruct (mem (py "en") (x :: xs)); reflexivity. }
  rewrite <- Hopts.
  assert (Hmissing : missing_patterns
            (if mem (py "en") languages then languages else languages ++ [py "en"]) opts
            = if mem (py "en") opts then [] else english_only).
  { destruct languages as [|l ls].
    - simpl (mem _ []). cbv iota. exact Hen.
    - destruct (mem (py "en") (l :: ls)) eqn:Hraw.
      + rewrite (missing_patterns_present (l :: ls) opts Hpresent).
        assert (Hm : mem (py "en") opts = true).
        { apply mem_In. apply mem_In in Hraw.
          change (py "en") with (strip (py "en")). apply Hpresent; [exact Hraw|discriminate]. }
        rewrite Hm. reflexivity.
      + rewrite missing_patterns_app, (missing_patterns_present (l :: ls) opts Hpresent).
        exact Hen. }
  rewrite Hmissing. destruct (mem (py "en") opts); reflexivity.
Qed.

(** X18. The subtitle languages that [fetch_ytdlp] asks yt-dlp for. When
    a code of the list (the caller's, or [TRANSCRIPT_LANGS] when the caller
    gives none) is ["en"] once stripped, they are the patterns of the
    codes of the list, each non-blank code [c] giving [c.*] and [c]. In
    every other case they are the patterns of English alone: the step
    that is meant to add English as a last resort replaces the languages
    of the caller. *)
Theorem fetch_ytdlp_subtitle_languages languages :
  let lang_list := match languages with [] => TRANSCRIPT_LANGS | _ => languages end in
  subtitleslangs (fetch_ytdlp languages) =
  if mem (py "en") (List.map strip lang_list) then patterns_of lang_list else english_only.
Proof. apply requested_subtitles_spec. Qed.

End Facts.

(** A variant of the table strips to ["en"] only for the code ["en"]. *)
Lemma variants_of_english c v :
  strip c = c -> In v (variants_of c) -> strip v = py "en" -> c = py "en".
Proof.
  unfold variants_of, mapping. intros Hc.
  repeat (cbn [dict_get];
          match goal with
          | |- context [pystr_eqb c ?k] =>
              destruct (pystr_eqb c k) eqn:?He;
              [apply pystr_eqb_eq in He; subst c;
               intros Hv Hs;
               repeat (destruct Hv as [<-|Hv]; [try reflexivity; vm_compute in Hs; discriminate|]);
               destruct Hv
              |clear He]
          end).
  cbn [dict_get]. intros [<-|[]] Hs. congruence.
Qed.

(** X19. The languages of a request that does not name English do not
    reach yt-dlp. For codes of which none is ["en"] once stripped, and at
    least one is not blank, [fetch_ytdlp], handed the list that
    [expand_preferred_langs] makes of them in [get_transcript_endpoint],
    asks for English subtitles only, and labels the payload it returns with
    the first of the codes. *)
Theorem explicit_languages_lost_in_ytdlp
    TRANSCRIPT_LANGS unicode_digit YoutubeDL srv3_text codes first rest :
  requested TRANSCRIPT_LANGS codes = first :: rest ->
  ~ In (py "en") (requested TRANSCRIPT_LANGS codes) ->
  let languages := expand_preferred_langs TRANSCRIPT_LANGS codes false in
  let r := fetch_ytdlp TRANSCRIPT_LANGS unicode_digit YoutubeDL srv3_text languages in
  subtitleslangs r = english_only /\
  forall p, payload r = Some p -> label (language p) = first.
Proof.
  intros Hreq Hen languages r.
  destruct (expand_members TRANSCRIPT_LANGS codes false) as [_ Hmem].
  pose proof (expand_head TRANSCRIPT_LANGS codes false) as Hhd.
  cbn [andb] in Hhd. rewrite Hreq in Hhd. cbn [hd_error] in Hhd.
  fold languages in Hmem, Hhd.
  destruct languages as [|l ls] eqn:Hl; [discriminate|]. inversion Hhd; subst l.
  assert (Hfirst : strip first = first /\ first <> []).
  { assert (Hin : In first (requested TRANSCRIPT_LANGS codes)) by (rewrite Hreq; left; reflexivity).
    unfold requested in Hin. apply filter_In in Hin as [Hin Ht].
    apply in_map_iff in Hin as (c0 & <- & _). split; [apply strip_idem|apply truthy_true, Ht]. }
  split.
  - unfold r, fetch_ytdlp. cbn [subtitleslangs]. rewrite requested_subtitles_spec.
    cbv zeta.
    destruct (mem (py "en") (List.map strip (first :: ls))) eqn:Hm; [|reflexivity].
    exfalso. apply mem_In, in_map_iff in Hm as (v & Hs & Hv).
    apply Hmem in Hv as (c & Hc & Hv). apply Hen.
    assert (Hcs : strip c = c).
    { unfold requested in Hc. apply filter_In in Hc as [Hc _].
      apply in_map_iff in Hc as (c0 & <- & _). apply strip_idem. }
    rewrite <- (variants_of_english c v Hcs Hv Hs). exact Hc.
  - intros p Hp. unfold r, fetch_ytdlp in Hp. cbn [payload] in Hp.
    destruct (YoutubeDL _) as [files|e]; [|discriminate].
    destruct (files srv3), (files vtt), (files srt); inversion Hp; subst p;
      unfold make_fallback_payload; destruct Hfirst as [Hs Hn]; rewrite Hs;
      (destruct first as [|a f]; [congruence|]); reflexivity.
Qed.

Lemma explicit_languages_lost_in_ytdlp_witness :
  let languages := expand_preferred_langs default_langs [py "es"] false in
  let r := fetch_ytdlp default_langs Samples.sample_table sample_run (fun raw => raw)
             languages in
  hd_error languages = Some (py "es") /\
  subtitleslangs r = english_only /\
  forall p, payload r = Some p -> label (language p) = py "es".
Proof.
  intros languages r. split; [reflexivity|].
  apply (explicit_languages_lost_in_ytdlp default_langs Samples.sample_table sample_run
           (fun raw => raw) [py "es"] (py "es") []).
  - reflexivity.
  - vm_compute. intuition discriminate.
Defined.

End YtDlpSpec.

Module ApiSpec.
Import Transcript Str StrProps Api ApiProps StrSpec.

Section Facts.

Variable TRANSCRIPT_LANGS : list pystr.
Variable L : library.

Local Abbreviation fetch_from_transcript := (Api.fetch_from_transcript L).
Local Abbreviation assign_fetch := (Api.assign_fetch L).
Local Abbreviation assign_candidate := (Api.assign_candidate L).
Local Abbreviation select := (Api.select L).
Local Abbreviation fetch_api_once := (Api.fetch_api_once TRANSCRIPT_LANGS L).

Lemma assign_fetch_fails t st :
  fetches_fail L -> ft (assign_fetch t st) = None.
Proof.
  intros H. unfold Api.assign_fetch, Api.fetch_from_transcript.
  destruct (H (fetches st) t) as (e & ->). reflexivity.
Qed.

Lemma assign_candidate_fails t st :
  fetches_fail L -> ft (assign_candidate t st) = ft st.
Proof.
  intros H. unfold Api.assign_candidate, Api.fetch_from_transcript.
  destruct (H (fetches st) t) as (e & ->). reflexivity.
Qed.

Lemma prefer_original_step_fails po sl ml gl st :
  fetches_fail L -> ft st = None -> ft (prefer_original_step L po sl ml gl st) = None.
Proof.
  intros H Hst. unfold prefer_original_step.
  destruct (po && negb sl && ft_is_none st); [|exact Hst].
  destruct (first_of ml gl); [apply assign_fetch_fails, H|exact Hst].
Qed.

Lemma lookup_step_fails find langs st :
  fetches_fail L -> ft st = None -> ft (lookup_step L find langs st) = None.
Proof.
  intros H Hst. unfold lookup_step.
  destruct (ft_is_none st && _); [|exact Hst].
  destruct (find langs); [rewrite assign_candidate_fails; assumption|reflexivity].
Qed.

Lemma any_step_fails sl ml gl st :
  fetches_fail L -> ft st = None -> ft (any_step L sl ml gl st) = None.
Proof.
  intros H Hst. unfold any_step.
  destruct (ft_is_none st && negb sl); [|exact Hst].
  destruct (first_of ml gl); [apply assign_fetch_fails, H|exact Hst].
Qed.

Lemma translate_step_fails at_ langs t tl st :
  fetches_fail L -> ft st = None ->
  exists st', translate_step L at_ langs (t :: tl) st = Some st' /\ ft st' = None.
Proof.
  intros H Hst. unfold translate_step.
  destruct (ft_is_none st && at_ && _); [|eauto].
  destruct (tr_is_translatable t); [|eauto using assign_fetch_fails].
  destruct (first_translation L t langs); [|eauto using assign_fetch_fails].
  eexists. split; [reflexivity|]. rewrite assign_candidate_fails; assumption.
Qed.

Lemma fetch_api_once_blocked languages prefer_original strict_languages allow_translate
    t tl :
  has_list L = true ->
  list_transcripts L = Return (t :: tl) ->
  fetches_fail L ->
  fetch_api_once languages prefer_original strict_languages allow_translate
  = Raise OtherException.
Proof.
  intros Hl Htl Hf. unfold Api.fetch_api_once, Api.select. rewrite Hl, Htl. cbv zeta.
  match goal with
  | |- context [translate_step L ?a ?b ?c ?st] =>
      destruct (translate_step_fails a b t tl st Hf) as (st' & -> & Hst')
  end.
  - apply any_step_fails; [exact Hf|]. apply lookup_step_fails; [exact Hf|].
    apply lookup_step_fails; [exact Hf|]. apply prefer_original_step_fails; [exact Hf|].
    reflexivity.
  - unfold build_payload. rewrite Hst'. reflexivity.
Qed.

(** X20. When the transcripts of a video can be listed but none can be
    fetched, [fetch_api_once] does not return [None]: it raises, from the
    statements after its [try] block ([TypeError] on [ft = None]), whatever
    the languages and the flags. *)
Theorem fetch_api_once_raises_when_blocked
    languages prefer_original strict_languages allow_translate t tl :
  has_list L = true ->
  list_transcripts L = Return (t :: tl) ->
  fetches_fail L ->
  fetch_api_once languages prefer_original strict_languages allow_translate
  = Raise OtherException.
Proof. apply fetch_api_once_blocked. Qed.

(** X21. Without proxy providers that exception leaves [get_transcript]
    at once: the call raises it, and neither fallback is submitted. *)
Theorem blocked_fetch_skips_fallbacks
    TRANSCRIPT_PROXY_FAILURE_THRESHOLD TRANSCRIPT_PROXY_COOLDOWN_SECONDS
    TRANSCRIPT_PROXY_ATTEMPTS_PER_PROVIDER
    languages prefer_original strict_languages allow_translate t tl :
  has_list L = true ->
  list_transcripts L = Return (t :: tl) ->
  fetches_fail L ->
  let r := Orchestrator.get_transcript
             TRANSCRIPT_PROXY_FAILURE_THRESHOLD TRANSCRIPT_PROXY_COOLDOWN_SECONDS
             TRANSCRIPT_PROXY_ATTEMPTS_PER_PROVIDER
             (env_over TRANSCRIPT_LANGS L languages
                       prefer_original strict_languages allow_translate) [] in
  Orchestrator.result r = Raise OtherException /\ Orchestrator.submitted r = [].
Proof.
  intros Hl Htl Hf. unfold Orchestrator.get_transcript.
  cbn [ProxyPool._select_transcript_proxy_providers env_over Orchestrator.fetch_api_once].
  rewrite (fetch_api_once_blocked _ _ _ _ t tl Hl Htl Hf). split; reflexivity.
Qed.

(** X22. The text of a payload that [fetch_api_once] returns is not
    empty and has no white space at either end. *)
Theorem fetch_api_once_text languages prefer_original strict_languages allow_translate p :
  fetch_api_once languages prefer_original strict_languages allow_translate
  = Return (Some p) ->
  text p <> [] /\ trimmed (text p).
Proof.
  unfold Api.fetch_api_once.
  destruct (select _ _ _ _) as [[st track_manifest]|]; [|discriminate].
  unfold build_payload. destruct (ft st) as [f|]; [|discriminate].
  destruct (strip (join (py " ") (List.map snippet_text (raw_data f)))) as [|c s] eqn:Hs;
    [discriminate|].
  intros H. inversion H; subst p. cbn [text make_transcript_payload].
  split; [discriminate|]. rewrite <- Hs. apply strip_trimmed.
Qed.

(** X23. With [prefer_original] set and [strict_languages] not set, the
    first track of the video wins over the languages asked for: when the
    first manual track (the first generated one if there is no manual
    track) can be fetched and its text is not blank, the payload is that
    track, whatever [languages] and [allow_translate] are. *)
Theorem fetch_api_once_prefers_original languages allow_translate tl t f c s :
  has_list L = true ->
  list_transcripts L = Return tl ->
  first_of (List.filter (fun tr => negb (tr_is_generated tr)) tl)
           (List.filter tr_is_generated tl) = Some t ->
  fetch L 0 t = Return f ->
  strip (join (py " ") (List.map snippet_text (raw_data f))) = c :: s ->
  fetch_api_once languages true false allow_translate
  = Return (Some (make_transcript_payload (c :: s)
                    (str_or (tr_language_code t) unknown)
                    (str_or (tr_language t) (str_or (tr_language_code t) unknown))
                    (ft_is_generated f) (List.map manifest_entry tl) (raw_data f))).
Proof.
  intros Hl Htl Hfirst Hfetch Htext.
  unfold Api.fetch_api_once, Api.select. rewrite Hl, Htl. cbv zeta.
  set (st1 := {| ft := Some f; selected_transcript := Some t; fetches := 1 |}).
  assert (H1 : prefer_original_step L true false
                 (List.filter (fun tr => negb (tr_is_generated tr)) tl)
                 (List.filter tr_is_generated tl)
                 {| ft := None; selected_transcript := None; fetches := 0 |} = st1).
  { unfold prefer_original_step. cbn [andb negb ft_is_none ft]. rewrite Hfirst.
    unfold Api.assign_fetch, Api.fetch_from_transcript. cbn [fetches]. rewrite Hfetch.
    reflexivity. }
  rewrite H1.
  assert (H2 : forall find langs, lookup_step L find langs st1 = st1) by reflexivity.
  rewrite !H2.
  change (any_step L false (List.filter (fun tr => negb (tr_is_generated tr)) tl)
            (List.filter tr_is_generated tl) st1) with st1.
  change (translate_step L allow_translate
            match languages with
            | [] => Lang.expand_preferred_langs TRANSCRIPT_LANGS TRANSCRIPT_LANGS true
            | _ :: _ => languages
            end tl st1) with (Some st1).
  unfold build_payload. cbn [ft selected_transcript st1]. cbv zeta. rewrite Htext.
  reflexivity.
Qed.

End Facts.

Lemma fetch_api_once_raises_when_blocked_witness :
  fetch_api_once LangProps.default_langs blocked_library [py "en"] true false true
  = Raise OtherException.
Proof.
  apply (fetch_api_once_raises_when_blocked LangProps.default_langs blocked_library
           [py "en"] true false true english_track []).
  - reflexivity.
  - reflexivity.
  - intros n t. exists RetrievalError. reflexivity.
Defined.

Lemma blocked_fetch_skips_fallbacks_witness :
  let r := Orchestrator.get_transcript 2 (seconds 300) 2
             (env_over LangProps.default_langs blocked_library [py "en"] true false false)
             [] in
  Orchestrator.result r = Raise OtherException /\ Orchestrator.submitted r = [].
Proof.
  apply (blocked_fetch_skips_fallbacks LangProps.default_langs blocked_library
           2 (seconds 300) 2 [py "en"] true false false english_track []).
  - reflexivity.
  - reflexivity.
  - intros n t. exists RetrievalError. reflexivity.
Defined.

Lemma fetch_api_once_text_witness :
  exists p,
    fetch_api_once LangProps.default_langs english_library [py "es"] true false false
    = Return (Some p) /\ text p = py "never gonna give you up" /\ trimmed (text p).
Proof.
  eexists. split; [vm_compute; reflexivity|]. split; [reflexivity|].
  eapply (fetch_api_once_text LangProps.default_langs english_library
            [py "es"] true false false).
  vm_compute. reflexivity.
Defined.

(** Spanish is asked for, the English original is returned. *)
Lemma fetch_api_once_prefers_original_witness :
  exists p,
    fetch_api_once LangProps.default_langs english_library [py "es"] true false false
    = Return (Some p) /\ code (language p) = py "en".
Proof.
  eexists. split.
  - apply (fetch_api_once_prefers_original LangProps.default_langs english_library
             [py "es"] false [english_track] english_track english_fetched
             110%N (py "ever gonna give you up")); reflexivity.
  - reflexivity.
Defined.

End ApiSpec.


Module VideoIdLinksSpec.
Import VideoId VideoIdProps.

Section Facts.

Variable unicode_alnum : N -> bool.

Local Abbreviation extract_video_id := (VideoId.extract_video_id unicode_alnum).
Local Abbreviation validate_video_id := (VideoId.validate_video_id unicode_alnum).
Local Abbreviation video_id_class := (VideoId.video_id_class unicode_alnum).

Lemma take_class_app cls cap : forall rest,
  forallb cls cap = true -> take_class cls (length cap) (cap ++ rest) = Some (cap, rest).
Proof.
  induction cap as [|c cap IH]; intros rest H; [reflexivity|].
  simpl in *. apply andb_prop in H as [Hc H]. rewrite Hc, (IH rest H). reflexivity.
Qed.

Lemma id_class_ascii c : id_class c = true -> (c < 128)%N.
Proof.
  unfold id_class, ascii_lower, ascii_upper, ascii_digit, in_range.
  rewrite !orb_true_iff, !andb_true_iff, !N.leb_le, !N.eqb_eq. lia.
Qed.

Lemma id_class_word c : id_class c = true -> video_id_class c = true.
Proof.
  intros H. rewrite (VideoIdSpec.video_id_class_ascii unicode_alnum c (id_class_ascii c H)).
  exact H.
Qed.

(** A string that matches the regular expression of the data model is
    accepted as it is. *)
Lemma matches_id_regex_valid vid :
  matches_id_regex vid = true -> validate_video_id vid = true.
Proof.
  unfold matches_id_regex, VideoId.validate_video_id. intros H.
  apply andb_prop in H as [Hl Hc]. apply Nat.eqb_eq in Hl.
  assert (Hw : forallb video_id_class vid = true).
  { apply forallb_forall. intros c Hin. apply id_class_word.
    rewrite forallb_forall in Hc. apply Hc, Hin. }
  pose proof (take_class_app video_id_class vid [] Hw) as Ht.
  rewrite app_nil_r, Hl in Ht. rewrite Ht. reflexivity.
Qed.

Lemma re_search_skip p c s :
  match_here p (c :: s) = None -> re_search p (c :: s) = re_search p s.
Proof. intros H. simpl. rewrite H. reflexivity. Qed.

Lemma re_search_here p s cap :
  match_here p s = Some cap -> re_search p s = Some cap.
Proof. intros H. destruct s; simpl; rewrite H; reflexivity. Qed.

(** X24. On an input made of ASCII characters, what [extract_video_id]
    returns matches [^[A-Za-z0-9_-]{11}$]. *)
Theorem extract_video_id_ascii_matches url vid :
  Forall (fun c => (c < 128)%N) url ->
  extract_video_id url = Some vid ->
  matches_id_regex vid = true.
Proof.
  intros Hascii H. apply (VideoIdSpec.extract_video_id_ascii unicode_alnum url); assumption.
Qed.

(** The literal [prefix] written out, character by character. *)
Ltac spell prefix :=
  let s := eval vm_compute in prefix in
  change prefix with s; cbn [app].

(** [extract_video_id] on a link made of a written-out prefix, an id and a
    rest: the search skips the positions of the prefix at which nothing
    matches and captures the id at the first position at which an
    alternative does. *)
Ltac follow_link prefix vid Hv Ht :=
  unfold VideoId.extract_video_id;
  replace (validate_video_id (prefix ++ _ ++ _)) with false by reflexivity;
  unfold patterns, VideoId.try_patterns;
  spell prefix;
  repeat (rewrite re_search_skip by reflexivity);
  rewrite (re_search_here _ _ vid);
  [ rewrite Hv; reflexivity
  | unfold match_here; cbn [alternatives group_class group_len];
    spell (py "v="); spell (py "/"); spell (py "embed/"); spell (py "shorts/");
    spell (py "live/");
    cbn [match_alternatives strip_literal N.eqb Pos.eqb];
    rewrite Ht; reflexivity ].

(** X25. The usual links are normalised to their id: for every id that
    matches [^[A-Za-z0-9_-]{11}$], [extract_video_id] returns it from a
    watch, short, embed, shorts or live link, whatever follows the id. *)
Theorem extract_video_id_links prefix vid rest :
  In prefix url_prefixes ->
  matches_id_regex vid = true ->
  extract_video_id (prefix ++ vid ++ rest) = Some vid.
Proof.
  intros Hp H. pose proof (matches_id_regex_valid vid H) as Hv.
  unfold matches_id_regex in H. apply andb_prop in H as [Hl Hc]. apply Nat.eqb_eq in Hl.
  pose proof (take_class_app id_class vid rest Hc) as Ht. rewrite Hl in Ht.
  unfold url_prefixes in Hp.
  destruct Hp as [<-|[<-|[<-|[<-|[<-|[]]]]]].
  - follow_link (py "https://www.youtube.com/watch?v=") vid Hv Ht.
  - follow_link (py "https://youtu.be/") vid Hv Ht.
  - follow_link (py "https://www.youtube.com/embed/") vid Hv Ht.
  - follow_link (py "https://www.youtube.com/shorts/") vid Hv Ht.
  - follow_link (py "https://www.youtube.com/live/") vid Hv Ht.
Qed.

Lemma re_search_none p s :
  re_search p s = None -> forall pre t, s = pre ++ t -> match_here p t = None.
Proof.
  induction s as [|c s IH]; simpl; intros H pre t Hs.
  - destruct pre; [|discriminate]. simpl in Hs. subst t.
    destruct (match_here p []); [discriminate|reflexivity].
  - destruct (match_here p (c :: s)) eqn:Hm; [discriminate|].
    destruct pre as [|d pre]; simpl in Hs.
    + subst t. exact Hm.
    + injection Hs as <- Hs. apply (IH H pre t Hs).
Qed.

Lemma re_search_valid p s cap :
  group_class p = id_class -> group_len p = 11%nat ->
  re_search p s = Some cap -> validate_video_id cap = true.
Proof.
  intros Hc Hl H. apply VideoIdSpec.re_search_spec in H as [Hlen Hall].
  apply matches_id_regex_valid. unfold matches_id_regex.
  rewrite Hlen, Hl, <- Hc, Hall. reflexivity.
Qed.

(** X26. The second extraction pattern, [youtu.be/(...)], never decides:
    wherever it matches, the alternative [/] of the first pattern matches
    too, and a capture of the first pattern is always accepted. Without the
    second pattern [extract_video_id] returns the same on every input. *)
Theorem second_pattern_is_redundant url_or_id :
  extract_video_id url_or_id =
  if validate_video_id url_or_id then Some url_or_id
  else VideoId.try_patterns unicode_alnum (firstn 1 patterns) url_or_id.
Proof.
  unfold VideoId.extract_video_id. destruct (validate_video_id url_or_id); [reflexivity|].
  unfold patterns. cbn [firstn VideoId.try_patterns].
  match goal with
  | |- context [re_search ?p1 url_or_id] => destruct (re_search p1 url_or_id) as [v|] eqn:H1
  end.
  - assert (Hv : validate_video_id v = true)
      by (eapply re_search_valid; [| |exact H1]; reflexivity).
    rewrite Hv. reflexivity.
  - match goal with
    | |- context [re_search ?p2 url_or_id] => destruct (re_search p2 url_or_id) as [v|] eqn:H2
    end; [|reflexivity].
    exfalso. clear -H1 H2.
    induction url_or_id as [|c s IH].
    + simpl in H2. discriminate.
    + assert (Hs : re_search
                     {| alternatives := [py "v="; py "/"; py "embed/"; py "shorts/"; py "live/"];
                        group_class := id_class; group_len := 11 |} s = None).
      { simpl in H1. destruct (match_here _ (c :: s)); [discriminate|exact H1]. }
      simpl in H2. destruct (match_here _ (c :: s)) as [cap|] eqn:Hm; [|apply IH; assumption].
      clear IH H2. unfold match_here in Hm. cbn [alternatives group_class group_len] in Hm.
      cbn [match_alternatives] in Hm.
      destruct (strip_literal (py "youtu.be/") (c :: s)) as [r|] eqn:Hlit; [|discriminate].
      destruct (take_class id_class 11 r) as [[cap' r']|] eqn:Ht; [|discriminate].
      apply StrSpec.strip_literal_spec in Hlit.
      assert (Hpre : c :: s = py "youtu.be" ++ (py "/" ++ r)) by (rewrite Hlit; reflexivity).
      pose proof (re_search_none _ _ H1 (py "youtu.be") (py "/" ++ r) Hpre) as Hnone.
      unfold match_here in Hnone. cbn [alternatives group_class group_len] in Hnone.
      revert Hnone. spell (py "v="). spell (py "/"). cbn [app].
      cbn [match_alternatives strip_literal N.eqb Pos.eqb]. rewrite Ht. discriminate.
Qed.

End Facts.

Lemma extract_video_id_ascii_matches_witness :
  matches_id_regex Samples.sample_id = true.
Proof.
  apply (extract_video_id_ascii_matches Samples.sample_table
           (py "https://youtu.be/dQw4w9WgXcQ?t=43") Samples.sample_id).
  - vm_compute. repeat (constructor; [reflexivity|]). constructor.
  - reflexivity.
Defined.

Lemma extract_video_id_links_witness :
  VideoId.extract_video_id Samples.sample_table
    (py "https://www.youtube.com/shorts/" ++ Samples.sample_id ++ py "?feature=share")
  = Some Samples.sample_id.
Proof.
  apply (extract_video_id_links Samples.sample_table).
  - right. right. right. left. reflexivity.
  - reflexivity.
Defined.

End VideoIdLinksSpec.

(** ** The answers of the two endpoints *)

Module AnswersSpec.
Import Cache.

Section CommentAnswers.
Import Comments.

Variable unicode_alnum : N -> bool.

Local Abbreviation step := (Comments.step unicode_alnum).

(** X27. Comments in the persistent tier are served for good. For a
    video whose list is in [comment_db], a new request is answered 200 at
    its first step, at any clock reading, without election and without
    fetch: with the list in memory if memory holds one that has not
    expired, with the persistent list otherwise, which is then copied into
    memory; the persistent tier is left as it is. *)
Theorem stored_comments_are_served i t w video_url_or_id video_id cs :
  position t = at_start video_url_or_id ->
  VideoId.extract_video_id unicode_alnum video_url_or_id = Some video_id ->
  comment_db w !! video_id = Some cs ->
  exists served w',
    step i t w = (moves (done (ok_comments video_id served)) t, w') /\
    comment_db w' = comment_db w /\
    comment_inflight_events w' = comment_inflight_events w /\
    match cache_get (now i) (comment_cache w) video_id with
    | Some cached_local => served = cached_local /\ w' = w
    | None => served = cs /\
              entries (comment_cache w') !! video_id
              = Some (cs, now i + ttl (comment_cache w))
    end.
Proof.
  intros Hp He Hdb. unfold Comments.step. rewrite Hp.
  destruct video_url_or_id as [|c u]; [discriminate|]. rewrite He.
  unfold _try_serve_from_cache.
  destruct (cache_get (now i) (comment_cache w) video_id) as [cached_local|] eqn:Hc.
  - exists cached_local, w. auto.
  - rewrite Hdb. exists cs, (write_memory (now i) video_id cs w).
    repeat split; try reflexivity. cbn. apply lookup_insert_eq.
Qed.

End CommentAnswers.

Section TranscriptAnswers.
Import Transcript AnswersProps.

Variable unicode_alnum : N -> bool.

Local Abbreviation step := (Transcript.step unicode_alnum).
Local Abbreviation serve := (TranscriptProps.serve unicode_alnum).

(** X28. A negative marker in the persistent tier does not expire. For
    a request whose cache key has the marker in [transcript_db] and nothing
    (left) in memory, the first step answers 404, at any clock reading,
    without election and without fetch, and leaves the globals as they
    are. *)
Theorem stored_marker_is_permanent i t w video_id :
  position t = at_start ->
  VideoId.extract_video_id unicode_alnum (videoId (query t)) = Some video_id ->
  cache_get (now i) (transcript_cache w) (cache_key_of video_id (query t)) = None ->
  transcript_db w !! cache_key_of video_id (query t) = Some (cached_str NOT_AVAILABLE) ->
  step i t w = (moves (done not_available) t, w).
Proof.
  intros Hp He Hm Hdb. unfold Transcript.step. rewrite Hp.
  destruct (videoId (query t)) as [|c u] eqn:Hv; [discriminate|]. rewrite He.
  unfold lookup_first, or_else, Transcript.serve. rewrite Hm. cbv beta iota.
  rewrite Hdb. reflexivity.
Qed.

Lemma serve_known now video_id cache_key q cached w r w' :
  Transcript.serve now video_id cache_key q cached w = (Some r, w') -> known_status r.
Proof.
  unfold Transcript.serve, known_status. destruct cached as [v|]; [|discriminate].
  destruct (is_marker v); [intros H; inversion H; subst; cbn; auto|].
  destruct (ensure_payload v (languages q)); intros H; inversion H; subst; cbn; auto.
Qed.

Lemma lookup_first_known now video_id cache_key q w r w' :
  lookup_first now video_id cache_key q w = (Some r, w') -> known_status r.
Proof.
  unfold lookup_first, or_else.
  destruct (Transcript.serve now video_id cache_key q
              (cache_get now (transcript_cache w) cache_key) w) as [[r1|] w1] eqn:H1.
  - intros H; inversion H; subst. eapply serve_known, H1.
  - destruct (Transcript.serve now video_id cache_key q (transcript_db w1 !! cache_key) w1)
      as [[r2|] w2] eqn:H2.
    + intros H; inversion H; subst. eapply serve_known, H2.
    + destruct (legacy_allowed q); [|discriminate]. apply serve_known.
Qed.

Lemma lookup_after_wait_known now video_id cache_key q w r w' :
  lookup_after_wait now video_id cache_key q w = (Some r, w') -> known_status r.
Proof.
  unfold lookup_after_wait, or_else.
  destruct (Transcript.serve now video_id cache_key q
              (cache_get now (transcript_cache w) cache_key) w) as [[r1|] w1] eqn:H1.
  - intros H; inversion H; subst. eapply serve_known, H1.
  - apply serve_known.
Qed.

Ltac tidy :=
  cbn [fst snd Transcript.position Transcript.query Transcript.moves rank answers_known
       status json max_age respond not_available not_available_short new_event] in *.

Ltac known := unfold known_status; tidy; auto.

Lemma step_known i t w :
  answers_known (position t) -> answers_known (position (fst (step i t w))).
Proof.
  unfold Transcript.step. cbv zeta. destruct (position t) eqn:Hp; tidy; intros H.
  - destruct (videoId (query t)); tidy; [known|].
    destruct (VideoId.extract_video_id _ _); tidy; [|known].
    destruct (lookup_first _ _ _ _ _) as [[r|] w'] eqn:Hl; tidy; [|exact I].
    eapply lookup_first_known, Hl.
  - destruct (transcript_inflight_events w !! cache_key); tidy; exact I.
  - exact I.
  - destruct (lookup_after_wait _ _ _ _ _) as [[r|] w'] eqn:Hl; tidy; [|exact I].
    eapply lookup_after_wait_known, Hl.
  - destruct (fetched i) as [payload|[]]; tidy; try exact I; try known.
    destruct (attempts + 1 <? 2); tidy; [exact I|known].
  - exact I.
  - known.
  - destruct (cache_contains _ _ _); tidy; [known|exact I].
  - known.
  - destruct leader; [destruct (transcript_inflight_events w !! cache_key)|]; tidy; exact H.
  - rewrite Hp. exact H.
Qed.

Lemma step_nearer i t w :
  position t = position (fst (step i t w)) /\ rank (position t) = 0%nat \/
  (rank (position (fst (step i t w))) < rank (position t))%nat.
Proof.
  unfold Transcript.step. cbv zeta. destruct (position t) eqn:Hp; tidy.
  - right. destruct (videoId (query t)); tidy; [lia|].
    destruct (VideoId.extract_video_id _ _); tidy; [|lia].
    destruct (lookup_first _ _ _ _ _) as [[r|] w']; tidy; lia.
  - right. destruct (transcript_inflight_events w !! cache_key); tidy; lia.
  - right. lia.
  - right. destruct (lookup_after_wait _ _ _ _ _) as [[r|] w']; tidy; lia.
  - right. destruct (fetched i) as [payload|[]]; tidy; try lia.
    destruct (Z.ltb_spec (attempts + 1) 2); tidy; lia.
  - right. lia.
  - right. lia.
  - right. destruct (cache_contains _ _ _); tidy; lia.
  - right. lia.
  - right. destruct leader; [destruct (transcript_inflight_events w !! cache_key)|]; tidy; lia.
  - left. rewrite Hp. auto.
Qed.

Lemma serve_answers : forall schedule t w,
  answers_known (position t) -> (rank (position t) <= length schedule)%nat ->
  exists r t' w', serve schedule t w = (t', w') /\ position t' = done r /\ known_status r.
Proof.
  induction schedule as [|[i others] rest IH]; intros t w Hk Hrank.
  - simpl in *. destruct (position t) eqn:Hp; simpl in Hrank; try lia.
    exists r, t, w. auto.
  - cbn [TranscriptProps.serve].
    pose proof (step_known i t (others w) Hk) as Hk'.
    pose proof (step_nearer i t (others w)) as Hr.
    destruct (Transcript.step unicode_alnum i t (others w)) as [t1 w1] eqn:Hs.
    cbn [fst] in *. apply IH; [exact Hk'|].
    cbn [length] in Hrank. destruct Hr as [[Heq H0]|Hlt]; [rewrite <- Heq|]; lia.
Qed.

(** X29. Every request to [/transcript] is answered within nine steps,
    whatever the clock, the fetches and the other requests do in between,
    and its status is 200, 400, 404 or 500. *)
Theorem transcript_always_answers schedule q w :
  (9 <= length schedule)%nat ->
  exists r t' w',
    serve schedule {| query := q; position := at_start |} w = (t', w') /\
    position t' = done r /\ known_status r.
Proof.
  intros H. apply serve_answers; [exact I|exact H].
Qed.

End TranscriptAnswers.

Lemma stored_comments_are_served_witness :
  let w := Comments.write_persistent Samples.sample_id [py "first"]
             (CommentsProps.empty_world (seconds 7200)) in
  let t := {| Comments.position := Comments.at_start Samples.sample_id;
              Comments.registered := false |} in
  let i := {| Comments.now := seconds 1000000; Comments.fetched := Raise OtherException |} in
  exists w',
    Comments.step Samples.sample_table i t w
    = (Comments.moves (Comments.done (Comments.ok_comments Samples.sample_id [py "first"])) t,
       w').
Proof.
  intros w t i.
  destruct (stored_comments_are_served Samples.sample_table i t w
              Samples.sample_id Samples.sample_id [py "first"])
    as (served & w' & Hs & _ & _ & Hm).
  - reflexivity.
  - reflexivity.
  - apply lookup_insert_eq.
  - assert (Hnone : cache_get (Comments.now i) (Comments.comment_cache w) Samples.sample_id
                    = None).
    { unfold cache_get. cbn. rewrite lookup_empty. reflexivity. }
    rewrite Hnone in Hm. destruct Hm as [-> _]. exists w'. exact Hs.
Defined.

Lemma stored_marker_is_permanent_witness :
  let w := Transcript.write_persistent Samples.sample_id
             (Transcript.cached_str Transcript.NOT_AVAILABLE)
             (TranscriptProps.empty_world (seconds 7200)) in
  let t := {| Transcript.query := TranscriptProps.sample_query;
              Transcript.position := Transcript.at_start |} in
  let i := TranscriptProps.gives (seconds 1000000) (Return Samples.sample_payload) in
  Transcript.step Samples.sample_table i t w
  = (Transcript.moves (Transcript.done Transcript.not_available) t, w).
Proof.
  intros w t i.
  apply (stored_marker_is_permanent Samples.sample_table i t w Samples.sample_id).
  - reflexivity.
  - reflexivity.
  - unfold cache_get. cbn. rewrite lookup_empty. reflexivity.
  - apply lookup_insert_eq.
Defined.

Lemma transcript_always_answers_witness :
  let i := TranscriptProps.gives 0 (Raise RequestException) in
  exists r t' w',
    TranscriptProps.serve Samples.sample_table
      (List.repeat (i, TranscriptProps.untouched) 9)
      {| Transcript.query := TranscriptProps.sample_query;
         Transcript.position := Transcript.at_start |}
      (TranscriptProps.empty_world (seconds 7200)) = (t', w') /\
    Transcript.position t' = Transcript.done r /\ AnswersProps.known_status r.
Proof.
  intros i. apply (transcript_always_answers Samples.sample_table). simpl. lia.
Defined.

End AnswersSpec.

(** ** The cache reader *)

Module CacheReaderSpec.
Import Cache Transcript CacheReader.

(** X30. [_get_or_spawn_transcript] only reads the persistent tier,
    never returns the negative marker, and a value it returns is found
    again: asked once more at the same clock reading it returns the same
    value, from memory, and changes nothing. *)
Theorem get_or_spawn_settles now video_id w val w' :
  0 < ttl (transcript_cache w) ->
  _get_or_spawn_transcript now video_id w = (Return val, w') ->
  is_marker val = false /\
  transcript_db w' = transcript_db w /\
  cache_get now (transcript_cache w') video_id = Some val /\
  _get_or_spawn_transcript now video_id w' = (Return val, w').
Proof.
  intros Httl. unfold _get_or_spawn_transcript at 1.
  destruct (cache_get now (transcript_cache w) video_id) as [v|] eqn:Hm.
  - destruct (is_marker v) eqn:Hk; [discriminate|]. intros H; inversion H; subst.
    unfold _get_or_spawn_transcript. rewrite Hm, Hk. auto.
  - destruct (transcript_db w !! video_id) as [v|] eqn:Hd; [|discriminate].
    destruct (is_marker v) eqn:Hk; [discriminate|]. intros H; inversion H; subst.
    assert (Hget : cache_get now (transcript_cache (write_memory now video_id val w)) video_id
                   = Some val).
    { unfold cache_get, write_memory, cache_setitem. cbn [transcript_cache entries].
      rewrite lookup_insert_eq.
      destruct (Z.ltb_spec now (now + ttl (transcript_cache w))); [reflexivity|lia]. }
    repeat split; [exact Hk|exact Hget|].
    unfold _get_or_spawn_transcript. rewrite Hget, Hk. reflexivity.
Qed.

Lemma get_or_spawn_settles_witness :
  let w := write_persistent Samples.sample_id (cached_payload Samples.sample_payload)
             (TranscriptProps.empty_world (seconds 7200)) in
  let w' := write_memory 5 Samples.sample_id (cached_payload Samples.sample_payload) w in
  _get_or_spawn_transcript 5 Samples.sample_id w'
  = (Return (cached_payload Samples.sample_payload), w').
Proof.
  intros w w'.
  apply (get_or_spawn_settles 5 Samples.sample_id w (cached_payload Samples.sample_payload) w').
  - reflexivity.
  - assert (Hm : cache_get 5 (transcript_cache w) Samples.sample_id = None)
      by (unfold cache_get; cbn; rewrite lookup_empty; reflexivity).
    assert (Hd : transcript_db w !! Samples.sample_id
                 = Some (cached_payload Samples.sample_payload))
      by apply lookup_insert_eq.
    unfold _get_or_spawn_transcript. rewrite Hm, Hd. reflexivity.
Defined.

End CacheReaderSpec.
